(** * drawlib: a shallow embedding of the canvas, path and transform code

    The Go package [drawlib] (helper.go, matrix.go and the canvas file) is
    embedded function by function.  [float64] is Rocq's primitive binary64
    [float]; every Go expression is evaluated operation by operation with
    IEEE rounding (no fused multiply-add, as the gc compiler does on amd64).
    Go's [int] is a 64-bit and [fixed.Int26_6] a 32-bit two's complement
    integer, both carried in [Z] with the wrap-around written out. *)

From Stdlib Require Import ZArith List Bool Lia Floats String.
From stdpp Require Import base option list gmap.

Open Scope Z_scope.

(** ** Machine integers and conversions *)

Definition wrap (w : Z) (z : Z) : Z := (z + 2 ^ (w - 1)) mod 2 ^ w - 2 ^ (w - 1).
Definition wrap64 : Z -> Z := wrap 64.
Definition wrap32 : Z -> Z := wrap 32.

Definition min_int64 : Z := - 2 ^ 63.

(** [int(f)] for a [float64]: the fraction is discarded.  Go leaves the result
    implementation-dependent when the value does not fit (NaN, infinities,
    magnitudes of 2^63 and more); amd64's CVTTSD2SQ, which gc uses, returns
    the smallest [int64] there. *)
Definition int_of_float64 (f : float) : Z :=
  match Prim2SF f with
  | S754_zero _ => 0
  | S754_finite s m e =>
      let a := if 0 <=? e then Z.pos m * 2 ^ e else Z.pos m / 2 ^ (- e) in
      let v := if s then - a else a in
      if (min_int64 <=? v) && (v <? 2 ^ 63) then v else min_int64
  | _ => min_int64
  end.

(** [float64(i)] for an [int]: rounded to nearest even. *)
Definition float64_of_int (i : Z) : float :=
  if 0 <=? i then of_uint63 (Uint63.of_Z i)
  else if i =? min_int64 then (- (of_uint63 (Uint63.of_Z (2 ^ 62)) * 2))%float
  else (- of_uint63 (Uint63.of_Z (- i)))%float.

(** ** Outcomes of a call: a value, a run-time panic, or a loop that was not
    seen to end within the fuel given to the model *)

Inductive panic : Set :=
  | IndexOutOfRange
  | NilDereference
  | BadPath
  | MakeSliceLen.

Inductive outcome (A : Type) : Type :=
  | Ok (a : A)
  | Panic (why : panic)
  | OutOfFuel.
Arguments Ok {A} a.
Arguments Panic {A} why.
Arguments OutOfFuel {A}.

#[global] Instance outcome_ret : MRet outcome := fun _ a => Ok a.
#[global] Instance outcome_bind : MBind outcome := fun _ _ k m =>
  match m with
  | Ok a => k a
  | Panic why => Panic why
  | OutOfFuel => OutOfFuel
  end.

(** A slice index expression [s[i]]: out of range is a run-time panic. *)
Definition index {A} (s : list A) (i : nat) : outcome A :=
  match s !! i with
  | Some a => Ok a
  | None => Panic IndexOutOfRange
  end.

(** A dereference of a pointer that may be nil. *)
Definition deref {A} (p : option A) : outcome A :=
  match p with
  | Some a => Ok a
  | None => Panic NilDereference
  end.

(** ** What the package takes from outside its own files

    [math.Hypot], [math.Cos] and [math.Sin] belong to Go's library; [Unfix]
    and [Fix] are helpers of the package (26.6 fixed point to [float64] and
    back) whose file is not among the sources.  They are parameters. *)
Class Externals := {
  Hypot : float -> float -> float;
  Cos : float -> float;
  Sin : float -> float;
  Unfix : Z -> float;
  Fix : float -> Z
}.

(** ** fixed.Point26_6 and raster.Path (golang.org/x/image, freetype) *)

Record Point26_6 := { PX : Z; PY : Z }.

(** [fixed.I(i)] is [Int26_6(i << 6)]: the shift is done on the 64-bit [int],
    the conversion keeps the low 32 bits. *)
Definition fixed_I (i : Z) : Z := wrap32 (wrap64 (i * 64)).

(** A [raster.Path] is a flat slice of [Int26_6]: each command is its tag,
    its coordinates, and the tag again. *)
Definition Path := list Z.

Definition Path_Start (p : Path) (a : Point26_6) : Path :=
  p ++ [0; PX a; PY a; 0].
Definition Path_Add1 (p : Path) (b : Point26_6) : Path :=
  p ++ [1; PX b; PY b; 1].
Definition Path_Add2 (p : Path) (b c : Point26_6) : Path :=
  p ++ [2; PX b; PY b; PX c; PY c; 2].
Definition Path_Clear (p : Path) : Path := [].

(** ** helper.go: Vector *)

Record Vector := NewVector { X : float; Y : float }.

Module Vector.
Definition Distance (v v2 : Vector) : float :=
  let dx := (X v - X v2)%float in
  let dy := (Y v - Y v2)%float in
  sqrt (dx * dx + dy * dy)%float.

Definition Fixed (v : Vector) : Point26_6 :=
  {| PX := fixed_I (int_of_float64 (X v));
     PY := fixed_I (int_of_float64 (Y v)) |}.

Definition Interpolate (v v2 : Vector) (t : float) : Vector :=
  let x := (X v + (X v2 - X v) * t)%float in
  let y := (Y v + (Y v2 - Y v) * t)%float in
  NewVector x y.

Definition GetLength (v : Vector) : float :=
  sqrt (X v * X v + Y v * Y v)%float.

Definition Add (v v2 : Vector) : Vector :=
  NewVector (X v + X v2) (Y v + Y v2).

Definition Subtract (v v2 : Vector) : Vector :=
  NewVector (X v - X v2) (Y v - Y v2).

Definition Multiply (v v2 : Vector) : Vector :=
  NewVector (X v * X v2) (Y v * Y v2).

Definition Divide (v v2 : Vector) : Vector :=
  NewVector (X v / X v2) (Y v / Y v2).

Definition Dot (v v2 : Vector) : float :=
  (X v * X v2 + Y v * Y v2)%float.

Definition Unit (v : Vector) : float :=
  (1 / sqrt (X v * X v + Y v * Y v))%float.

Definition Copy (v : Vector) : Vector := NewVector (X v) (Y v).

(** The methods that write through the receiver [v *Vector] work on a store
    of vectors, one assignment at a time, so that a second argument that is
    the receiver itself reads what was just written. *)
Definition store := gmap positive Vector.

Definition setX (v : positive) (x : float) (s : store) : outcome store :=
  r ← deref (s !! v); Ok (<[v := NewVector x (Y r)]> s).

Definition setY (v : positive) (y : float) (s : store) : outcome store :=
  r ← deref (s !! v); Ok (<[v := NewVector (X r) y]> s).

Definition AddTo (v v2 : positive) (s : store) : outcome store :=
  r ← deref (s !! v); a ← deref (s !! v2);
  s ← setX v (X r + X a) s;
  r ← deref (s !! v); a ← deref (s !! v2);
  setY v (Y r + Y a) s.

Definition SubtractForm (v v2 : positive) (s : store) : outcome store :=
  r ← deref (s !! v); a ← deref (s !! v2);
  s ← setX v (X r - X a) s;
  r ← deref (s !! v); a ← deref (s !! v2);
  setY v (Y r - Y a) s.

Definition MultiplyBy (v v2 : positive) (s : store) : outcome store :=
  r ← deref (s !! v); a ← deref (s !! v2);
  s ← setX v (X r * X a) s;
  r ← deref (s !! v); a ← deref (s !! v2);
  setY v (Y r * Y a) s.

Definition DivideBy (v v2 : positive) (s : store) : outcome store :=
  r ← deref (s !! v); a ← deref (s !! v2);
  s ← setX v (X r / X a) s;
  r ← deref (s !! v); a ← deref (s !! v2);
  setY v (Y r / Y a) s.

Definition Negative (v : positive) (s : store) : outcome store :=
  r ← deref (s !! v);
  s ← setX v (- X r) s;
  r ← deref (s !! v);
  setY v (- Y r) s.

Definition PerpendicularWith (v v2 : positive) (s : store) : outcome store :=
  a ← deref (s !! v2);
  s ← setX v (- Y a) s;
  a ← deref (s !! v2);
  setY v (X a) s.

Definition Perpendicular (v : positive) (s : store) : outcome store :=
  r ← deref (s !! v);
  let temp := X r in
  s ← setX v (- Y r) s;
  setY v temp s.

Definition Normalize (v : positive) (s : store) : outcome store :=
  r ← deref (s !! v);
  let u := Unit r in
  s ← setX v (X r * u) s;
  r ← deref (s !! v);
  setY v (Y r * u) s.
End Vector.

(** ** matrix.go *)

Record Matrix := { XX : float; YX : float; XY : float; YY : float; X0 : float; Y0 : float }.

Definition Identity : Matrix :=
  {| XX := 1; YX := 0; XY := 0; YY := 1; X0 := 0; Y0 := 0 |}.

Definition Translate (x y : float) : Matrix :=
  {| XX := 1; YX := 0; XY := 0; YY := 1; X0 := x; Y0 := y |}.

Definition Scale (x y : float) : Matrix :=
  {| XX := x; YX := 0; XY := 0; YY := y; X0 := 0; Y0 := 0 |}.

Definition Rotate `{Externals} (angle : float) : Matrix :=
  let c := Cos angle in
  let s := Sin angle in
  {| XX := c; YX := s; XY := (- s)%float; YY := c; X0 := 0; Y0 := 0 |}.

Definition Shear (x y : float) : Matrix :=
  {| XX := 1; YX := y; XY := x; YY := 1; X0 := 0; Y0 := 0 |}.

Module Matrix.
Definition Multiply (m1 m2 : Matrix) : Matrix :=
  {| XX := XX m1 * XX m2 + YX m1 * XY m2;
     YX := XX m1 * YX m2 + YX m1 * YY m2;
     XY := XY m1 * XX m2 + YY m1 * XY m2;
     YY := XY m1 * YX m2 + YY m1 * YY m2;
     X0 := X0 m1 * XX m2 + Y0 m1 * XY m2 + X0 m2;
     Y0 := X0 m1 * YX m2 + Y0 m1 * YY m2 + Y0 m2 |}%float.

Definition TransformVector (m : Matrix) (x y : float) : float * float :=
  (XX m * x + XY m * y, YX m * x + YY m * y)%float.

Definition TransformPoint (m : Matrix) (x y : float) : float * float :=
  (XX m * x + XY m * y + X0 m, YX m * x + YY m * y + Y0 m)%float.

Definition Translate (m : Matrix) (x y : float) : Matrix :=
  Multiply (Translate x y) m.

Definition Scale (m : Matrix) (x y : float) : Matrix :=
  Multiply (Scale x y) m.

Definition Rotate `{Externals} (m : Matrix) (angle : float) : Matrix :=
  Multiply (Rotate angle) m.

Definition Shear (m : Matrix) (x y : float) : Matrix :=
  Multiply (Shear x y) m.
End Matrix.

(** ** helper.go: Bezier flattening *)

(** [n := int(l + 0.5); if n < 4 { n = 4 }] *)
Definition pointCount (l : float) : Z :=
  let n := int_of_float64 (l + 0.5) in
  if n <? 4 then 4 else n.

(** [make([]*Vector, n)]: the run time refuses a length whose storage (8
    bytes an element) exceeds its address space of 2^48 bytes. *)
Definition make_len (n : Z) : outcome nat :=
  if 2 ^ 45 <? n then Panic MakeSliceLen else Ok (Z.to_nat n).

(** [for i := 0; i < n; i++ { result[i] = pt(i) }], started at index [i]
    with [k] rounds to go. *)
Fixpoint fillPoints (pt : Z -> Vector) (k : nat) (i : Z) : list Vector :=
  match k with
  | O => []
  | S k' => pt i :: fillPoints pt k' (i + 1)
  end.

Definition quadraticPoint (d x0 y0 x1 y1 x2 y2 : float) (i : Z) : Vector :=
  let t := (float64_of_int i / d)%float in
  let u := (1 - t)%float in
  let a := (u * u)%float in
  let b := (2 * u * t)%float in
  let c := (t * t)%float in
  NewVector (a * x0 + b * x1 + c * x2) (a * y0 + b * y1 + c * y2).

Definition CreateQuadraticBezier `{Externals} (x0 y0 x1 y1 x2 y2 : float)
  : outcome (list Vector) :=
  let l := (Hypot (x1 - x0) (y1 - y0) + Hypot (x2 - x1) (y2 - y1))%float in
  let n := pointCount l in
  let d := (float64_of_int n - 1)%float in
  len ← make_len n;
  Ok (fillPoints (quadraticPoint d x0 y0 x1 y1 x2 y2) len 0).

Definition cubicPoint (d x0 y0 x1 y1 x2 y2 x3 y3 : float) (i : Z) : Vector :=
  let t := (float64_of_int i / d)%float in
  let u := (1 - t)%float in
  let a := (u * u * u)%float in
  let b := (3 * u * u * t)%float in
  let c := (3 * u * t * t)%float in
  let d := (t * t * t)%float in
  NewVector (a * x0 + b * x1 + c * x2 + d * x3) (a * y0 + b * y1 + c * y2 + d * y3).

Definition CreateCubicBezier `{Externals} (x0 y0 x1 y1 x2 y2 x3 y3 : float)
  : outcome (list Vector) :=
  let l := (Hypot (x1 - x0) (y1 - y0) + Hypot (x2 - x1) (y2 - y1)
            + Hypot (x3 - x2) (y3 - y2))%float in
  let n := pointCount l in
  let d := (float64_of_int n - 1)%float in
  len ← make_len n;
  Ok (fillPoints (cubicPoint d x0 y0 x1 y1 x2 y2 x3 y3) len 0).

(** ** helper.go: flattenPath *)

(** [if len(path) > 0 { result = append(result, path); path = nil }] *)
Definition flush (result : list (list Vector)) (path : list Vector)
  : list (list Vector) * list Vector :=
  match path with
  | [] => (result, path)
  | _ :: _ => (result ++ [path], [])
  end.

(** The decoding loop, at index [i] of [p].  Every round moves [i] forward by
    at least four, so [length p] rounds of fuel are never used up. *)
Fixpoint flattenLoop `{Externals} (fuel : nat) (p : Path) (i : nat)
    (result : list (list Vector)) (path : list Vector) (cx cy : float)
  : outcome (list (list Vector)) :=
  if negb (i <? length p)%nat then Ok (fst (flush result path))
  else
    match fuel with
    | O => OutOfFuel
    | S fuel' =>
        tag ← index p i;
        if tag =? 0 then
          let '(result, path) := flush result path in
          a ← index p (i + 1);
          b ← index p (i + 2);
          let x := Unfix a in
          let y := Unfix b in
          flattenLoop fuel' p (i + 4) result (path ++ [NewVector x y]) x y
        else if tag =? 1 then
          a ← index p (i + 1);
          b ← index p (i + 2);
          let x := Unfix a in
          let y := Unfix b in
          flattenLoop fuel' p (i + 4) result (path ++ [NewVector x y]) x y
        else if tag =? 2 then
          a1 ← index p (i + 1);
          b1 ← index p (i + 2);
          a2 ← index p (i + 3);
          b2 ← index p (i + 4);
          let x1 := Unfix a1 in
          let y1 := Unfix b1 in
          let x2 := Unfix a2 in
          let y2 := Unfix b2 in
          points ← CreateQuadraticBezier cx cy x1 y1 x2 y2;
          flattenLoop fuel' p (i + 6) result (path ++ points) x2 y2
        else if tag =? 3 then
          a1 ← index p (i + 1);
          b1 ← index p (i + 2);
          a2 ← index p (i + 3);
          b2 ← index p (i + 4);
          a3 ← index p (i + 5);
          b3 ← index p (i + 6);
          let x1 := Unfix a1 in
          let y1 := Unfix b1 in
          let x2 := Unfix a2 in
          let y2 := Unfix b2 in
          let x3 := Unfix a3 in
          let y3 := Unfix b3 in
          points ← CreateCubicBezier cx cy x1 y1 x2 y2 x3 y3;
          flattenLoop fuel' p (i + 8) result (path ++ points) x3 y3
        else Panic BadPath
    end.

Definition flattenPath `{Externals} (p : Path) : outcome (list (list Vector)) :=
  flattenLoop (length p) p 0 [] [] 0%float 0%float.

(** ** helper.go: dashPath *)

(** [dashIndex%2 == 0 && len(segment) > 1] *)
Definition emits (dashIndex : nat) (segment : list Vector) : bool :=
  Nat.even dashIndex && (1 <? length segment)%nat.

(** The inner loop over one [path]; it returns the [result], [dashIndex] and
    [segment] it ends with.  A round either consumes a point of the path or
    cuts the current span and moves to the next dash entry; with dash
    lengths that are not positive the second can repeat for ever, hence the
    fuel. *)
Fixpoint dashLoop (fuel : nat) (path : list Vector) (dashes : list float)
    (previous : Vector) (pathIndex dashIndex : nat) (segmentLength : float)
    (segment : list Vector) (result : list (list Vector))
  : outcome (list (list Vector) * nat * list Vector) :=
  if negb (pathIndex <? length path)%nat then Ok (result, dashIndex, segment)
  else
    match fuel with
    | O => OutOfFuel
    | S fuel' =>
        dashLength ← index dashes dashIndex;
        point ← index path pathIndex;
        let d := Vector.Distance previous point in
        let maxd := (dashLength - segmentLength)%float in
        if (maxd <? d)%float then
          let t := (maxd / d)%float in
          let p := Vector.Interpolate previous point t in
          let segment := segment ++ [p] in
          let result := if emits dashIndex segment then result ++ [segment] else result in
          dashLoop fuel' path dashes p pathIndex
            ((dashIndex + 1) mod length dashes)%nat 0%float [p] result
        else
          dashLoop fuel' path dashes point (pathIndex + 1)%nat dashIndex
            (segmentLength + d)%float (segment ++ [point]) result
    end.

(** The body of [for _, path := range paths]. *)
Definition dashOne (fuel : nat) (dashes : list float)
    (result : list (list Vector)) (path : list Vector)
  : outcome (list (list Vector)) :=
  match path with
  | [] | [_] => Ok result
  | previous :: _ :: _ =>
      '(result, dashIndex, segment) ←
        dashLoop fuel path dashes previous 1 0 0%float [previous] result;
      Ok (if emits dashIndex segment then result ++ [segment] else result)
  end.

Fixpoint dashAll (fuel : nat) (dashes : list float)
    (result : list (list Vector)) (paths : list (list Vector))
  : outcome (list (list Vector)) :=
  match paths with
  | [] => Ok result
  | path :: rest =>
      result ← dashOne fuel dashes result path;
      dashAll fuel dashes result rest
  end.

Definition dashPath (fuel : nat) (paths : list (list Vector)) (dashes : list float)
  : outcome (list (list Vector)) :=
  match dashes with
  | [] => Ok paths
  | [d0] => dashAll fuel [d0; d0] [] paths
  | _ => dashAll fuel dashes [] paths
  end.

(** ** helper.go: rasterPath *)

(** [if dx < 0 { dx = -dx }] on an [Int26_6]. *)
Definition abs32 (dx : Z) : Z := if dx <? 0 then wrap32 (- dx) else dx.

(** The body of [for i, point := range path]. *)
Fixpoint rasterPoints (points : list Vector) (i : nat) (previous : Point26_6)
    (result : Path) : Path :=
  match points with
  | [] => result
  | point :: rest =>
      let f := Vector.Fixed point in
      let result :=
        match i with
        | O => Path_Start result f
        | S _ =>
            let dx := abs32 (wrap32 (PX f - PX previous)) in
            let dy := abs32 (wrap32 (PY f - PY previous)) in
            if 8 <? wrap32 (dx + dy) then Path_Add1 result f else result
        end in
      rasterPoints rest (S i) f result
  end.

Definition rasterPath (paths : list (list Vector)) : Path :=
  fold_left (fun result path => rasterPoints path 0 {| PX := 0; PY := 0 |} result)
    paths [].

(** ** The canvas file: types *)

(** Addresses of heap objects ([*Canvas], [*raster.Rasterizer], [font.Face]). *)
Abbreviation ptr := positive.

Inductive Color :=
  | NRGBA (r g b a : Z)
  | Gray16 (y : Z)
  | Alpha16 (a : Z).

Definition White : Color := Gray16 65535.
Definition Black : Color := Gray16 0.
Definition Transparent : Color := Alpha16 0.

(** A [Pattern] is an interface; [*solidPattern] is the implementation the
    canvas looks for, any other one is only passed along.  The type is not
    exported: the [*solidPattern]s a client holds are those that
    [NewSolidPattern] made, and none of them is nil. *)
Inductive Pattern :=
  | solidPattern (color : Color)
  | otherPattern (id : ptr).

Definition NewSolidPattern (color : Color) : Pattern := solidPattern color.

Definition defaultFillStyle : Pattern := NewSolidPattern White.
Definition defaultStrokeStyle : Pattern := NewSolidPattern Black.

(** [image.Point], [image.Rectangle], [image.Alpha] and [image.RGBA]; pixel
    buffers are held by value. *)
Record Point := { PtX : Z; PtY : Z }.
Record Rectangle := { RMin : Point; RMax : Point }.

Definition Point_eqb (p q : Point) : bool :=
  (PtX p =? PtX q) && (PtY p =? PtY q).

Definition Rectangle_Size (r : Rectangle) : Point :=
  {| PtX := wrap64 (PtX (RMax r) - PtX (RMin r));
     PtY := wrap64 (PtY (RMax r) - PtY (RMin r)) |}.

Definition image_Rect (x0 y0 x1 y1 : Z) : Rectangle :=
  let '(x0, x1) := if x1 <? x0 then (x1, x0) else (x0, x1) in
  let '(y0, y1) := if y1 <? y0 then (y1, y0) else (y0, y1) in
  {| RMin := {| PtX := x0; PtY := y0 |}; RMax := {| PtX := x1; PtY := y1 |} |}.

Record Alpha := { APix : list Z; AStride : Z; ARect : Rectangle }.
Record RGBA := { Pix : list Z; Stride : Z; Rect : Rectangle }.

Definition NewAlpha (r : Rectangle) : Alpha :=
  let sz := Rectangle_Size r in
  {| APix := replicate (Z.to_nat (PtX sz * PtY sz)) 0; AStride := PtX sz; ARect := r |}.

Definition NewRGBA (r : Rectangle) : RGBA :=
  let sz := Rectangle_Size r in
  {| Pix := replicate (Z.to_nat (4 * PtX sz * PtY sz)) 0; Stride := 4 * PtX sz; Rect := r |}.

(** The constants of the canvas file stand in ONE [const] block, so [iota]
    keeps counting across the four groups. *)
Definition LineCapRound : Z := 0.
Definition LineCapButt : Z := 1.
Definition LineCapSquare : Z := 2.
Definition LineJoinRound : Z := 3.
Definition LineJoinBevel : Z := 4.
Definition FillRuleWinding : Z := 5.
Definition FillRuleEvenOdd : Z := 6.

Record Canvas := MkCanvas {
  stack : list ptr;
  width : Z;
  height : Z;
  rasterizer : ptr;
  im : RGBA;
  mask : option Alpha;
  color : Color;
  clearSrc : Color;
  fillPattern : Pattern;
  strokePattern : Pattern;
  strokePath : Path;
  fillPath : Path;
  start : option Vector;
  current : option Vector;
  hasCurrent : bool;
  hasBegin : bool;
  dashes : list float;
  vertexts : list Vector;
  lineWidth : float;
  lineCap : Z;
  lineJoin : Z;
  fillRule : Z;
  fontFace : ptr;
  fontHeight : float;
  matrix : Matrix
}.

Definition set_stack (v : list ptr) (c : Canvas) : Canvas :=
  MkCanvas v (width c) (height c) (rasterizer c) (im c) (mask c) (color c) (clearSrc c)
    (fillPattern c) (strokePattern c) (strokePath c) (fillPath c) (start c) (current c)
    (hasCurrent c) (hasBegin c) (dashes c) (vertexts c) (lineWidth c) (lineCap c)
    (lineJoin c) (fillRule c) (fontFace c) (fontHeight c) (matrix c).
Definition set_mask (v : option Alpha) (c : Canvas) : Canvas :=
  MkCanvas (stack c) (width c) (height c) (rasterizer c) (im c) v (color c) (clearSrc c)
    (fillPattern c) (strokePattern c) (strokePath c) (fillPath c) (start c) (current c)
    (hasCurrent c) (hasBegin c) (dashes c) (vertexts c) (lineWidth c) (lineCap c)
    (lineJoin c) (fillRule c) (fontFace c) (fontHeight c) (matrix c).
Definition set_color (v : Color) (c : Canvas) : Canvas :=
  MkCanvas (stack c) (width c) (height c) (rasterizer c) (im c) (mask c) v (clearSrc c)
    (fillPattern c) (strokePattern c) (strokePath c) (fillPath c) (start c) (current c)
    (hasCurrent c) (hasBegin c) (dashes c) (vertexts c) (lineWidth c) (lineCap c)
    (lineJoin c) (fillRule c) (fontFace c) (fontHeight c) (matrix c).
Definition set_fillPattern (v : Pattern) (c : Canvas) : Canvas :=
  MkCanvas (stack c) (width c) (height c) (rasterizer c) (im c) (mask c) (color c)
    (clearSrc c) v (strokePattern c) (strokePath c) (fillPath c) (start c) (current c)
    (hasCurrent c) (hasBegin c) (dashes c) (vertexts c) (lineWidth c) (lineCap c)
    (lineJoin c) (fillRule c) (fontFace c) (fontHeight c) (matrix c).
Definition set_strokePattern (v : Pattern) (c : Canvas) : Canvas :=
  MkCanvas (stack c) (width c) (height c) (rasterizer c) (im c) (mask c) (color c)
    (clearSrc c) (fillPattern c) v (strokePath c) (fillPath c) (start c) (current c)
    (hasCurrent c) (hasBegin c) (dashes c) (vertexts c) (lineWidth c) (lineCap c)
    (lineJoin c) (fillRule c) (fontFace c) (fontHeight c) (matrix c).
Definition set_strokePath (v : Path) (c : Canvas) : Canvas :=
  MkCanvas (stack c) (width c) (height c) (rasterizer c) (im c) (mask c) (color c)
    (clearSrc c) (fillPattern c) (strokePattern c) v (fillPath c) (start c) (current c)
    (hasCurrent c) (hasBegin c) (dashes c) (vertexts c) (lineWidth c) (lineCap c)
    (lineJoin c) (fillRule c) (fontFace c) (fontHeight c) (matrix c).
Definition set_fillPath (v : Path) (c : Canvas) : Canvas :=
  MkCanvas (stack c) (width c) (height c) (rasterizer c) (im c) (mask c) (color c)
    (clearSrc c) (fillPattern c) (strokePattern c) (strokePath c) v (start c) (current
    c) (hasCurrent c) (hasBegin c) (dashes c) (vertexts c) (lineWidth c) (lineCap c)
    (lineJoin c) (fillRule c) (fontFace c) (fontHeight c) (matrix c).
Definition set_start (v : option Vector) (c : Canvas) : Canvas :=
  MkCanvas (stack c) (width c) (height c) (rasterizer c) (im c) (mask c) (color c)
    (clearSrc c) (fillPattern c) (strokePattern c) (strokePath c) (fillPath c) v
    (current c) (hasCurrent c) (hasBegin c) (dashes c) (vertexts c) (lineWidth c)
    (lineCap c) (lineJoin c) (fillRule c) (fontFace c) (fontHeight c) (matrix c).
Definition set_current (v : option Vector) (c : Canvas) : Canvas :=
  MkCanvas (stack c) (width c) (height c) (rasterizer c) (im c) (mask c) (color c)
    (clearSrc c) (fillPattern c) (strokePattern c) (strokePath c) (fillPath c) (start c)
    v (hasCurrent c) (hasBegin c) (dashes c) (vertexts c) (lineWidth c) (lineCap c)
    (lineJoin c) (fillRule c) (fontFace c) (fontHeight c) (matrix c).
Definition set_hasCurrent (v : bool) (c : Canvas) : Canvas :=
  MkCanvas (stack c) (width c) (height c) (rasterizer c) (im c) (mask c) (color c)
    (clearSrc c) (fillPattern c) (strokePattern c) (strokePath c) (fillPath c) (start c)
    (current c) v (hasBegin c) (dashes c) (vertexts c) (lineWidth c) (lineCap c)
    (lineJoin c) (fillRule c) (fontFace c) (fontHeight c) (matrix c).
Definition set_dashes (v : list float) (c : Canvas) : Canvas :=
  MkCanvas (stack c) (width c) (height c) (rasterizer c) (im c) (mask c) (color c)
    (clearSrc c) (fillPattern c) (strokePattern c) (strokePath c) (fillPath c) (start c)
    (current c) (hasCurrent c) (hasBegin c) v (vertexts c) (lineWidth c) (lineCap c)
    (lineJoin c) (fillRule c) (fontFace c) (fontHeight c) (matrix c).
Definition set_lineWidth (v : float) (c : Canvas) : Canvas :=
  MkCanvas (stack c) (width c) (height c) (rasterizer c) (im c) (mask c) (color c)
    (clearSrc c) (fillPattern c) (strokePattern c) (strokePath c) (fillPath c) (start c)
    (current c) (hasCurrent c) (hasBegin c) (dashes c) (vertexts c) v (lineCap c)
    (lineJoin c) (fillRule c) (fontFace c) (fontHeight c) (matrix c).
Definition set_lineCap (v : Z) (c : Canvas) : Canvas :=
  MkCanvas (stack c) (width c) (height c) (rasterizer c) (im c) (mask c) (color c)
    (clearSrc c) (fillPattern c) (strokePattern c) (strokePath c) (fillPath c) (start c)
    (current c) (hasCurrent c) (hasBegin c) (dashes c) (vertexts c) (lineWidth c) v
    (lineJoin c) (fillRule c) (fontFace c) (fontHeight c) (matrix c).
Definition set_lineJoin (v : Z) (c : Canvas) : Canvas :=
  MkCanvas (stack c) (width c) (height c) (rasterizer c) (im c) (mask c) (color c)
    (clearSrc c) (fillPattern c) (strokePattern c) (strokePath c) (fillPath c) (start c)
    (current c) (hasCurrent c) (hasBegin c) (dashes c) (vertexts c) (lineWidth c)
    (lineCap c) v (fillRule c) (fontFace c) (fontHeight c) (matrix c).
Definition set_fillRule (v : Z) (c : Canvas) : Canvas :=
  MkCanvas (stack c) (width c) (height c) (rasterizer c) (im c) (mask c) (color c)
    (clearSrc c) (fillPattern c) (strokePattern c) (strokePath c) (fillPath c) (start c)
    (current c) (hasCurrent c) (hasBegin c) (dashes c) (vertexts c) (lineWidth c)
    (lineCap c) (lineJoin c) v (fontFace c) (fontHeight c) (matrix c).
Definition set_matrix (v : Matrix) (c : Canvas) : Canvas :=
  MkCanvas (stack c) (width c) (height c) (rasterizer c) (im c) (mask c) (color c)
    (clearSrc c) (fillPattern c) (strokePattern c) (strokePath c) (fillPath c) (start c)
    (current c) (hasCurrent c) (hasBegin c) (dashes c) (vertexts c) (lineWidth c)
    (lineCap c) (lineJoin c) (fillRule c) (fontFace c) (fontHeight c) v.
Definition set_hasBegin (v : bool) (c : Canvas) : Canvas :=
  MkCanvas (stack c) (width c) (height c) (rasterizer c) (im c) (mask c) (color c)
    (clearSrc c) (fillPattern c) (strokePattern c) (strokePath c) (fillPath c) (start c)
    (current c) (hasCurrent c) v (dashes c) (vertexts c) (lineWidth c) (lineCap c)
    (lineJoin c) (fillRule c) (fontFace c) (fontHeight c) (matrix c).
Definition set_vertexts (v : list Vector) (c : Canvas) : Canvas :=
  MkCanvas (stack c) (width c) (height c) (rasterizer c) (im c) (mask c) (color c)
    (clearSrc c) (fillPattern c) (strokePattern c) (strokePath c) (fillPath c) (start c)
    (current c) (hasCurrent c) (hasBegin c) (dashes c) v (lineWidth c) (lineCap c)
    (lineJoin c) (fillRule c) (fontFace c) (fontHeight c) (matrix c).

Definition NewCanvasForRGBA (rasterizer : ptr) (im : RGBA) : Canvas :=
  let w := PtX (Rectangle_Size (Rect im)) in
  let h := PtY (Rectangle_Size (Rect im)) in
  {| stack := [];
     width := w;
     height := h;
     rasterizer := rasterizer;
     im := im;
     mask := None;
     color := Transparent;
     clearSrc := White;
     fillPattern := defaultFillStyle;
     strokePattern := defaultStrokeStyle;
     strokePath := [];
     fillPath := [];
     start := None;
     current := None;
     hasCurrent := false;
     hasBegin := false;
     dashes := [];
     vertexts := [];
     lineWidth := 1;
     lineCap := 0;
     lineJoin := 0;
     fillRule := FillRuleWinding;
     fontFace := 1%positive;
     fontHeight := 13;
     matrix := Identity |}.

Definition NewCanvas (rasterizer : ptr) (width height : Z) : Canvas :=
  NewCanvasForRGBA rasterizer (NewRGBA (image_Rect 0 0 width height)).

(** ** The canvas file: methods on one canvas value

    A method whose receiver is [c *Canvas] reads and writes the canvas
    record that [c] points to; here it maps that record to the new one.
    [Push] and [Pop], which store and follow canvas pointers, work on the
    heap and come after. *)

Definition Point26_6_eqb (a b : Point26_6) : bool :=
  (PX a =? PX b) && (PY a =? PY b).

Module Canvas.
Definition SetDash (c : Canvas) (dashes : list float) : Canvas :=
  set_dashes dashes c.

Definition SetLineWidth (c : Canvas) (lineWidth : float) : Canvas :=
  set_lineWidth lineWidth c.

Definition SetLineCap (c : Canvas) (lineCap : Z) : Canvas :=
  set_lineCap lineCap c.

Definition SetLineJoin (c : Canvas) (lineJoin : Z) : Canvas :=
  set_lineJoin lineJoin c.

Definition SetFillRule (c : Canvas) (fillRule : Z) : Canvas :=
  set_fillRule fillRule c.

Definition setFillAndStrokeColor (c : Canvas) (color : Color) : Canvas :=
  let c := set_color color c in
  let c := set_fillPattern (NewSolidPattern color) c in
  set_strokePattern (NewSolidPattern color) c.

Definition SetFillStyle (c : Canvas) (pattern : Pattern) : Canvas :=
  let c := match pattern with
           | solidPattern col => set_color col c
           | otherPattern _ => c
           end in
  set_fillPattern pattern c.

Definition SetStrokeStyle (c : Canvas) (pattern : Pattern) : Canvas :=
  set_strokePattern pattern c.

Definition SetColor (c : Canvas) (color : Color) : Canvas :=
  setFillAndStrokeColor c color.

Definition TransformPoint (c : Canvas) (x y : float) : float * float :=
  Matrix.TransformPoint (matrix c) x y.

Definition MoveTo (c : Canvas) (x y : float) : outcome Canvas :=
  c ← (if hasCurrent c then
         s ← deref (start c);
         Ok (set_fillPath (Path_Add1 (fillPath c) (Vector.Fixed s)) c)
       else Ok c);
  let '(x, y) := TransformPoint c x y in
  let v := NewVector x y in
  let c := set_strokePath (Path_Start (strokePath c) (Vector.Fixed v)) c in
  let c := set_fillPath (Path_Start (fillPath c) (Vector.Fixed v)) c in
  let c := set_start (Some v) c in
  let c := set_current (Some v) c in
  Ok (set_hasCurrent true c).

Definition LineTo (c : Canvas) (x y : float) : outcome Canvas :=
  if negb (hasCurrent c) then MoveTo c x y
  else
    let '(x, y) := TransformPoint c x y in
    let p := NewVector x y in
    let c := set_strokePath (Path_Add1 (strokePath c) (Vector.Fixed p)) c in
    let c := set_fillPath (Path_Add1 (fillPath c) (Vector.Fixed p)) c in
    Ok (set_current (Some p) c).

Definition QuadraticTo (c : Canvas) (x1 y1 x2 y2 : float) : outcome Canvas :=
  c ← (if negb (hasCurrent c) then MoveTo c x1 y1 else Ok c);
  let '(x1, y1) := TransformPoint c x1 y1 in
  let '(x2, y2) := TransformPoint c x2 y2 in
  let v1 := NewVector x1 y1 in
  let v2 := NewVector x2 y2 in
  let c := set_strokePath
             (Path_Add2 (strokePath c) (Vector.Fixed v1) (Vector.Fixed v2)) c in
  let c := set_fillPath
             (Path_Add2 (fillPath c) (Vector.Fixed v1) (Vector.Fixed v2)) c in
  Ok (set_current (Some v2) c).

(** [for _, p := range points[1:]] of [CubicTo]. *)
Fixpoint cubicPoints (points : list Vector) (previous : Point26_6) (c : Canvas)
  : Canvas :=
  match points with
  | [] => c
  | p :: rest =>
      let f := Vector.Fixed p in
      if Point26_6_eqb f previous then cubicPoints rest previous c
      else
        let c := set_strokePath (Path_Add1 (strokePath c) f) c in
        let c := set_fillPath (Path_Add1 (fillPath c) f) c in
        cubicPoints rest f (set_current (Some p) c)
  end.

Definition CubicTo `{Externals} (c : Canvas) (x1 y1 x2 y2 x3 y3 : float)
  : outcome Canvas :=
  c ← (if negb (hasCurrent c) then MoveTo c x1 y1 else Ok c);
  cur ← deref (current c);
  let x0 := X cur in
  let y0 := Y cur in
  let '(x1, y1) := TransformPoint c x1 y1 in
  let '(x2, y2) := TransformPoint c x2 y2 in
  let '(x3, y3) := TransformPoint c x3 y3 in
  points ← CreateCubicBezier x0 y0 x1 y1 x2 y2 x3 y3;
  match points with
  | [] => Panic IndexOutOfRange
  | _ :: rest => Ok (cubicPoints rest (Vector.Fixed cur) c)
  end.

Definition ClosePath (c : Canvas) : outcome Canvas :=
  if hasCurrent c then
    s ← deref (start c);
    let c := set_strokePath (Path_Add1 (strokePath c) (Vector.Fixed s)) c in
    let c := set_fillPath (Path_Add1 (fillPath c) (Vector.Fixed s)) c in
    Ok (set_current (start c) c)
  else Ok c.

Definition ClearPath (c : Canvas) : Canvas :=
  let c := set_strokePath (Path_Clear (strokePath c)) c in
  let c := set_fillPath (Path_Clear (fillPath c)) c in
  set_hasCurrent false c.

Definition NewSubPath (c : Canvas) : outcome Canvas :=
  c ← (if hasCurrent c then
         s ← deref (start c);
         Ok (set_fillPath (Path_Add1 (fillPath c) (Vector.Fixed s)) c)
       else Ok c);
  Ok (set_hasCurrent false c).

(** [SetMask] returns the canvas and the [error] ([None] for [nil]).  The
    [mask] is what the method's pointer leads to: [mask.Bounds()] follows the
    pointer before anything else, so a nil [mask] panics at the call (see
    [call]) and the body is only ever run on a mask that is there. *)
Definition SetMask (c : Canvas) (mask : Alpha) : Canvas * option string :=
  if negb (Point_eqb (Rectangle_Size (ARect mask)) (Rectangle_Size (Rect (im c))))
  then (c, Some "mask size must match context size"%string)
  else (set_mask (Some mask) c, None).

Definition InvertMask (c : Canvas) : Canvas :=
  match mask c with
  | None => set_mask (Some (NewAlpha (Rect (im c)))) c
  | Some m =>
      set_mask (Some {| APix := map (fun a => (255 - a) mod 256) (APix m);
                        AStride := AStride m; ARect := ARect m |}) c
  end.

Definition ResetClip (c : Canvas) : Canvas := set_mask None c.

Definition Identity (c : Canvas) : Canvas := set_matrix Identity c.

Definition Translate (c : Canvas) (x y : float) : Canvas :=
  set_matrix (Matrix.Translate (matrix c) x y) c.

Definition Scale (c : Canvas) (x y : float) : Canvas :=
  set_matrix (Matrix.Scale (matrix c) x y) c.

Definition Rotate `{Externals} (c : Canvas) (angle : float) : Canvas :=
  set_matrix (Matrix.Rotate (matrix c) angle) c.

Definition Shear (c : Canvas) (x y : float) : Canvas :=
  set_matrix (Matrix.Shear (matrix c) x y) c.

Definition BeginShape (c : Canvas) : Canvas :=
  set_hasBegin true (set_vertexts [] c).

Definition Vertex (c : Canvas) (x y : float) : Canvas :=
  if hasBegin c then set_vertexts (vertexts c ++ [NewVector x y]) c else c.

(** [for i := 1; i < len(c.vertexts); i++ { c.LineTo(...) }], over the
    vertices from index 1 on. *)
Fixpoint lineToAll (vs : list Vector) (c : Canvas) : outcome Canvas :=
  match vs with
  | [] => Ok c
  | v :: rest => c ← LineTo c (X v) (Y v); lineToAll rest c
  end.

(** [EndShape(isClose ...bool)]; [isClose] is the list of the variadic
    arguments. *)
Definition EndShape (c : Canvas) (isClose : list bool) : outcome Canvas :=
  if hasBegin c then
    let c := set_hasBegin false c in
    v0 ← index (vertexts c) 0;
    c ← MoveTo c (X v0) (Y v0);
    c ← lineToAll (drop 1 (vertexts c)) c;
    match isClose with
    | [true] => v0 ← index (vertexts c) 0; LineTo c (X v0) (Y v0)
    | _ => Ok c
    end
  else Ok c.

Definition DrawLine (c : Canvas) (x1 y1 x2 y2 : float) : outcome Canvas :=
  c ← MoveTo c x1 y1;
  LineTo c x2 y2.

Definition DrawRectangle (c : Canvas) (x y w h : float) : outcome Canvas :=
  c ← NewSubPath c;
  c ← MoveTo c x y;
  c ← LineTo c (x + w) y;
  c ← LineTo c (x + w) (y + h);
  c ← LineTo c x (y + h);
  ClosePath c.

(** The body of [for i := 0; i < n; i++] of [DrawEllipticalArc], with [k]
    rounds to go from index [i]; [n] is the constant 16. *)
Fixpoint arcRounds `{Externals} (k : nat) (i : Z) (x y rx ry angle1 angle2 : float)
    (c : Canvas) : outcome Canvas :=
  match k with
  | O => Ok c
  | S k' =>
      let p1 := (float64_of_int (i + 0) / 16)%float in
      let p2 := (float64_of_int (i + 1) / 16)%float in
      let a1 := (angle1 + (angle2 - angle1) * p1)%float in
      let a2 := (angle1 + (angle2 - angle1) * p2)%float in
      let x0 := (x + rx * Cos a1)%float in
      let y0 := (y + ry * Sin a1)%float in
      let x1 := (x + rx * Cos (a1 + (a2 - a1) / 2))%float in
      let y1 := (y + ry * Sin (a1 + (a2 - a1) / 2))%float in
      let x2 := (x + rx * Cos a2)%float in
      let y2 := (y + ry * Sin a2)%float in
      let cx := (2 * x1 - x0 / 2 - x2 / 2)%float in
      let cy := (2 * y1 - y0 / 2 - y2 / 2)%float in
      c ← (if i =? 0 then
             if hasCurrent c then LineTo c x0 y0 else MoveTo c x0 y0
           else Ok c);
      c ← QuadraticTo c cx cy x2 y2;
      arcRounds k' (i + 1) x y rx ry angle1 angle2 c
  end.

Definition DrawEllipticalArc `{Externals} (c : Canvas) (x y rx ry angle1 angle2 : float)
  : outcome Canvas :=
  arcRounds 16 0 x y rx ry angle1 angle2 c.

(** [2 * math.Pi], a constant expression, rounded to [float64]. *)
Definition two_pi : float := 0x1.921fb54442d18p+2%float.

Definition DrawEllipse `{Externals} (c : Canvas) (x y rx ry : float) : outcome Canvas :=
  c ← NewSubPath c;
  c ← DrawEllipticalArc c x y rx ry 0 two_pi;
  ClosePath c.

Definition DrawArc `{Externals} (c : Canvas) (x y r angle1 angle2 : float)
  : outcome Canvas :=
  DrawEllipticalArc c x y r r angle1 angle2.

Definition DrawCircle `{Externals} (c : Canvas) (x y r : float) : outcome Canvas :=
  c ← NewSubPath c;
  c ← DrawEllipticalArc c x y r r 0 two_pi;
  ClosePath c.

(** [math.Pi / 2], a constant expression, rounded to [float64]. *)
Definition half_pi : float := 0x1.921fb54442d18p+0%float.

(** The body of [for i := 0; i < n; i++] of [DrawRegularPolygon], with [k]
    rounds to go from index [i]. *)
Fixpoint polygonRounds `{Externals} (k : nat) (i : Z) (x y r rotation angle : float)
    (c : Canvas) : outcome Canvas :=
  match k with
  | O => Ok c
  | S k' =>
      let a := (rotation + angle * float64_of_int i)%float in
      c ← LineTo c (x + r * Cos a) (y + r * Sin a);
      polygonRounds k' (i + 1) x y r rotation angle c
  end.

Definition DrawRegularPolygon `{Externals} (c : Canvas) (n : Z) (x y r rotation : float)
  : outcome Canvas :=
  let angle := (two_pi / float64_of_int n)%float in
  let rotation := (rotation - half_pi)%float in
  let rotation := if Z.rem n 2 =? 0 then (rotation + angle / 2)%float else rotation in
  c ← NewSubPath c;
  c ← polygonRounds (Z.to_nat n) 0 x y r rotation angle c;
  ClosePath c.

Definition ScaleAbout (c : Canvas) (sx sy x y : float) : Canvas :=
  let c := Translate c x y in
  let c := Scale c sx sy in
  Translate c (- x) (- y).

Definition RotateAbout `{Externals} (c : Canvas) (angle x y : float) : Canvas :=
  let c := Translate c x y in
  let c := Rotate c angle in
  Translate c (- x) (- y).

Definition ShearAbout (c : Canvas) (sx sy x y : float) : Canvas :=
  let c := Translate c x y in
  let c := Shear c sx sy in
  Translate c (- x) (- y).

Definition InvertY (c : Canvas) : Canvas :=
  let c := Translate c 0 (float64_of_int (height c)) in
  Scale c 1 (-1).
End Canvas.

(** ** The rasterizer (freetype/raster), as far as the canvas drives it

    The canvas sets the winding flag, clears the accumulator, adds one shape
    and asks for rasterization.  The scan conversion itself is outside the
    package; [Rasterize] hands out the request the engine receives: the
    winding rule in force, the shapes accumulated and the painter. *)

Inductive Capper := ButtCapper | RoundCapper | SquareCapper.
Inductive Joiner := BevelJoiner | RoundJoiner.

Inductive Shape :=
  | StrokeShape (q : Path) (width : Z) (cr : option Capper) (jr : option Joiner)
  | FillShape (q : Path).

Record Rasterizer := { UseNonZeroWinding : bool; shapes : list Shape }.

Inductive Painter :=
  | RGBAPainter (color : Color)
  | patternPainter (mask : option Alpha) (pattern : Pattern)
  | AlphaOverPainter.

Record Request := {
  nonZeroWinding : bool;
  geometry : list Shape;
  painter : Painter
}.

Definition Rasterizer_Clear (r : Rasterizer) : Rasterizer :=
  {| UseNonZeroWinding := UseNonZeroWinding r; shapes := [] |}.

Definition Rasterizer_AddStroke (r : Rasterizer) (q : Path) (width : Z)
    (cr : option Capper) (jr : option Joiner) : Rasterizer :=
  {| UseNonZeroWinding := UseNonZeroWinding r;
     shapes := shapes r ++ [StrokeShape q width cr jr] |}.

Definition Rasterizer_AddPath (r : Rasterizer) (q : Path) : Rasterizer :=
  {| UseNonZeroWinding := UseNonZeroWinding r; shapes := shapes r ++ [FillShape q] |}.

Definition Rasterizer_Rasterize (r : Rasterizer) (p : Painter) : Request :=
  {| nonZeroWinding := UseNonZeroWinding r; geometry := shapes r; painter := p |}.

Module Render.
Definition capper (c : Canvas) : option Capper :=
  if lineCap c =? LineCapButt then Some ButtCapper
  else if lineCap c =? LineCapRound then Some RoundCapper
  else if lineCap c =? LineCapSquare then Some SquareCapper
  else None.

Definition joiner (c : Canvas) : option Joiner :=
  if lineJoin c =? LineJoinBevel then Some BevelJoiner
  else if lineJoin c =? LineJoinRound then Some RoundJoiner
  else None.

(** [c.stroke(painter)]; [r] is the rasterizer that [c.rasterizer] points
    to, returned as the call leaves it together with the request made. *)
Definition stroke `{Externals} (fuel : nat) (c : Canvas) (r : Rasterizer)
    (painter : Painter) : outcome (Rasterizer * Request) :=
  let path := strokePath c in
  path ← (if (0 <? length (dashes c))%nat then
            polylines ← flattenPath path;
            dashed ← dashPath fuel polylines (dashes c);
            Ok (rasterPath dashed)
          else
            polylines ← flattenPath path;
            Ok (rasterPath polylines));
  let r := {| UseNonZeroWinding := true; shapes := shapes r |} in
  let r := Rasterizer_Clear r in
  let r := Rasterizer_AddStroke r path (Fix (lineWidth c)) (capper c) (joiner c) in
  Ok (r, Rasterizer_Rasterize r painter).

(** [c.fill(painter)] *)
Definition fill (c : Canvas) (r : Rasterizer) (painter : Painter)
  : outcome (Rasterizer * Request) :=
  path ← (if hasCurrent c then
            s ← deref (start c);
            Ok (Path_Add1 (fillPath c) (Vector.Fixed s))
          else Ok (fillPath c));
  let r := {| UseNonZeroWinding := (fillRule c =? FillRuleWinding);
              shapes := shapes r |} in
  let r := Rasterizer_Clear r in
  let r := Rasterizer_AddPath r path in
  Ok (r, Rasterizer_Rasterize r painter).

(** The painter that [StrokePreserve] and [FillPreserve] build for a
    pattern: the plain colour painter when there is no mask and the pattern
    is solid, the pattern painter, which takes the mask, otherwise. *)
Definition painterFor (c : Canvas) (pattern : Pattern) : Painter :=
  let painter :=
    match mask c with
    | None =>
        match pattern with
        | solidPattern col => Some (RGBAPainter col)
        | otherPattern _ => None
        end
    | Some _ => None
    end in
  match painter with
  | Some p => p
  | None => patternPainter (mask c) pattern
  end.

Definition StrokePreserve `{Externals} (fuel : nat) (c : Canvas) (r : Rasterizer)
  : outcome (Rasterizer * Request) :=
  stroke fuel c r (painterFor c (strokePattern c)).

Definition FillPreserve (c : Canvas) (r : Rasterizer) : outcome (Rasterizer * Request) :=
  fill c r (painterFor c (fillPattern c)).

(** [Stroke] and [Fill] also return the canvas, its path cleared. *)
Definition Stroke `{Externals} (fuel : nat) (c : Canvas) (r : Rasterizer)
  : outcome (Canvas * Rasterizer * Request) :=
  '(r, req) ← StrokePreserve fuel c r;
  Ok (Canvas.ClearPath c, r, req).

Definition Fill (c : Canvas) (r : Rasterizer) : outcome (Canvas * Rasterizer * Request) :=
  '(r, req) ← FillPreserve c r;
  Ok (Canvas.ClearPath c, r, req).
End Render.

(** ** The canvas file: Push and Pop, on the heap of canvases

    [c.stack] is a [[]*Canvas]: it holds addresses.  [Push] appends the
    receiver's own address; [Pop] copies the canvas found at the address on
    top of the stack over the receiver, then puts back six fields of the
    receiver as they were before the copy. *)

Abbreviation heap := (gmap ptr Canvas).

Definition indexZ {A} (s : list A) (i : Z) : outcome A :=
  if i <? 0 then Panic IndexOutOfRange else index s (Z.to_nat i).

Definition Push (c : ptr) (h : heap) : outcome heap :=
  cv ← deref (h !! c);
  Ok (<[c := set_stack (stack cv ++ [c]) cv]> h).

Definition Pop (c : ptr) (h : heap) : outcome heap :=
  before ← deref (h !! c);
  let s := stack before in
  x ← indexZ s (Z.of_nat (length s) - 1);
  xv ← deref (h !! x);
  let cv := xv in
  let cv := set_mask (mask before) cv in
  let cv := set_strokePath (strokePath before) cv in
  let cv := set_fillPath (fillPath before) cv in
  let cv := set_start (start before) cv in
  let cv := set_current (current before) cv in
  let cv := set_hasCurrent (hasCurrent before) cv in
  Ok (<[c := cv]> h).

(** [DrawPoint]: a circle of radius [r] at the transformed point, drawn
    with the identity transform between a [Push] and a [Pop]. *)
Definition DrawPoint `{Externals} (c : ptr) (x y r : float) (h : heap) : outcome heap :=
  h ← Push c h;
  cv ← deref (h !! c);
  let '(tx, ty) := Canvas.TransformPoint cv x y in
  let h := <[c := Canvas.Identity cv]> h in
  cv ← deref (h !! c);
  cv ← Canvas.DrawCircle cv tx ty r;
  let h := <[c := cv]> h in
  Pop c h.

(** ** Scripts: the calls a client makes on one canvas, in order

    [SetMask] takes a [*image.Alpha], which may be nil ([None]): the method
    begins with [mask.Bounds()], which follows the pointer. *)

Inductive Call :=
  | SetDash (dashes : list float)
  | SetLineWidth (lineWidth : float)
  | SetLineCap (lineCap : Z)
  | SetLineJoin (lineJoin : Z)
  | SetFillRule (fillRule : Z)
  | SetColor (color : Color)
  | SetFillStyle (pattern : Pattern)
  | SetStrokeStyle (pattern : Pattern)
  | MoveTo (x y : float)
  | LineTo (x y : float)
  | QuadraticTo (x1 y1 x2 y2 : float)
  | CubicTo (x1 y1 x2 y2 x3 y3 : float)
  | ClosePath
  | ClearPath
  | NewSubPath
  | SetMask (mask : option Alpha)
  | InvertMask
  | ResetClip
  | SetIdentity
  | DoTranslate (x y : float)
  | DoScale (x y : float)
  | DoRotate (angle : float)
  | DoShear (x y : float)
  | DoPush
  | DoPop.

(** A method call through the pointer [c]. *)
Definition through (c : ptr) (f : Canvas -> outcome Canvas) (h : heap) : outcome heap :=
  cv ← deref (h !! c);
  cv' ← f cv;
  Ok (<[c := cv']> h).

Definition call `{Externals} (c : ptr) (k : Call) (h : heap) : outcome heap :=
  match k with
  | SetDash d => through c (fun cv => Ok (Canvas.SetDash cv d)) h
  | SetLineWidth w => through c (fun cv => Ok (Canvas.SetLineWidth cv w)) h
  | SetLineCap v => through c (fun cv => Ok (Canvas.SetLineCap cv v)) h
  | SetLineJoin v => through c (fun cv => Ok (Canvas.SetLineJoin cv v)) h
  | SetFillRule v => through c (fun cv => Ok (Canvas.SetFillRule cv v)) h
  | SetColor col => through c (fun cv => Ok (Canvas.SetColor cv col)) h
  | SetFillStyle p => through c (fun cv => Ok (Canvas.SetFillStyle cv p)) h
  | SetStrokeStyle p => through c (fun cv => Ok (Canvas.SetStrokeStyle cv p)) h
  | MoveTo x y => through c (fun cv => Canvas.MoveTo cv x y) h
  | LineTo x y => through c (fun cv => Canvas.LineTo cv x y) h
  | QuadraticTo x1 y1 x2 y2 => through c (fun cv => Canvas.QuadraticTo cv x1 y1 x2 y2) h
  | CubicTo x1 y1 x2 y2 x3 y3 =>
      through c (fun cv => Canvas.CubicTo cv x1 y1 x2 y2 x3 y3) h
  | ClosePath => through c Canvas.ClosePath h
  | ClearPath => through c (fun cv => Ok (Canvas.ClearPath cv)) h
  | NewSubPath => through c Canvas.NewSubPath h
  | SetMask mask =>
      through c (fun cv => m ← deref mask; Ok (fst (Canvas.SetMask cv m))) h
  | InvertMask => through c (fun cv => Ok (Canvas.InvertMask cv)) h
  | ResetClip => through c (fun cv => Ok (Canvas.ResetClip cv)) h
  | SetIdentity => through c (fun cv => Ok (Canvas.Identity cv)) h
  | DoTranslate x y => through c (fun cv => Ok (Canvas.Translate cv x y)) h
  | DoScale x y => through c (fun cv => Ok (Canvas.Scale cv x y)) h
  | DoRotate a => through c (fun cv => Ok (Canvas.Rotate cv a)) h
  | DoShear x y => through c (fun cv => Ok (Canvas.Shear cv x y)) h
  | DoPush => Push c h
  | DoPop => Pop c h
  end.

Fixpoint run `{Externals} (c : ptr) (script : list Call) (h : heap) : outcome heap :=
  match script with
  | [] => Ok h
  | k :: rest => h' ← call c k h; run c rest h'
  end.

(** ** A sample of the externals, to run the model on examples

    [Hypot] follows the portable algorithm of Go's [math] package; [Cos] and
    [Sin] are tabulated at the angles 0 and [pi/2], the only ones the
    examples use; [Unfix] and [Fix] read and write the 26.6 format. *)

Definition pi_2 : float := 0x1.921fb54442d18p+0%float.

Definition sample_Hypot (p q : float) : float :=
  let p := abs p in
  let q := abs q in
  if (p =? infinity)%float || (q =? infinity)%float then infinity
  else if is_nan p || is_nan q then nan
  else
    let '(p, q) := if (p <? q)%float then (q, p) else (p, q) in
    if (p =? 0)%float then 0%float
    else
      let q := (q / p)%float in
      (p * sqrt (1 + q * q))%float.

Definition sample_Cos (a : float) : float :=
  if (a =? 0)%float then 1%float
  else if (a =? pi_2)%float then 0x1.1a62633145c00p-54%float
  else nan.

Definition sample_Sin (a : float) : float :=
  if (a =? 0)%float then a
  else if (a =? pi_2)%float then 1%float
  else nan.

Definition sample_Unfix (x : Z) : float :=
  if 0 <=? x then (float64_of_int (x / 64) + float64_of_int (x mod 64) / 64)%float
  else
    let x := wrap32 (- x) in
    if 0 <=? x then
      (- (float64_of_int (x / 64) + float64_of_int (x mod 64) / 64))%float
    else 0%float.

Definition sample_Fix (x : float) : Z := wrap32 (int_of_float64 (x * 64)).

Definition sample : Externals :=
  {| Hypot := sample_Hypot; Cos := sample_Cos; Sin := sample_Sin;
     Unfix := sample_Unfix; Fix := sample_Fix |}.

(** A heap with one fresh 2 by 2 canvas at address 1. *)
Definition fresh_heap : heap := {[ 1%positive := NewCanvas 2%positive 2 2 ]}.

(** A heap with a canvas at address 1 that was moved to (3, 4) and is masked,
    and whose stack holds the address 2 of a canvas of its own. *)
Definition snapshot_heap : heap :=
  <[ 1%positive :=
       set_stack [2%positive]
         (set_mask (Some (NewAlpha (image_Rect 0 0 2 2)))
            (set_hasCurrent true
               (set_current (Some (NewVector 3 4))
                  (set_start (Some (NewVector 3 4))
                     (set_fillPath [0; 192; 256; 0]
                        (set_strokePath [0; 192; 256; 0]
                           (NewCanvas 2%positive 2 2))))))) ]>
    {[ 2%positive := NewCanvas 2%positive 2 2 ]}.

(** The receiver's own address is on top of its stack. *)
Definition own_top (c : ptr) (h : heap) : Prop :=
  ∃ cv, h !! c = Some cv ∧ last (stack cv) = Some c.

(** The canvas's [width] and [height] are the size of its image, as
    [NewCanvasForRGBA] sets them. *)
Definition dimensioned (c : Canvas) : Prop :=
  Rectangle_Size (Rect (im c)) = {| PtX := width c; PtY := height c |}.

(** A 2 by 2 canvas with a dash pattern and the open path (0,0) to (16,0). *)
Definition dashed_canvas : Canvas :=
  set_dashes [5%float; 3%float]
    (set_fillRule FillRuleEvenOdd
       (set_hasCurrent true
          (set_current (Some (NewVector 16 0))
             (set_start (Some (NewVector 0 0))
                (set_fillPath [0; 0; 0; 0; 1; 1024; 0; 1]
                   (set_strokePath [0; 0; 0; 0; 1; 1024; 0; 1]
                      (NewCanvas 2%positive 2 2))))))).

Definition idle_rasterizer : Rasterizer :=
  {| UseNonZeroWinding := false; shapes := [] |}.

(** ** Notions the properties are stated with *)

(** The straight polyline from (0,0) to (16,0). *)
Definition line16 : list (list Vector) := [[NewVector 0 0; NewVector 16 0]].

(** The length of a polyline: the distances between consecutive points,
    added up from the first. *)
Fixpoint lengthFrom (previous : Vector) (points : list Vector) (acc : float) : float :=
  match points with
  | [] => acc
  | p :: rest => lengthFrom p rest (acc + Vector.Distance previous p)
  end.

Definition polylineLength (points : list Vector) : float :=
  match points with
  | [] => 0%float
  | p :: rest => lengthFrom p rest 0
  end.

(** Coalescing as the spec words it: of the points after the first, those
    whose fixed-point value repeats that of the point before them are
    dropped, all the others are kept. *)
Fixpoint keepDistinct (previous : Point26_6) (points : list Vector) : list Point26_6 :=
  match points with
  | [] => []
  | p :: rest =>
      let f := Vector.Fixed p in
      if Point26_6_eqb f previous then keepDistinct f rest
      else f :: keepDistinct f rest
  end.

Definition coalesced (path : list Vector) : Path :=
  match path with
  | [] => []
  | p :: rest =>
      [0; PX (Vector.Fixed p); PY (Vector.Fixed p); 0]
      ++ flat_map (fun f => [1; PX f; PY f; 1]) (keepDistinct (Vector.Fixed p) rest)
  end.

(** A point whose coordinates truncate to pixels within 2^23 of the origin;
    differences of such points in 26.6 fixed point stay inside 32 bits. *)
Definition pixel_range (v : Vector) : Prop :=
  - 2 ^ 23 <= int_of_float64 (X v) < 2 ^ 23
  ∧ - 2 ^ 23 <= int_of_float64 (Y v) < 2 ^ 23.

(** The coordinates a path program holds, command by command, without the
    tags; [None] when the program is not a sequence of whole commands. *)
Fixpoint coordinates (p : Path) : option (list Z) :=
  match p with
  | [] => Some []
  | tag :: rest =>
      if (tag =? 0) || (tag =? 1) then
        match rest with
        | x :: y :: _ :: rest' => cs ← coordinates rest'; Some (x :: y :: cs)
        | _ => None
        end
      else if tag =? 2 then
        match rest with
        | x1 :: y1 :: x2 :: y2 :: _ :: rest' =>
            cs ← coordinates rest'; Some (x1 :: y1 :: x2 :: y2 :: cs)
        | _ => None
        end
      else if tag =? 3 then
        match rest with
        | x1 :: y1 :: x2 :: y2 :: x3 :: y3 :: _ :: rest' =>
            cs ← coordinates rest'; Some (x1 :: y1 :: x2 :: y2 :: x3 :: y3 :: cs)
        | _ => None
        end
      else None
  end.

(** A 26.6 value with no fraction bits: a whole number of pixels. *)
Definition whole_pixel (z : Z) : bool := z mod 64 =? 0.

Definition on_pixel_grid (p : Path) : bool :=
  match coordinates p with
  | Some cs => forallb whole_pixel cs
  | None => false
  end.

Definition paths_on_grid (c : Canvas) : Prop :=
  on_pixel_grid (strokePath c) = true ∧ on_pixel_grid (fillPath c) = true.

(** The canvas at [c], when there is one, has both programs on the grid. *)
Definition grid_at (c : ptr) (h : heap) : Prop :=
  ∀ cv, h !! c = Some cv → paths_on_grid cv.

(** ** binary64: notions for the cases that are exact *)

(** [x] is one of the two zeros. *)
Definition Zero (x : float) : Prop := ∃ s, Prim2SF x = S754_zero s.

(** [r] stands for [x]: the very same float, or a zero for a zero. *)
Definition stands_for (x r : float) : Prop := (Zero x ∧ Zero r) ∨ (¬ Zero x ∧ r = x).

(** The float an integer in 1 .. 2^53 - 1 converts to: the integer itself,
    with its mantissa shifted to 53 bits. *)
Definition exact_float (p : positive) : spec_float :=
  match 53 - Z.pos (digits2_pos p) with
  | Z.pos k => S754_finite false (Pos.iter xO p k) (- Z.pos k)
  | _ => S754_finite false p 0
  end.

(** The curves in Bernstein form at the parameter [t], with the operations
    in the order the code performs them. *)
Definition quadraticAt (x0 y0 x1 y1 x2 y2 t : float) : Vector :=
  let u := (1 - t)%float in
  NewVector (u * u * x0 + 2 * u * t * x1 + t * t * x2)
            (u * u * y0 + 2 * u * t * y1 + t * t * y2).

Definition cubicAt (x0 y0 x1 y1 x2 y2 x3 y3 t : float) : Vector :=
  let u := (1 - t)%float in
  NewVector (u * u * u * x0 + 3 * u * u * t * x1 + 3 * u * t * t * x2 + t * t * t * x3)
            (u * u * u * y0 + 3 * u * u * t * y1 + 3 * u * t * t * y2 + t * t * t * y3).

(** The parameter of the point of index [i] among [n]: [i / (n - 1)]. *)
Definition parameter (n i : Z) : float :=
  (float64_of_int i / float64_of_int (n - 1))%float.

(** ** Notions for the properties of the rest of the package *)

(** What a path-building call has no business with: every field of the
    canvas but the two programs, the cursor and its flag. *)
Definition kept (c : Canvas) :=
  (stack c, (width c, height c, rasterizer c, im c), (mask c, color c, clearSrc c),
   (fillPattern c, strokePattern c), (hasBegin c, dashes c, vertexts c),
   (lineWidth c, lineCap c, lineJoin c, fillRule c), (fontFace c, fontHeight c, matrix c)).

(** A canvas that says it has a current point has one, and a start point. *)
Definition cursor_ok (c : Canvas) : bool :=
  if hasCurrent c then
    match start c, current c with
    | Some _, Some _ => true
    | _, _ => false
    end
  else true.

(** The canvas at [c] has a sound cursor and a stack that holds nothing but
    its own address, which is all that [Push] ever stores. *)
Definition sound (c : ptr) (h : heap) : Prop :=
  ∃ cv, h !! c = Some cv ∧ cursor_ok cv = true ∧ Forall (eq c) (stack cv).

(** The number of [Push] calls in a script. *)
Fixpoint pushes (script : list Call) : nat :=
  match script with
  | [] => 0
  | DoPush :: rest => S (pushes rest)
  | _ :: rest => pushes rest
  end.

(** A script that draws, saves and restores twice. *)
Definition sample_script : list Call :=
  [LineTo 1 1; ClosePath; DoPush; NewSubPath; CubicTo 1 1 2 2 3 3; DoPop; DoPop].

(** A mask whose pixels are bytes, as the [uint8]s of an [image.Alpha] are. *)
Definition byte_mask (m : Alpha) : Prop := Forall (λ a, 0 <= a < 256) (APix m).

(** The point a canvas maps the user point of a vector to. *)
Definition transformed (c : Canvas) (v : Vector) : Vector :=
  let '(x, y) := Canvas.TransformPoint c (X v) (Y v) in NewVector x y.

(** A canvas that strokes nothing that it does not fill: its stroke program
    is a subsequence of its fill program. *)
Definition filled (c : Canvas) : Prop := sublist (strokePath c) (fillPath c).

(** The canvas at [c], when there is one, is such a canvas. *)
Definition stroked_is_filled (c : ptr) (h : heap) : Prop :=
  ∀ cv, h !! c = Some cv → filled cv.

(** The vector a 26.6 point decodes to. *)
Definition unfixed `{Externals} (f : Point26_6) : Vector :=
  NewVector (Unfix (PX f)) (Unfix (PY f)).

(** The program of polylines: for each one that has a point, a start at its
    first point and a line to each of the others, added to [p] with the
    path's own [Start] and [Add1]. *)
Definition polyline (p : Path) (poly : list Point26_6) : Path :=
  match poly with
  | [] => p
  | a :: rest => fold_left Path_Add1 rest (Path_Start p a)
  end.

Definition polylines (polys : list (list Point26_6)) : Path :=
  fold_left polyline polys [].

Definition has_points {A} (l : list A) : bool :=
  match l with [] => false | _ :: _ => true end.

(** An outcome of [flattenPath]: a value, or one of the three panics that
    its code can meet. *)
Definition decoded {A} (o : outcome A) : Prop :=
  match o with
  | Ok _ => True
  | Panic why => why = IndexOutOfRange ∨ why = BadPath ∨ why = MakeSliceLen
  | OutOfFuel => False
  end.

(** An outcome of [dashPath] with a dash pattern: dashes of two points or
    more each, or a loop that does not end; never a panic. *)
Definition dashed (o : outcome (list (list Vector))) : Prop :=
  match o with
  | Ok segments => Forall (λ s, (2 <= length s)%nat) segments
  | Panic _ => False
  | OutOfFuel => True
  end.

(** A 2 by 2 canvas between [BeginShape] and [EndShape], with a triangle. *)
Definition triangle_canvas : Canvas :=
  Canvas.Vertex (Canvas.Vertex (Canvas.Vertex
    (Canvas.BeginShape (NewCanvas 2%positive 2 2)) 0 0) 1 0) 0 1.

(** Stores with one vector, at address 1. *)
Definition store_3_4 : gmap positive Vector := {[ 1%positive := NewVector 3 4 ]}.
Definition store_3_nan : gmap positive Vector := {[ 1%positive := NewVector 3 nan ]}.

(** [v.Perpendicular()] called [n] times in a row. *)
Fixpoint quarter_turns (n : nat) (v : positive) (s : Vector.store)
  : outcome Vector.store :=
  match n with
  | O => Ok s
  | S n' => quarter_turns n' v s ≫= Vector.Perpendicular v
  end.

(** Go's [==] on two matrices, which compares them field by field, and on
    two points. *)
Definition Matrix_eqb (m n : Matrix) : bool :=
  ((XX m =? XX n) && (YX m =? YX n) && (XY m =? XY n) && (YY m =? YY n)
   && (X0 m =? X0 n) && (Y0 m =? Y0 n))%float.

Definition point_eqb (p q : float * float) : bool :=
  ((fst p =? fst q) && (snd p =? snd q))%float.

(** A matrix with no infinity and no NaN among its six entries. *)
Definition finite_matrix (m : Matrix) : bool :=
  is_finite (XX m) && is_finite (YX m) && is_finite (XY m) && is_finite (YY m)
  && is_finite (X0 m) && is_finite (Y0 m).

(** An outcome of rendering a path that the canvas has built: a value, or
    a curve too long to allocate; no other panic. *)
Definition built {A} (o : outcome A) : Prop :=
  match o with
  | Ok _ => True
  | Panic why => why = MakeSliceLen
  | OutOfFuel => False
  end.

(** The commands that the canvas writes: starts, lines and quadratic
    curves; [written] is the program that a list of them makes. *)
Inductive Drawn :=
  | DStart (a : Point26_6)
  | DLine (b : Point26_6)
  | DCurve (b c : Point26_6).

Definition written (ds : list Drawn) : Path :=
  fold_left (λ p d, match d with
                    | DStart a => Path_Start p a
                    | DLine b => Path_Add1 p b
                    | DCurve b c => Path_Add2 p b c
                    end) ds [].

(** A canvas whose two programs are made of such commands only. *)
Definition drawn (c : Canvas) : Prop :=
  (∃ ds, strokePath c = written ds) ∧ (∃ fs, fillPath c = written fs).

Definition drawn_at (c : ptr) (h : heap) : Prop :=
  ∀ cv, h !! c = Some cv → drawn cv.

(** A script that never calls [SetLineJoin]. *)
Definition leaves_join (script : list Call) : bool :=
  forallb (λ k, match k with SetLineJoin _ => false | _ => true end) script.

(** Two results that are the same [float64] as far as the model tells: both
    are NaNs, whose sign and payload [float] does not hold and the hardware
    may choose differently for the two, or neither is a NaN and they are the
    same bits. *)
Definition alike (a b : float) : Prop :=
  (is_nan a = true ∧ is_nan b = true)
  ∨ (is_nan a = false ∧ is_nan b = false ∧ a = b).

Definition alike_vectors (v w : Vector) : Prop :=
  alike (X v) (X w) ∧ alike (Y v) (Y w).

(** * Properties *)

(** ** Outcomes and slices *)

Lemma bind_Ok {A B} (m : outcome A) (k : A -> outcome B) (b : B) :
  m ≫= k = Ok b ↔ ∃ a, m = Ok a ∧ k a = Ok b.
Proof.
  destruct m as [a| |]; simpl; split.
  - eauto.
  - intros (a' & [= <-] & Hk). exact Hk.
  - discriminate.
  - intros (? & [=] & _).
  - discriminate.
  - intros (? & [=] & _).
Qed.

Lemma Ok_inj {A} (a b : A) : Ok a = Ok b → a = b.
Proof. now intros [= ->]. Qed.

(** Splits every hypothesis [m ≫= k = Ok b] into its two steps. *)
Ltac unbind :=
  repeat match goal with
    | H : _ ≫= _ = Ok _ |- _ =>
        let a := fresh "a" in
        let Ha := fresh "Ha" in
        apply bind_Ok in H; destruct H as (a & Ha & H)
    | H : Ok _ = Ok _ |- _ => apply Ok_inj in H
    | H : Panic _ = Ok _ |- _ => discriminate H
    | H : OutOfFuel = Ok _ |- _ => discriminate H
    end.

Lemma deref_Ok {A} (p : option A) (a : A) : deref p = Ok a ↔ p = Some a.
Proof. destruct p; simpl; split; congruence. Qed.

Lemma indexZ_top {A} (s : list A) (x : A) :
  last s = Some x → indexZ s (Z.of_nat (length s) - 1) = Ok x.
Proof.
  intros Hlast. rewrite last_lookup in Hlast.
  destruct s as [|a s]; [discriminate|].
  unfold indexZ, index.
  replace (Z.of_nat (length (a :: s)) - 1) with (Z.of_nat (length s))
    by (simpl length; lia).
  destruct (Z.ltb_spec (Z.of_nat (length s)) 0) as [Hneg|_]; [lia|].
  rewrite Nat2Z.id. simpl in Hlast. now rewrite Hlast.
Qed.

Lemma indexZ_empty {A} : indexZ (@nil A) (Z.of_nat (length (@nil A)) - 1)
                         = Panic IndexOutOfRange.
Proof. reflexivity. Qed.

(** ** Pop *)

(** What [Pop] computes when the address on top of the stack holds [xv]. *)
Lemma Pop_unfold (c x : ptr) (h : heap) (before xv : Canvas) :
  h !! c = Some before →
  last (stack before) = Some x →
  h !! x = Some xv →
  Pop c h =
    Ok (<[c := set_hasCurrent (hasCurrent before)
                 (set_current (current before)
                    (set_start (start before)
                       (set_fillPath (fillPath before)
                          (set_strokePath (strokePath before)
                             (set_mask (mask before) xv)))))]> h).
Proof.
  intros Hc Hlast Hx. unfold Pop. rewrite Hc. simpl.
  rewrite (indexZ_top _ _ Hlast). simpl. rewrite Hx. reflexivity.
Qed.

(** Two canvases with the same fields are the same canvas. *)
Lemma Canvas_ext (c d : Canvas) :
  stack c = stack d →
  width c = width d →
  height c = height d →
  rasterizer c = rasterizer d →
  im c = im d →
  mask c = mask d →
  color c = color d →
  clearSrc c = clearSrc d →
  fillPattern c = fillPattern d →
  strokePattern c = strokePattern d →
  strokePath c = strokePath d →
  fillPath c = fillPath d →
  start c = start d →
  current c = current d →
  hasCurrent c = hasCurrent d →
  hasBegin c = hasBegin d →
  dashes c = dashes d →
  vertexts c = vertexts d →
  lineWidth c = lineWidth d →
  lineCap c = lineCap d →
  lineJoin c = lineJoin d →
  fillRule c = fillRule d →
  fontFace c = fontFace d →
  fontHeight c = fontHeight d →
  matrix c = matrix d →
  c = d.
Proof. destruct c, d; simpl; intros; subst; reflexivity. Qed.

(** When the top of the stack is the receiver's own address, which is what
    [Push] stores, the copy is of the receiver onto itself. *)
Lemma Pop_own_address (c : ptr) (h : heap) (before : Canvas) :
  h !! c = Some before →
  last (stack before) = Some c →
  Pop c h = Ok h.
Proof.
  intros Hc Hlast. rewrite (Pop_unfold c c h before before Hc Hlast Hc).
  f_equal. apply insert_id. rewrite Hc. f_equal.
  apply Canvas_ext; reflexivity.
Qed.

(** C7: [Pop] on a canvas whose stack is empty panics with an index out of
    range, so it never returns normally, with the same heap or any other. *)
Theorem Pop_empty_stack_panics (c : ptr) (h : heap) (cv : Canvas) :
  h !! c = Some cv →
  stack cv = [] →
  Pop c h = Panic IndexOutOfRange ∧ ∀ h', Pop c h ≠ Ok h'.
Proof.
  intros Hc Hs.
  assert (Pop c h = Panic IndexOutOfRange) as HP.
  { unfold Pop. rewrite Hc. simpl. rewrite Hs. reflexivity. }
  split; [exact HP|]. intros h'. rewrite HP. discriminate.
Qed.

Lemma Pop_empty_stack_panics_witness :
  fresh_heap !! 1%positive = Some (NewCanvas 2%positive 2 2)
  ∧ Pop 1%positive fresh_heap = Panic IndexOutOfRange.
Proof.
  split; [reflexivity|].
  apply (Pop_empty_stack_panics 1%positive fresh_heap (NewCanvas 2%positive 2 2));
    reflexivity.
Defined.

(** C2, as the code has it: [Pop] on a canvas whose stack is not empty leaves
    the clip mask, the path cursor ([start], [current]), the [hasCurrent] flag
    and both path programs as they were just before the [Pop], whatever the
    canvas on top of the stack holds; none of them goes back to its value at
    the [Push]. *)
Theorem Pop_keeps_mask_cursor_and_paths (c x : ptr) (h : heap) (before xv : Canvas) :
  h !! c = Some before →
  last (stack before) = Some x →
  h !! x = Some xv →
  ∃ h' after,
    Pop c h = Ok h' ∧ h' !! c = Some after
    ∧ mask after = mask before
    ∧ start after = start before
    ∧ current after = current before
    ∧ hasCurrent after = hasCurrent before
    ∧ strokePath after = strokePath before
    ∧ fillPath after = fillPath before.
Proof.
  intros Hc Hlast Hx. eexists _, _. split.
  - apply (Pop_unfold c x h before xv); assumption.
  - split; [apply lookup_insert_eq|]. simpl. repeat split; reflexivity.
Qed.

Lemma Pop_keeps_mask_cursor_and_paths_witness :
  ∃ h' after,
    Pop 1%positive snapshot_heap = Ok h' ∧ h' !! 1%positive = Some after
    ∧ mask after = Some (NewAlpha (image_Rect 0 0 2 2))
    ∧ start after = Some (NewVector 3 4)
    ∧ current after = Some (NewVector 3 4)
    ∧ hasCurrent after = true
    ∧ strokePath after = [0; 192; 256; 0]
    ∧ fillPath after = [0; 192; 256; 0].
Proof.
  exact (Pop_keeps_mask_cursor_and_paths 1%positive 2%positive snapshot_heap _ _
           eq_refl eq_refl eq_refl).
Defined.

(** C2, as the spec words it, fails: a canvas that had no current point at
    the [Push] has one after the [Pop] when a [MoveTo] came in between. *)
Lemma Pop_does_not_rewind_cursor :
  ∃ h1 h2 pushed popped,
    @run sample 1%positive [DoPush] fresh_heap = Ok h1
    ∧ h1 !! 1%positive = Some pushed
    ∧ @run sample 1%positive [MoveTo 3 4; DoPop] h1 = Ok h2
    ∧ h2 !! 1%positive = Some popped
    ∧ hasCurrent popped ≠ hasCurrent pushed
    ∧ current popped ≠ current pushed
    ∧ start popped ≠ start pushed.
Proof.
  eexists _, _, _, _.
  split; [vm_compute; reflexivity|].
  split; [vm_compute; reflexivity|].
  split; [vm_compute; reflexivity|].
  split; [vm_compute; reflexivity|].
  repeat split; discriminate.
Qed.

(** ** No method but Push and Pop writes the stack *)

Section Stack.
Context `{Externals}.

Lemma MoveTo_stack c x y c' : Canvas.MoveTo c x y = Ok c' → stack c' = stack c.
Proof.
  unfold Canvas.MoveTo. intros Hm. unbind.
  destruct (Canvas.TransformPoint a x y) as [tx ty]. unbind. subst c'. simpl.
  destruct (hasCurrent c); unbind; subst; reflexivity.
Qed.

Lemma LineTo_stack c x y c' : Canvas.LineTo c x y = Ok c' → stack c' = stack c.
Proof.
  unfold Canvas.LineTo. destruct (negb (hasCurrent c)).
  - apply MoveTo_stack.
  - destruct (Canvas.TransformPoint c x y). intros Hm. unbind. now subst.
Qed.

Lemma QuadraticTo_stack c x1 y1 x2 y2 c' :
  Canvas.QuadraticTo c x1 y1 x2 y2 = Ok c' → stack c' = stack c.
Proof.
  unfold Canvas.QuadraticTo. intros Hm. unbind.
  destruct (Canvas.TransformPoint a x1 y1), (Canvas.TransformPoint a x2 y2).
  unbind. subst c'. simpl.
  destruct (negb (hasCurrent c)); [now apply MoveTo_stack in Ha|].
  unbind. now subst.
Qed.

Lemma cubicPoints_stack points previous c :
  stack (Canvas.cubicPoints points previous c) = stack c.
Proof.
  revert previous c. induction points as [|p rest IH]; intros; simpl; [reflexivity|].
  destruct (Point26_6_eqb _ _); rewrite IH; reflexivity.
Qed.

Lemma CubicTo_stack c x1 y1 x2 y2 x3 y3 c' :
  Canvas.CubicTo c x1 y1 x2 y2 x3 y3 = Ok c' → stack c' = stack c.
Proof.
  unfold Canvas.CubicTo. intros Hm. unbind.
  destruct (Canvas.TransformPoint a x1 y1), (Canvas.TransformPoint a x2 y2),
    (Canvas.TransformPoint a x3 y3).
  unbind. destruct a1; unbind. subst c'. rewrite cubicPoints_stack.
  destruct (negb (hasCurrent c)); [now apply MoveTo_stack in Ha|].
  unbind. now subst.
Qed.

Lemma ClosePath_stack c c' : Canvas.ClosePath c = Ok c' → stack c' = stack c.
Proof.
  unfold Canvas.ClosePath. destruct (hasCurrent c); intros Hm; unbind; now subst.
Qed.

Lemma NewSubPath_stack c c' : Canvas.NewSubPath c = Ok c' → stack c' = stack c.
Proof.
  unfold Canvas.NewSubPath. intros Hm. unbind. subst c'. simpl.
  destruct (hasCurrent c); unbind; now subst.
Qed.

Lemma through_own_top c f h h' :
  (∀ cv cv', f cv = Ok cv' → stack cv' = stack cv) →
  own_top c h → through c f h = Ok h' → own_top c h'.
Proof.
  intros Hf (cv & Hc & Htop) Ht. unfold through in Ht. unbind.
  apply deref_Ok in Ha. rewrite Hc in Ha. injection Ha as <-.
  subst h'. exists a0. split; [apply lookup_insert_eq|].
  now rewrite (Hf _ _ Ha0).
Qed.

Lemma Push_own_top c h h' : Push c h = Ok h' → own_top c h'.
Proof.
  unfold Push. intros Hp. unbind. subst h'.
  eexists. split; [apply lookup_insert_eq|]. simpl. apply last_snoc.
Qed.

Lemma call_own_top c k h h' : own_top c h → call c k h = Ok h' → own_top c h'.
Proof.
  intros Htop. destruct k; simpl;
    try (apply through_own_top; [|exact Htop]; intros cv cv' [= <-]; reflexivity).
  - apply through_own_top; [|exact Htop]. intros cv cv' [= <-].
    unfold Canvas.SetFillStyle. now destruct pattern.
  - apply through_own_top; [|exact Htop]. intros ? ?. apply MoveTo_stack.
  - apply through_own_top; [|exact Htop]. intros ? ?. apply LineTo_stack.
  - apply through_own_top; [|exact Htop]. intros ? ?. apply QuadraticTo_stack.
  - apply through_own_top; [|exact Htop]. intros ? ?. apply CubicTo_stack.
  - apply through_own_top; [|exact Htop]. intros ? ?. apply ClosePath_stack.
  - apply through_own_top; [|exact Htop]. intros ? ?. apply NewSubPath_stack.
  - apply through_own_top; [|exact Htop]. intros cv cv' Hm.
    match type of Hm with context [deref ?o] => destruct o as [m|]; [|discriminate Hm] end.
    apply Ok_inj in Hm as <-. unfold Canvas.SetMask. now destruct (negb _).
  - apply through_own_top; [|exact Htop]. intros cv cv' [= <-].
    unfold Canvas.InvertMask. now destruct (mask cv).
  - apply Push_own_top.
  - destruct Htop as (cv & Hc & Hlast).
    rewrite (Pop_own_address c h cv Hc Hlast). intros [= <-]. now exists cv.
Qed.

Lemma run_own_top c script h h' :
  own_top c h → run c script h = Ok h' → own_top c h'.
Proof.
  revert h. induction script as [|k rest IH]; simpl; intros h Htop Hr.
  - injection Hr as <-. exact Htop.
  - unbind. eapply IH; [|exact Hr]. eapply call_own_top; eassumption.
Qed.

(** C1, as the code has it: after a [Push] and any script, the [Pop]
    returns, and the clip mask it leaves is the one the script left: a clip
    set, inverted or reset since the [Push] stays in force. *)
Theorem Pop_after_Push_keeps_the_clip (c : ptr) (script : list Call) (h h1 : heap) :
  run c (DoPush :: script) h = Ok h1 →
  ∃ h2 cv1 cv2,
    h1 !! c = Some cv1 ∧ Pop c h1 = Ok h2 ∧ h2 !! c = Some cv2
    ∧ mask cv2 = mask cv1.
Proof.
  simpl. intros Hr. unbind.
  assert (own_top c h1) as (cv1 & Hc & Hlast).
  { eapply run_own_top; [|exact Hr]. eapply Push_own_top; exact Ha. }
  exists h1, cv1, cv1. split; [exact Hc|].
  split; [exact (Pop_own_address c h1 cv1 Hc Hlast)|]. now split.
Qed.
End Stack.

Lemma Pop_after_Push_keeps_the_clip_witness :
  ∃ h1 h2 cv1 cv2,
    @run sample 1%positive [DoPush; SetLineWidth 5; InvertMask] fresh_heap = Ok h1
    ∧ h1 !! 1%positive = Some cv1 ∧ Pop 1%positive h1 = Ok h2
    ∧ h2 !! 1%positive = Some cv2 ∧ mask cv2 = mask cv1.
Proof.
  eexists.
  assert (@run sample 1%positive [DoPush; SetLineWidth 5; InvertMask] fresh_heap
          = Ok _) as Hr by (vm_compute; reflexivity).
  destruct (@Pop_after_Push_keeps_the_clip sample 1%positive
              [SetLineWidth 5; InvertMask] fresh_heap _ Hr) as (h2 & cv1 & cv2 & Hrest).
  exists h2, cv1, cv2. split; [exact Hr | exact Hrest].
Defined.

(** C1, as the spec words it, fails: a canvas with no clip at the [Push]
    is clipped after the [Pop] when the mask was inverted in between. *)
Lemma Pop_does_not_rewind_clip :
  ∃ h1 h2 pushed popped,
    @run sample 1%positive [DoPush] fresh_heap = Ok h1
    ∧ h1 !! 1%positive = Some pushed
    ∧ @run sample 1%positive [InvertMask; DoPop] h1 = Ok h2
    ∧ h2 !! 1%positive = Some popped
    ∧ mask pushed = None
    ∧ mask popped = Some (NewAlpha (image_Rect 0 0 2 2)).
Proof.
  eexists _, _, _, _.
  split; [vm_compute; reflexivity|].
  split; [vm_compute; reflexivity|].
  split; [vm_compute; reflexivity|].
  split; [vm_compute; reflexivity|].
  split; reflexivity.
Qed.

(** The line width set after a [Push] is still there after the [Pop], and so
    is the entry on the stack: the address that [Push] stores is the
    receiver's own, so [Pop] copies the canvas onto itself. *)
Lemma Pop_after_SetLineWidth :
  ∃ h2 popped,
    @run sample 1%positive [DoPush; SetLineWidth 5; DoPop] fresh_heap = Ok h2
    ∧ h2 !! 1%positive = Some popped
    ∧ lineWidth popped = 5%float
    ∧ stack popped = [1%positive].
Proof.
  eexists _, _.
  split; [vm_compute; reflexivity|].
  split; [vm_compute; reflexivity|].
  split; reflexivity.
Qed.

(** ** SetMask *)

Lemma Point_eqb_eq (p q : Point) : Point_eqb p q = true ↔ p = q.
Proof.
  destruct p as [a b], q as [a' b']. unfold Point_eqb. simpl.
  rewrite andb_true_iff, !Z.eqb_eq. split; [intros [-> ->]|intros [= -> ->]]; auto.
Qed.

Lemma NewCanvasForRGBA_dimensioned (r : ptr) (img : RGBA) :
  dimensioned (NewCanvasForRGBA r img).
Proof. unfold dimensioned. reflexivity. Qed.

(** C8: on a canvas whose dimensions are those of its image, [SetMask] with a
    mask of another size returns an error and the canvas as it was; with a
    mask of the canvas's size it returns no error and the canvas with that
    mask installed and nothing else changed. *)
Theorem SetMask_checks_the_size (c : Canvas) (m : Alpha) :
  dimensioned c →
  (Rectangle_Size (ARect m) ≠ {| PtX := width c; PtY := height c |} →
     ∃ e, Canvas.SetMask c m = (c, Some e))
  ∧ (Rectangle_Size (ARect m) = {| PtX := width c; PtY := height c |} →
     Canvas.SetMask c m = (set_mask (Some m) c, None)).
Proof.
  unfold dimensioned, Canvas.SetMask. intros <-.
  destruct (Point_eqb _ _) eqn:He; simpl.
  - apply Point_eqb_eq in He. split; [intros Hne; now destruct Hne | reflexivity].
  - split; [eauto|]. intros Heq. apply Point_eqb_eq in Heq. congruence.
Qed.

Lemma SetMask_checks_the_size_witness :
  (∃ e, Canvas.SetMask (NewCanvas 2%positive 2 2) (NewAlpha (image_Rect 0 0 3 2))
        = (NewCanvas 2%positive 2 2, Some e))
  ∧ Canvas.SetMask (NewCanvas 2%positive 2 2) (NewAlpha (image_Rect 5 5 7 7))
    = (set_mask (Some (NewAlpha (image_Rect 5 5 7 7))) (NewCanvas 2%positive 2 2), None).
Proof.
  split.
  - apply (SetMask_checks_the_size (NewCanvas 2%positive 2 2)
             (NewAlpha (image_Rect 0 0 3 2)));
      [reflexivity | discriminate].
  - apply (SetMask_checks_the_size (NewCanvas 2%positive 2 2)
             (NewAlpha (image_Rect 5 5 7 7)));
      reflexivity.
Defined.

(** ** The winding rule of stroke and fill *)

(** C6: whatever the canvas's fill rule, a [stroke] that gets as far as the
    rasterizer has it rasterize under the non-zero winding rule, and the
    stroke does not depend on the fill rule at all; a [fill] has it rasterize
    under non-zero winding exactly when the fill rule is [FillRuleWinding],
    and under even-odd for every other value. *)
Theorem stroke_and_fill_winding `{Externals} (fuel : nat) (c : Canvas)
    (r : Rasterizer) (p : Painter) :
  (∀ r' req, Render.stroke fuel c r p = Ok (r', req) →
     nonZeroWinding req = true ∧ UseNonZeroWinding r' = true)
  ∧ (∀ rule, Render.stroke fuel (set_fillRule rule c) r p = Render.stroke fuel c r p)
  ∧ (∀ r' req, Render.fill c r p = Ok (r', req) →
       nonZeroWinding req = (fillRule c =? FillRuleWinding)
       ∧ UseNonZeroWinding r' = (fillRule c =? FillRuleWinding)).
Proof.
  split; [|split].
  - unfold Render.stroke. intros r' req Hs. unbind. injection Hs as <- <-.
    split; reflexivity.
  - reflexivity.
  - unfold Render.fill. intros r' req Hf. unbind. injection Hf as <- <-.
    split; reflexivity.
Qed.

Lemma stroke_and_fill_winding_witness :
  (∃ r' req, @Render.stroke sample 8 dashed_canvas idle_rasterizer AlphaOverPainter
             = Ok (r', req) ∧ nonZeroWinding req = true)
  ∧ (∃ r' req, Render.fill dashed_canvas idle_rasterizer AlphaOverPainter = Ok (r', req)
               ∧ nonZeroWinding req = false).
Proof.
  destruct (@stroke_and_fill_winding sample 8 dashed_canvas idle_rasterizer
              AlphaOverPainter) as (Hs & _ & Hf).
  split.
  - eexists _, _. split; [vm_compute; reflexivity|].
    eapply Hs. vm_compute. reflexivity.
  - eexists _, _. split; [vm_compute; reflexivity|].
    etransitivity; [eapply Hf; vm_compute; reflexivity | reflexivity].
Defined.

(** ** Dashing *)

(** C3, as the code has it: the pattern [5, 3] over the straight line from 0
    to 16 gives, with four rounds of fuel or more, exactly two segments, from
    0 to 5 and from 8 to 13; the spans from 5 to 8 and from 13 to 16 are gaps
    and nothing is emitted after the second segment. *)
Theorem dash_5_3_over_16 (k : nat) :
  dashPath (4 + k) line16 [5%float; 3%float]
  = Ok [[NewVector 0 0; NewVector 5 0]; [NewVector 8 0; NewVector 13 0]].
Proof. destruct k; vm_compute; reflexivity. Qed.

(** C3, as the spec words it, fails: there are two segments, not three, and
    both are 5 long. *)
Lemma dash_5_3_over_16_two_segments :
  ∃ segments,
    dashPath 4 line16 [5%float; 3%float] = Ok segments
    ∧ length segments = 2%nat
    ∧ map polylineLength segments = [5%float; 5%float].
Proof. eexists. split; [vm_compute; reflexivity|]. split; reflexivity. Qed.

(** With a dash pattern of zeros the loop cuts at the same place for ever. *)
Lemma dash_zero_never_ends (k : nat) : dashPath k line16 [0%float] = OutOfFuel.
Proof.
  unfold dashPath, line16, dashAll, dashOne.
  assert (∀ k seg res,
            dashLoop k [NewVector 0 0; NewVector 16 0] [0%float; 0%float]
              (NewVector 0 0) 1 0 0 seg res = OutOfFuel
            ∧ dashLoop k [NewVector 0 0; NewVector 16 0] [0%float; 0%float]
                (NewVector 0 0) 1 1 0 seg res = OutOfFuel) as Hloop.
  { clear k. induction k as [|k IH]; intros seg res; [split; reflexivity|].
    split.
    - change (dashLoop (S k) _ _ _ 1 0 0 seg res) with
        (dashLoop k [NewVector 0 0; NewVector 16 0] [0%float; 0%float]
           (NewVector 0 0) 1 1 0 [NewVector 0 0]
           (if emits 0 (seg ++ [NewVector 0 0]) then res ++ [seg ++ [NewVector 0 0]]
            else res)).
      apply IH.
    - change (dashLoop (S k) _ _ _ 1 1 0 seg res) with
        (dashLoop k [NewVector 0 0; NewVector 16 0] [0%float; 0%float]
           (NewVector 0 0) 1 0 0 [NewVector 0 0]
           (if emits 1 (seg ++ [NewVector 0 0]) then res ++ [seg ++ [NewVector 0 0]]
            else res)).
      apply IH. }
  now rewrite (proj1 (Hloop k _ _)).
Qed.

(** ** rasterPath *)

Lemma wrap32_small (z : Z) : - 2 ^ 31 <= z < 2 ^ 31 → wrap32 z = z.
Proof.
  unfold wrap32, wrap. change (2 ^ (32 - 1)) with 2147483648.
  change (2 ^ 32) with 4294967296. change (2 ^ 31) with 2147483648.
  intros Hz. rewrite Z.mod_small; lia.
Qed.

Lemma wrap64_small (z : Z) : - 2 ^ 63 <= z < 2 ^ 63 → wrap64 z = z.
Proof.
  unfold wrap64, wrap. change (2 ^ (64 - 1)) with 9223372036854775808.
  change (2 ^ 64) with 18446744073709551616.
  change (2 ^ 63) with 9223372036854775808.
  intros Hz. rewrite Z.mod_small; lia.
Qed.

Lemma fixed_I_small (i : Z) : - 2 ^ 23 <= i < 2 ^ 23 → fixed_I i = i * 64.
Proof.
  change (2 ^ 23) with 8388608. intros Hi. unfold fixed_I.
  rewrite wrap64_small by (change (2 ^ 63) with 9223372036854775808; lia).
  apply wrap32_small. change (2 ^ 31) with 2147483648. lia.
Qed.

(** Within the pixel range, the test [dx + dy > 8] of [rasterPath] holds
    exactly when the two fixed-point values differ. *)
Lemma far_iff_distinct (a b a' b' : Z) :
  - 2 ^ 23 <= a < 2 ^ 23 → - 2 ^ 23 <= b < 2 ^ 23 →
  - 2 ^ 23 <= a' < 2 ^ 23 → - 2 ^ 23 <= b' < 2 ^ 23 →
  (8 <? wrap32 (abs32 (wrap32 (a' * 64 - a * 64)) + abs32 (wrap32 (b' * 64 - b * 64))))
  = negb ((a' * 64 =? a * 64) && (b' * 64 =? b * 64)).
Proof.
  change (2 ^ 23) with 8388608. intros Ha Hb Ha' Hb'.
  rewrite (wrap32_small (a' * 64 - a * 64)), (wrap32_small (b' * 64 - b * 64))
    by (change (2 ^ 31) with 2147483648; lia).
  assert (∀ d, - 1073741824 < d < 1073741824 → abs32 d = Z.abs d) as Habs.
  { intros d Hd. unfold abs32. destruct (Z.ltb_spec d 0).
    - rewrite wrap32_small by (change (2 ^ 31) with 2147483648; lia). lia.
    - lia. }
  rewrite !Habs by lia.
  rewrite wrap32_small by (change (2 ^ 31) with 2147483648; lia).
  destruct (Z.eqb_spec (a' * 64) (a * 64)), (Z.eqb_spec (b' * 64) (b * 64)); simpl;
    [apply Z.ltb_ge | apply Z.ltb_lt ..]; lia.
Qed.

Lemma Fixed_pixel (v : Vector) :
  pixel_range v →
  Vector.Fixed v = {| PX := int_of_float64 (X v) * 64; PY := int_of_float64 (Y v) * 64 |}.
Proof. intros [Hx Hy]. unfold Vector.Fixed. now rewrite !fixed_I_small. Qed.

(** Within the pixel range the test of [rasterPath] is a test for inequality. *)
Lemma far_iff_differs (p previous : Vector) :
  pixel_range p → pixel_range previous →
  (8 <? wrap32 (abs32 (wrap32 (PX (Vector.Fixed p) - PX (Vector.Fixed previous)))
                + abs32 (wrap32 (PY (Vector.Fixed p) - PY (Vector.Fixed previous)))))
  = negb (Point26_6_eqb (Vector.Fixed p) (Vector.Fixed previous)).
Proof.
  intros Hp Hprev. rewrite (Fixed_pixel p Hp), (Fixed_pixel previous Hprev).
  destruct Hprev, Hp. unfold Point26_6_eqb. cbn [PX PY]. now apply far_iff_distinct.
Qed.

Lemma rasterPoints_next (p : Vector) (rest : list Vector) (i : nat)
    (previous : Point26_6) (result : Path) :
  rasterPoints (p :: rest) (S i) previous result
  = rasterPoints rest (S (S i)) (Vector.Fixed p)
      (if 8 <? wrap32 (abs32 (wrap32 (PX (Vector.Fixed p) - PX previous))
                       + abs32 (wrap32 (PY (Vector.Fixed p) - PY previous)))
       then Path_Add1 result (Vector.Fixed p) else result).
Proof. unfold rasterPoints at 1. fold rasterPoints. reflexivity. Qed.

Lemma keepDistinct_next (p : Vector) (rest : list Vector) (previous : Point26_6) :
  keepDistinct previous (p :: rest)
  = if Point26_6_eqb (Vector.Fixed p) previous then keepDistinct (Vector.Fixed p) rest
    else Vector.Fixed p :: keepDistinct (Vector.Fixed p) rest.
Proof. reflexivity. Qed.

Lemma rasterPoints_coalesces (points : list Vector) :
  ∀ (i : nat) (previous : Vector) (result : Path),
    pixel_range previous → Forall pixel_range points →
    rasterPoints points (S i) (Vector.Fixed previous) result
    = result ++ flat_map (fun f => [1; PX f; PY f; 1])
                  (keepDistinct (Vector.Fixed previous) points).
Proof.
  induction points as [|p rest IH]; intros i previous result Hprev Hall.
  - simpl. now rewrite app_nil_r.
  - apply Forall_cons in Hall as [Hp Hrest].
    rewrite rasterPoints_next, keepDistinct_next, (far_iff_differs p previous Hp Hprev).
    rewrite (IH (S i) p _ Hp Hrest).
    generalize (Vector.Fixed p) (Vector.Fixed previous). intros f g.
    destruct (Point26_6_eqb f g); cbn [negb flat_map].
    + reflexivity.
    + unfold Path_Add1. now rewrite <- app_assoc.
Qed.

Lemma rasterPoints_first (path : list Vector) (result : Path) :
  Forall pixel_range path →
  rasterPoints path 0 {| PX := 0; PY := 0 |} result = result ++ coalesced path.
Proof.
  destruct path as [|p rest]; intros Hall; simpl.
  - now rewrite app_nil_r.
  - apply Forall_cons in Hall as [Hp Hrest].
    rewrite (rasterPoints_coalesces rest 0 p _ Hp Hrest).
    unfold Path_Start. now rewrite <- app_assoc.
Qed.

(** C5, as the code has it: over polylines whose points truncate to pixels
    within 2^23 of the origin, [rasterPath] starts each polyline at its first
    point and then drops exactly the points whose fixed-point value repeats
    that of the point before; every point that differs from its predecessor
    after rounding is kept. *)
Theorem rasterPath_drops_duplicates_only (paths : list (list Vector)) :
  Forall (Forall pixel_range) paths →
  rasterPath paths = concat (map coalesced paths).
Proof.
  unfold rasterPath.
  assert (∀ acc, Forall (Forall pixel_range) paths →
            fold_left (fun result path =>
                         rasterPoints path 0 {| PX := 0; PY := 0 |} result) paths acc
            = acc ++ concat (map coalesced paths)) as Hfold.
  { induction paths as [|path rest IH]; intros acc Hall; simpl.
    - now rewrite app_nil_r.
    - apply Forall_cons in Hall as [Hpath Hrest].
      rewrite (rasterPoints_first path acc Hpath), (IH _ Hrest).
      now rewrite app_assoc. }
  intros Hall. now rewrite (Hfold [] Hall).
Qed.

Lemma rasterPath_drops_duplicates_only_witness :
  rasterPath [[NewVector 0 0; NewVector 0.5 0.25; NewVector 1 0; NewVector 1 0;
               NewVector (-3) 4]]
  = [0; 0; 0; 0; 1; 64; 0; 1; 1; -192; 256; 1].
Proof.
  rewrite (rasterPath_drops_duplicates_only
             [[NewVector 0 0; NewVector 0.5 0.25; NewVector 1 0; NewVector 1 0;
               NewVector (-3) 4]]).
  - vm_compute. reflexivity.
  - repeat constructor; vm_compute; discriminate.
Defined.

(** C5, as the spec words it, fails: the second point below is 2^24 pixels
    away from the first in both directions, its fixed-point value differs
    from that of the first, and it is dropped all the same, the sum of the
    two differences having wrapped around 32 bits. *)
Lemma rasterPath_drops_a_distinct_point :
  rasterPath [[NewVector 0 0; NewVector 16777216 16777216]] = [0; 0; 0; 0]
  ∧ Vector.Fixed (NewVector 0 0) = {| PX := 0; PY := 0 |}
  ∧ Vector.Fixed (NewVector 16777216 16777216) = {| PX := 2 ^ 30; PY := 2 ^ 30 |}.
Proof. repeat split; vm_compute; reflexivity. Qed.

(** ** Path programs hold whole pixels *)

Lemma coordinates_app (q : Path) (n : nat) :
  ∀ (p : Path) (cs : list Z),
    (length p ≤ n)%nat → coordinates p = Some cs →
    coordinates (p ++ q) = cs' ← coordinates q; Some (cs ++ cs').
Proof.
  induction n as [|n IH]; intros p cs Hlen Hp.
  - destruct p; [|simpl in Hlen; lia]. injection Hp as <-. simpl.
    now destruct (coordinates q).
  - destruct p as [|tag rest].
    { injection Hp as <-. simpl. now destruct (coordinates q). }
    cbn [coordinates app] in *.
    destruct ((tag =? 0) || (tag =? 1)).
    { destruct rest as [|x [|y [|t rest']]]; try discriminate. cbn [app].
      destruct (coordinates rest') as [cs0|] eqn:E; [|discriminate].
      injection Hp as <-.
      rewrite (IH rest' cs0 ltac:(simpl in Hlen; lia) E).
      now destruct (coordinates q). }
    destruct (tag =? 2).
    { destruct rest as [|x1 [|y1 [|x2 [|y2 [|t rest']]]]]; try discriminate. cbn [app].
      destruct (coordinates rest') as [cs0|] eqn:E; [|discriminate].
      injection Hp as <-.
      rewrite (IH rest' cs0 ltac:(simpl in Hlen; lia) E).
      now destruct (coordinates q). }
    destruct (tag =? 3); [|discriminate].
    destruct rest as [|x1 [|y1 [|x2 [|y2 [|x3 [|y3 [|t rest']]]]]]]; try discriminate.
    cbn [app].
    destruct (coordinates rest') as [cs0|] eqn:E; [|discriminate].
    injection Hp as <-.
    rewrite (IH rest' cs0 ltac:(simpl in Hlen; lia) E).
    now destruct (coordinates q).
Qed.

Lemma on_pixel_grid_app (p q : Path) :
  on_pixel_grid p = true → on_pixel_grid q = true → on_pixel_grid (p ++ q) = true.
Proof.
  unfold on_pixel_grid.
  destruct (coordinates p) as [cs|] eqn:Ep; [|discriminate].
  destruct (coordinates q) as [cs'|] eqn:Eq; [|discriminate].
  intros Hp Hq. rewrite (coordinates_app q (length p) p cs (Nat.le_refl _) Ep), Eq.
  simpl. now rewrite forallb_app, Hp, Hq.
Qed.

Lemma wrap_divide (k w z : Z) :
  2 ^ w ≠ 0 → (k | 2 ^ (w - 1)) → (k | 2 ^ w) → (k | z) → (k | wrap w z).
Proof.
  intros Hw Hh Hm Hz. unfold wrap. apply Z.divide_sub_r; [|exact Hh].
  rewrite Z.mod_eq by exact Hw. apply Z.divide_sub_r.
  - now apply Z.divide_add_r.
  - now apply Z.divide_mul_l.
Qed.

Lemma fixed_I_whole (i : Z) : whole_pixel (fixed_I i) = true.
Proof.
  unfold whole_pixel. apply Z.eqb_eq. apply Z.mod_divide; [discriminate|].
  unfold fixed_I, wrap32, wrap64.
  apply wrap_divide; [discriminate | now exists (2 ^ 25) | now exists (2 ^ 26) |].
  apply wrap_divide; [discriminate | now exists (2 ^ 57) | now exists (2 ^ 58) |].
  now exists i.
Qed.

Lemma Start_on_grid (p : Path) (v : Vector) :
  on_pixel_grid p = true → on_pixel_grid (Path_Start p (Vector.Fixed v)) = true.
Proof.
  intros Hp. apply on_pixel_grid_app; [exact Hp|].
  unfold on_pixel_grid. simpl. now rewrite !fixed_I_whole.
Qed.

Lemma Add1_on_grid (p : Path) (v : Vector) :
  on_pixel_grid p = true → on_pixel_grid (Path_Add1 p (Vector.Fixed v)) = true.
Proof.
  intros Hp. apply on_pixel_grid_app; [exact Hp|].
  unfold on_pixel_grid. simpl. now rewrite !fixed_I_whole.
Qed.

Lemma Add2_on_grid (p : Path) (v w : Vector) :
  on_pixel_grid p = true →
  on_pixel_grid (Path_Add2 p (Vector.Fixed v) (Vector.Fixed w)) = true.
Proof.
  intros Hp. apply on_pixel_grid_app; [exact Hp|].
  unfold on_pixel_grid. simpl. now rewrite !fixed_I_whole.
Qed.

Section Grid.
Context `{Externals}.

Lemma MoveTo_grid c x y c' :
  Canvas.MoveTo c x y = Ok c' → paths_on_grid c → paths_on_grid c'.
Proof.
  unfold Canvas.MoveTo. intros Hm [Hs Hf]. unbind.
  destruct (Canvas.TransformPoint a x y) as [tx ty]. unbind. subst c'.
  assert (paths_on_grid a) as [Hs' Hf'].
  { destruct (hasCurrent c); unbind; subst; split; simpl; auto using Add1_on_grid. }
  split; simpl; now apply Start_on_grid.
Qed.

Lemma LineTo_grid c x y c' :
  Canvas.LineTo c x y = Ok c' → paths_on_grid c → paths_on_grid c'.
Proof.
  unfold Canvas.LineTo. destruct (negb (hasCurrent c)); [apply MoveTo_grid|].
  destruct (Canvas.TransformPoint c x y). intros Hm [Hs Hf]. unbind. subst c'.
  split; simpl; now apply Add1_on_grid.
Qed.

Lemma QuadraticTo_grid c x1 y1 x2 y2 c' :
  Canvas.QuadraticTo c x1 y1 x2 y2 = Ok c' → paths_on_grid c → paths_on_grid c'.
Proof.
  unfold Canvas.QuadraticTo. intros Hm Hg. unbind.
  destruct (Canvas.TransformPoint a x1 y1), (Canvas.TransformPoint a x2 y2).
  unbind. subst c'.
  assert (paths_on_grid a) as [Hs' Hf'].
  { destruct (negb (hasCurrent c)); [now apply MoveTo_grid in Ha|]. unbind. now subst. }
  split; simpl; now apply Add2_on_grid.
Qed.

Lemma cubicPoints_grid points :
  ∀ previous c, paths_on_grid c → paths_on_grid (Canvas.cubicPoints points previous c).
Proof.
  induction points as [|p rest IH]; intros previous c Hg; simpl; [exact Hg|].
  destruct (Point26_6_eqb _ _); apply IH; [exact Hg|].
  destruct Hg as [Hs Hf]. split; simpl; now apply Add1_on_grid.
Qed.

Lemma CubicTo_grid c x1 y1 x2 y2 x3 y3 c' :
  Canvas.CubicTo c x1 y1 x2 y2 x3 y3 = Ok c' → paths_on_grid c → paths_on_grid c'.
Proof.
  unfold Canvas.CubicTo. intros Hm Hg. unbind.
  destruct (Canvas.TransformPoint a x1 y1), (Canvas.TransformPoint a x2 y2),
    (Canvas.TransformPoint a x3 y3).
  unbind. destruct a1; unbind. subst c'. apply cubicPoints_grid.
  destruct (negb (hasCurrent c)); [now apply MoveTo_grid in Ha|]. unbind. now subst.
Qed.

Lemma ClosePath_grid c c' :
  Canvas.ClosePath c = Ok c' → paths_on_grid c → paths_on_grid c'.
Proof.
  unfold Canvas.ClosePath. destruct (hasCurrent c); intros Hm [Hs Hf]; unbind; subst.
  - split; simpl; now apply Add1_on_grid.
  - now split.
Qed.

Lemma NewSubPath_grid c c' :
  Canvas.NewSubPath c = Ok c' → paths_on_grid c → paths_on_grid c'.
Proof.
  unfold Canvas.NewSubPath. intros Hm [Hs Hf]. unbind. subst c'.
  destruct (hasCurrent c); unbind; subst; split; simpl; auto using Add1_on_grid.
Qed.

Lemma through_grid c f h h' :
  (∀ cv cv', f cv = Ok cv' → paths_on_grid cv → paths_on_grid cv') →
  grid_at c h → through c f h = Ok h' → grid_at c h'.
Proof.
  intros Hf Hg Ht. unfold through in Ht. unbind. apply deref_Ok in Ha. subst h'.
  intros cv. rewrite lookup_insert_eq. intros [= <-]. eapply Hf; eauto.
Qed.

Lemma Push_grid c h h' : grid_at c h → Push c h = Ok h' → grid_at c h'.
Proof.
  unfold Push. intros Hg Hp. unbind. apply deref_Ok in Ha. subst h'.
  intros cv. rewrite lookup_insert_eq. intros [= <-]. exact (Hg _ Ha).
Qed.

Lemma Pop_grid c h h' : grid_at c h → Pop c h = Ok h' → grid_at c h'.
Proof.
  unfold Pop. intros Hg Hp. unbind. apply deref_Ok in Ha. subst h'.
  intros cv. rewrite lookup_insert_eq. intros [= <-]. exact (Hg _ Ha).
Qed.

Lemma call_grid c k h h' : grid_at c h → call c k h = Ok h' → grid_at c h'.
Proof.
  intros Hg. destruct k; simpl;
    try (apply through_grid; [|exact Hg]; intros cv cv' [= <-] Hcv; exact Hcv).
  - apply through_grid; [|exact Hg]. intros cv cv' [= <-].
    unfold Canvas.SetFillStyle. now destruct pattern.
  - apply through_grid; [|exact Hg]. intros ? ?. apply MoveTo_grid.
  - apply through_grid; [|exact Hg]. intros ? ?. apply LineTo_grid.
  - apply through_grid; [|exact Hg]. intros ? ?. apply QuadraticTo_grid.
  - apply through_grid; [|exact Hg]. intros ? ?. apply CubicTo_grid.
  - apply through_grid; [|exact Hg]. intros ? ?. apply ClosePath_grid.
  - apply through_grid; [|exact Hg]. intros cv cv' [= <-] _. now split.
  - apply through_grid; [|exact Hg]. intros ? ?. apply NewSubPath_grid.
  - apply through_grid; [|exact Hg]. intros cv cv' Hm.
    match type of Hm with context [deref ?o] => destruct o as [m|]; [|discriminate Hm] end.
    apply Ok_inj in Hm as <-. unfold Canvas.SetMask. now destruct (negb _).
  - apply through_grid; [|exact Hg]. intros cv cv' [= <-].
    unfold Canvas.InvertMask. now destruct (mask cv).
  - now apply Push_grid.
  - now apply Pop_grid.
Qed.

(** C10: [Vector.Fixed] yields whole pixels only; a new canvas has both path
    programs on the pixel grid; and whatever is called on a canvas, path
    building, styling, transforms, clips, [Push] or [Pop], every coordinate
    in its stroke and fill programs is a whole pixel afterwards if it was
    before. *)
Theorem path_programs_stay_on_pixel_grid :
  (∀ v, whole_pixel (PX (Vector.Fixed v)) = true ∧ whole_pixel (PY (Vector.Fixed v)) = true)
  ∧ (∀ r img, paths_on_grid (NewCanvasForRGBA r img))
  ∧ (∀ (c : ptr) (script : list Call) (h h' : heap) (cv cv' : Canvas),
       h !! c = Some cv → paths_on_grid cv →
       run c script h = Ok h' → h' !! c = Some cv' →
       paths_on_grid cv').
Proof.
  split; [|split].
  - intros v. split; apply fixed_I_whole.
  - intros r img. now split.
  - intros c script. induction script as [|k rest IH]; simpl; intros h h' cv cv' Hc Hg Hr Hc'.
    + injection Hr as <-. rewrite Hc in Hc'. now injection Hc' as <-.
    + unbind.
      assert (grid_at c a) as Hga.
      { eapply call_grid; [|exact Ha]. intros cv0. rewrite Hc. now intros [= <-]. }
      destruct (a !! c) as [cva|] eqn:Eca.
      * exact (IH a h' cva cv' Eca (Hga _ Eca) Hr Hc').
      * clear IH Hga. destruct rest as [|k' rest']; simpl in Hr.
        -- injection Hr as <-. congruence.
        -- unbind. destruct k'; simpl in Ha0; unfold through, Push, Pop in Ha0;
             rewrite Eca in Ha0; discriminate.
Qed.
End Grid.

Lemma path_programs_stay_on_pixel_grid_witness :
  ∃ h' cv',
    @run sample 1%positive
      [MoveTo 0.5 0.75; LineTo 10.25 3; DoPush; DoScale 2 2; QuadraticTo 5 5 7.5 1;
       CubicTo 1 1 2 2 3.5 3.5; DoPop; ClosePath] fresh_heap = Ok h'
    ∧ h' !! 1%positive = Some cv'
    ∧ paths_on_grid cv'.
Proof.
  eexists _, _.
  assert (@run sample 1%positive
            [MoveTo 0.5 0.75; LineTo 10.25 3; DoPush; DoScale 2 2; QuadraticTo 5 5 7.5 1;
             CubicTo 1 1 2 2 3.5 3.5; DoPop; ClosePath] fresh_heap = Ok _) as Hr
    by (vm_compute; reflexivity).
  split; [exact Hr|]. split; [vm_compute; reflexivity|].
  refine (proj2 (proj2 (@path_programs_stay_on_pixel_grid sample)) 1%positive _
            fresh_heap _ (NewCanvas 2%positive 2 2) _ eq_refl _ Hr _).
  - now split.
  - vm_compute. reflexivity.
Defined.

(** ** binary64: the cases that are exact *)

Lemma fexp_normal (e : Z) : - 1021 <= e → fexp prec emax e = e - 53.
Proof. unfold fexp, emin, prec, emax. lia. Qed.

Lemma bounded_spec (m : positive) (e : Z) :
  bounded prec emax m e = true ↔
  fexp prec emax (Z.pos (digits2_pos m) + e) = e ∧ e <= 971.
Proof.
  unfold bounded, canonical_mantissa. rewrite andb_true_iff, Z.eqb_eq, Z.leb_le.
  reflexivity.
Qed.

Lemma iter_pos_iter {A} (f : A → A) (n : positive) :
  ∀ x, SpecFloat.iter_pos f n x = Pos.iter f x n.
Proof.
  induction n as [n IH|n IH|]; intros x; simpl.
  - rewrite !IH. now rewrite <- !Pos.iter_swap.
  - now rewrite !IH.
  - reflexivity.
Qed.

Lemma digits2_shift (k m : positive) :
  Z.pos (digits2_pos (Pos.iter xO m k)) = Z.pos (digits2_pos m) + Z.pos k.
Proof.
  induction k as [|k IH] using Pos.peano_ind.
  - simpl. lia.
  - rewrite Pos.iter_succ. simpl digits2_pos. lia.
Qed.

Lemma value_shift (k m : positive) :
  Z.pos (Pos.iter xO m k) = Z.pos m * 2 ^ Z.pos k.
Proof.
  induction k as [|k IH] using Pos.peano_ind.
  - simpl. lia.
  - rewrite Pos.iter_succ, Pos2Z.inj_xO, IH, Pos2Z.inj_succ, Z.pow_succ_r by lia. lia.
Qed.

Lemma shr_shift (k m : positive) :
  SpecFloat.iter_pos shr_1 k {| shr_m := Z.pos (Pos.iter xO m k); shr_r := false; shr_s := false |}
  = {| shr_m := Z.pos m; shr_r := false; shr_s := false |}.
Proof.
  rewrite iter_pos_iter. induction k as [|k IH] using Pos.peano_ind.
  - reflexivity.
  - rewrite Pos.iter_succ_r, Pos.iter_succ. exact IH.
Qed.

(** The second half of [binary_round_aux], on a canonical mantissa. *)
Lemma round_tail (s : bool) (m : positive) (e : Z) :
  bounded prec emax m e = true →
  (let '(mrs, e') := shr_fexp prec emax (Z.pos m) e loc_Exact in
   match shr_m mrs with
   | 0 => S754_zero s
   | Z.pos m' => if e' <=? emax - prec then S754_finite s m' e' else S754_infinity s
   | Z.neg _ => S754_nan
   end) = S754_finite s m e.
Proof.
  intros Hb. apply bounded_spec in Hb as [Hc He].
  unfold shr_fexp. cbn [Zdigits2 shr_record_of_loc].
  rewrite Hc, Z.sub_diag. cbn [shr shr_m].
  change (emax - prec) with 971. apply Z.leb_le in He. now rewrite He.
Qed.

(** Rounding a mantissa that is canonical already changes nothing. *)
Lemma round_canonical (s : bool) (m : positive) (e : Z) :
  bounded prec emax m e = true →
  binary_round_aux prec emax s (Z.pos m) e loc_Exact = S754_finite s m e.
Proof.
  intros Hb. pose proof Hb as Hb'. apply bounded_spec in Hb as [Hc He].
  unfold binary_round_aux, shr_fexp at 1. cbn [Zdigits2 shr_record_of_loc].
  rewrite Hc, Z.sub_diag. cbn [shr shr_m loc_of_shr_record round_nearest_even].
  exact (round_tail s m e Hb').
Qed.

(** Rounding a canonical mantissa followed by [k] zero bits drops the bits. *)
Lemma round_shifted (s : bool) (m k : positive) (e : Z) :
  bounded prec emax m (e + Z.pos k) = true →
  binary_round_aux prec emax s (Z.pos (Pos.iter xO m k)) e loc_Exact
  = S754_finite s m (e + Z.pos k).
Proof.
  intros Hb. pose proof Hb as Hb'. apply bounded_spec in Hb as [Hc He].
  unfold binary_round_aux, shr_fexp at 1. cbn [Zdigits2 shr_record_of_loc].
  rewrite digits2_shift.
  replace (Z.pos (digits2_pos m) + Z.pos k + e) with (Z.pos (digits2_pos m) + (e + Z.pos k))
    by lia.
  rewrite Hc. replace (e + Z.pos k - e) with (Z.pos k) by lia.
  cbn [shr]. rewrite shr_shift. cbn [shr_m loc_of_shr_record round_nearest_even].
  exact (round_tail s m (e + Z.pos k) Hb').
Qed.

(** [binary_round] of a canonical mantissa that was shifted left. *)
Lemma binary_round_shifted (s : bool) (m k : positive) (e : Z) :
  bounded prec emax m (e + Z.pos k) = true →
  binary_round prec emax s (Pos.iter xO m k) e = S754_finite s m (e + Z.pos k).
Proof.
  intros Hb. pose proof Hb as Hb'. apply bounded_spec in Hb as [Hc He].
  unfold binary_round, shl_align. rewrite digits2_shift.
  replace (Z.pos (digits2_pos m) + Z.pos k + e) with (Z.pos (digits2_pos m) + (e + Z.pos k))
    by lia.
  rewrite Hc. replace (e + Z.pos k - e) with (Z.pos k) by lia.
  exact (round_shifted s m k e Hb').
Qed.

(** [binary_round] of a mantissa that is canonical as it stands. *)
Lemma binary_round_canonical (s : bool) (m : positive) (e : Z) :
  bounded prec emax m e = true →
  binary_round prec emax s m e = S754_finite s m e.
Proof.
  intros Hb. pose proof Hb as Hb'. apply bounded_spec in Hb as [Hc He].
  unfold binary_round, shl_align. rewrite Hc, Z.sub_diag.
  exact (round_canonical s m e Hb').
Qed.

(** [binary_round] of a mantissa that has to be shifted left to be canonical. *)
Lemma binary_round_short (s : bool) (m k : positive) (e : Z) :
  bounded prec emax (Pos.iter xO m k) (e - Z.pos k) = true →
  binary_round prec emax s m e = S754_finite s (Pos.iter xO m k) (e - Z.pos k).
Proof.
  intros Hb. pose proof Hb as Hb'. apply bounded_spec in Hb as [Hc He].
  rewrite digits2_shift in Hc.
  replace (Z.pos (digits2_pos m) + Z.pos k + (e - Z.pos k))
    with (Z.pos (digits2_pos m) + e) in Hc by lia.
  unfold binary_round, shl_align. rewrite Hc.
  replace (e - Z.pos k - e) with (Z.neg k) by lia.
  exact (round_canonical s _ _ Hb').
Qed.

Lemma digits2_bounds (p : positive) :
  2 ^ (Z.pos (digits2_pos p) - 1) <= Z.pos p < 2 ^ Z.pos (digits2_pos p).
Proof.
  induction p as [p IH|p IH|]; simpl digits2_pos.
  - rewrite Pos2Z.inj_succ, Z.pow_succ_r by lia.
    replace (Z.succ (Z.pos (digits2_pos p)) - 1) with (Z.succ (Z.pos (digits2_pos p) - 1))
      by lia.
    rewrite Z.pow_succ_r by lia. lia.
  - rewrite Pos2Z.inj_succ, Z.pow_succ_r by lia.
    replace (Z.succ (Z.pos (digits2_pos p)) - 1) with (Z.succ (Z.pos (digits2_pos p) - 1))
      by lia.
    rewrite Z.pow_succ_r by lia. lia.
  - simpl. lia.
Qed.

Lemma digits2_le (p : positive) (n : Z) :
  0 <= n → Z.pos p < 2 ^ n → Z.pos (digits2_pos p) <= n.
Proof.
  intros Hn Hp. destruct (Z.le_gt_cases (Z.pos (digits2_pos p)) n) as [|Hgt]; [assumption|].
  pose proof (digits2_bounds p) as [Hlo _].
  assert (2 ^ n <= 2 ^ (Z.pos (digits2_pos p) - 1)) by (apply Z.pow_le_mono_r; lia).
  lia.
Qed.

Lemma digits2_ge (p : positive) (n : Z) :
  0 <= n → 2 ^ n <= Z.pos p → n < Z.pos (digits2_pos p).
Proof.
  intros Hn Hp. destruct (Z.lt_ge_cases n (Z.pos (digits2_pos p))) as [|Hge]; [assumption|].
  pose proof (digits2_bounds p) as [_ Hhi].
  assert (2 ^ Z.pos (digits2_pos p) <= 2 ^ n) by (apply Z.pow_le_mono_r; lia).
  lia.
Qed.

(** What [is_finite] says about the value. *)
Lemma is_finite_cases (x : float) :
  is_finite x = true →
  Zero x ∨ ∃ s m e, Prim2SF x = S754_finite s m e ∧ bounded prec emax m e = true.
Proof.
  pose proof (Prim2SF_valid x) as Hv.
  unfold is_finite, is_nan, is_infinity. rewrite !FloatAxioms.eqb_spec, abs_spec.
  change (Prim2SF infinity) with (S754_infinity false).
  destruct (Prim2SF x) as [s|s| |s m e] eqn:E; simpl.
  - intros _. left. now exists s.
  - destruct s; discriminate.
  - discriminate.
  - intros _. right. now exists s, m, e.
Qed.

Lemma SFeqb_refl_finite (s : bool) (m : positive) (e : Z) :
  SFeqb (S754_finite s m e) (S754_finite s m e) = true.
Proof.
  unfold SFeqb, SFcompare. rewrite Z.compare_refl, Pos.compare_cont_refl.
  now destruct s.
Qed.

Lemma Zero_add (a b : float) : Zero a → Zero b → Zero (a + b).
Proof.
  intros [sa Ha] [sb Hb]. unfold Zero. rewrite add_spec, Ha, Hb.
  destruct sa, sb; simpl; eauto.
Qed.

Lemma Zero_mul_l (z x : float) : Zero z → is_finite x = true → Zero (z * x).
Proof.
  intros [sz Hz] Hx. unfold Zero. rewrite mul_spec, Hz.
  destruct (is_finite_cases x Hx) as [[s ->]|(s & m & e & -> & _)]; simpl; eauto.
Qed.

Lemma stands_for_refl (x : float) : stands_for x x.
Proof.
  unfold stands_for, Zero. destruct (Prim2SF x) eqn:E; [left; eauto| right ..];
    (split; [intros [? [=]]|reflexivity]).
Qed.

Lemma stands_add_r (x r z : float) :
  is_finite x = true → stands_for x r → Zero z → stands_for x (r + z).
Proof.
  intros Hx [[Hzx Hzr]|[Hnz ->]] Hz.
  - left. split; [exact Hzx | now apply Zero_add].
  - right. split; [exact Hnz|]. apply Prim2SF_inj. rewrite add_spec.
    destruct Hz as [sz ->].
    destruct (is_finite_cases x Hx) as [Hzx|(s & m & e & -> & _)]; [contradiction|].
    reflexivity.
Qed.

Lemma stands_add_l (x r z : float) :
  is_finite x = true → stands_for x r → Zero z → stands_for x (z + r).
Proof.
  intros Hx [[Hzx Hzr]|[Hnz ->]] Hz.
  - left. split; [exact Hzx | now apply Zero_add].
  - right. split; [exact Hnz|]. apply Prim2SF_inj. rewrite add_spec.
    destruct Hz as [sz ->].
    destruct (is_finite_cases x Hx) as [Hzx|(s & m & e & -> & _)]; [contradiction|].
    reflexivity.
Qed.

(** Go's [==] holds between a float and what stands for it. *)
Lemma stands_for_eqb (x r : float) :
  is_finite x = true → stands_for x r → (r =? x)%float = true.
Proof.
  intros Hx Hs. rewrite FloatAxioms.eqb_spec.
  destruct Hs as [[[sx Hzx] [sr Hzr]]|[Hnz ->]].
  - now rewrite Hzx, Hzr.
  - destruct (is_finite_cases x Hx) as [Hzx|(s & m & e & -> & _)]; [contradiction|].
    apply SFeqb_refl_finite.
Qed.

(** Multiplying by one is exact. *)
Lemma mul_1_l (x : float) : is_finite x = true → (1 * x)%float = x.
Proof.
  intros Hx. apply Prim2SF_inj. rewrite mul_spec.
  change (Prim2SF 1) with (S754_finite false 4503599627370496 (-52)).
  destruct (is_finite_cases x Hx) as [[s ->]|(s & m & e & -> & Hb)].
  - reflexivity.
  - unfold SF64mul, SFmul. cbn [xorb].
    change (4503599627370496 * m)%positive with (Pos.iter xO m 52).
    replace (S754_finite s m e) with (S754_finite s m (-52 + e + 52)) by (f_equal; lia).
    apply round_shifted. now replace (-52 + e + 52) with e by lia.
Qed.

Lemma mul_1_r (x : float) : is_finite x = true → (x * 1)%float = x.
Proof.
  intros Hx. apply Prim2SF_inj. rewrite mul_spec.
  change (Prim2SF 1) with (S754_finite false 4503599627370496 (-52)).
  destruct (is_finite_cases x Hx) as [[s ->]|(s & m & e & -> & Hb)].
  - now destruct s.
  - unfold SF64mul, SFmul. rewrite xorb_false_r, Pos.mul_comm.
    change (4503599627370496 * m)%positive with (Pos.iter xO m 52).
    replace (S754_finite s m e) with (S754_finite s m (e + -52 + 52)) by (f_equal; lia).
    apply round_shifted. now replace (e + -52 + 52) with e by lia.
Qed.

(** Dividing a finite float other than zero by itself gives one. *)
Lemma div_self (x : float) (s : bool) (m : positive) (e : Z) :
  Prim2SF x = S754_finite s m e → (x / x)%float = 1%float.
Proof.
  intros Hx. apply Prim2SF_inj. rewrite div_spec, Hx.
  change (Prim2SF 1) with (S754_finite false 4503599627370496 (-52)).
  unfold SF64div, SFdiv, SFdiv_core_binary.
  replace (Zdigits2 (Z.pos m) + e - (Zdigits2 (Z.pos m) + e)) with 0 by lia.
  rewrite Z.sub_diag.
  change (Z.min (fexp prec emax 0) 0) with (-53). change (0 - -53) with 53.
  cbv iota.
  rewrite (surjective_pairing (Z.div_eucl _ _)).
  change (fst (Z.div_eucl ?a ?b)) with (a / b).
  change (snd (Z.div_eucl ?a ?b)) with (a mod b).
  rewrite Z.shiftl_mul_pow2 by lia.
  rewrite (Z.mul_comm (Z.pos m)), Z.div_mul, Z.mod_mul by lia.
  assert (new_location (Z.pos m) 0 = loc_Exact) as ->.
  { unfold new_location. now destruct (Z.even (Z.pos m)). }
  now destruct s.
Qed.


Lemma exact_float_bounded (p k : positive) :
  Z.pos k = 53 - Z.pos (digits2_pos p) →
  bounded prec emax (Pos.iter xO p k) (- Z.pos k) = true.
Proof.
  intros Hk. apply bounded_spec. rewrite digits2_shift.
  unfold fexp, emin, prec, emax. lia.
Qed.

Lemma float64_of_int_exact (p : positive) :
  Z.pos p < 2 ^ 53 → Prim2SF (float64_of_int (Z.pos p)) = exact_float p.
Proof.
  intros Hp. unfold float64_of_int. cbn [Z.leb Z.compare].
  rewrite of_uint63_spec, Uint63.of_Z_spec.
  rewrite Z.mod_small
    by (change Uint63Axioms.wB with (2 ^ 63); change (2 ^ 53) with 9007199254740992 in Hp;
        change (2 ^ 63) with 9223372036854775808; lia).
  cbn [binary_normalize]. unfold exact_float.
  pose proof (digits2_le p 53 ltac:(lia) Hp) as Hd.
  destruct (53 - Z.pos (digits2_pos p)) as [|k|k] eqn:Ek; [|  |lia].
  - apply binary_round_canonical. apply bounded_spec.
    unfold fexp, emin, prec, emax. lia.
  - rewrite (binary_round_short false p k 0); [reflexivity|].
    apply (exact_float_bounded p k). lia.
Qed.

(** Taking one off the float of an integer in 4 .. 2^45 gives the float of
    the integer before it. *)
Lemma exact_float_pred (p : positive) :
  4 <= Z.pos p <= 2 ^ 45 →
  SF64sub (exact_float p) (S754_finite false 4503599627370496 (-52))
  = exact_float (Pos.pred p).
Proof.
  intros Hp. change (2 ^ 45) with 35184372088832 in Hp.
  pose proof (digits2_le p 46 ltac:(lia)
                ltac:(change (2 ^ 46) with 70368744177664; lia)) as Hd.
  pose proof (digits2_ge p 2 ltac:(lia) ltac:(change (2 ^ 2) with 4; lia)) as Hd'.
  assert (Z.pos (Pos.pred p) = Z.pos p - 1) as Hq by lia.
  pose proof (digits2_le (Pos.pred p) 46 ltac:(lia)
                ltac:(change (2 ^ 46) with 70368744177664; lia)) as Hdq.
  pose proof (digits2_ge (Pos.pred p) 1 ltac:(lia) ltac:(change (2 ^ 1) with 2; lia))
    as Hdq'.
  unfold exact_float.
  destruct (53 - Z.pos (digits2_pos p)) as [|k|k] eqn:Ek; [lia| |lia].
  destruct (53 - Z.pos (digits2_pos (Pos.pred p))) as [|kq|kq] eqn:Ekq; [lia| |lia].
  unfold SF64sub, SFsub, shl_align.
  replace (Z.min (- Z.pos k) (-52)) with (-52) by lia.
  destruct (-52 - - Z.pos k) as [|j|j] eqn:Ej; [lia|lia|].
  change (-52 - -52) with 0. cbn [fst cond_Zopp].
  destruct (Z.pos 52 - Z.pos kq) as [|jq|jq] eqn:Ejq; [lia| |lia].
  assert (Z.pos (Pos.iter xO (Pos.iter xO p k) j) - 4503599627370496
          = Z.pos (Pos.iter xO (Pos.iter xO (Pos.pred p) kq) jq)) as ->.
  { rewrite !value_shift, Hq, <- !Z.mul_assoc, <- !Z.pow_add_r by lia.
    replace (Z.pos k + Z.pos j) with 52 by lia.
    replace (Z.pos kq + Z.pos jq) with 52 by lia.
    change (2 ^ 52) with 4503599627370496. lia. }
  cbn [binary_normalize].
  rewrite (binary_round_shifted false (Pos.iter xO (Pos.pred p) kq) jq (-52)).
  - f_equal. lia.
  - replace (-52 + Z.pos jq) with (- Z.pos kq) by lia.
    apply exact_float_bounded. lia.
Qed.

(** [float64(n) - 1] is [float64(n - 1)], a finite float other than zero. *)
Lemma float64_of_int_pred (n : Z) :
  4 <= n <= 2 ^ 45 →
  (float64_of_int n - 1)%float = float64_of_int (n - 1)
  ∧ ∃ m e, Prim2SF (float64_of_int (n - 1)) = S754_finite false m e.
Proof.
  intros Hn. destruct n as [|p|p]; try lia.
  assert (Z.pos p - 1 = Z.pos (Pos.pred p)) as -> by lia.
  change (2 ^ 45) with 35184372088832 in Hn.
  assert (Prim2SF (float64_of_int (Z.pos p) - 1) = exact_float (Pos.pred p)) as Hsub.
  { rewrite sub_spec, float64_of_int_exact
      by (change (2 ^ 53) with 9007199254740992; lia).
    apply exact_float_pred. change (2 ^ 45) with 35184372088832. lia. }
  assert (Prim2SF (float64_of_int (Z.pos (Pos.pred p))) = exact_float (Pos.pred p)) as Hpred.
  { apply float64_of_int_exact. change (2 ^ 53) with 9007199254740992. lia. }
  split.
  - apply Prim2SF_inj. now rewrite Hsub, Hpred.
  - rewrite Hpred. unfold exact_float. destruct (53 - _); eauto.
Qed.

Lemma is_finite_SF (x : float) :
  is_finite x = match Prim2SF x with
                | S754_zero _ | S754_finite _ _ _ => true
                | _ => false
                end.
Proof.
  unfold is_finite, is_nan, is_infinity. rewrite !FloatAxioms.eqb_spec, abs_spec.
  change (Prim2SF infinity) with (S754_infinity false).
  destruct (Prim2SF x) as [s|s| |s m e]; simpl.
  - reflexivity.
  - now destruct s.
  - reflexivity.
  - now rewrite SFeqb_refl_finite.
Qed.

Lemma Zero_0 : Zero 0.
Proof. now exists false. Qed.


Lemma Zero_mul_r (x z : float) : is_finite x = true → Zero z → Zero (x * z).
Proof.
  intros Hx [sz Hz]. unfold Zero. rewrite mul_spec, Hz.
  destruct (is_finite_cases x Hx) as [[s ->]|(s & m & e & -> & _)]; simpl; eauto.
Qed.

Lemma opp_finite (x : float) : is_finite x = true → is_finite (- x) = true.
Proof. rewrite !is_finite_SF, opp_spec. now destruct (Prim2SF x). Qed.


(** A zero added to a float that is not a zero leaves that float. *)
Lemma Zero_add_l (z y : float) (s : bool) (m : positive) (e : Z) :
  Zero z → Prim2SF y = S754_finite s m e → (z + y)%float = y.
Proof.
  intros [sz Hz] Hy. apply Prim2SF_inj. now rewrite add_spec, Hz, Hy.
Qed.

(** A zero added to the positive zero gives the positive zero. *)
Lemma Zero_add_0 (z : float) : Zero z → (z + 0)%float = 0%float.
Proof.
  intros [sz Hz]. apply Prim2SF_inj. rewrite add_spec, Hz. now destruct sz.
Qed.

(** ** Transforms *)



(** Multiplying the other way round, translation first, would turn the
    translation with the rotation: the point (0,0) would go to about (0,10). *)
Lemma postmultiplied_differs :
  let '(x, y) :=
    Matrix.TransformPoint
      (Matrix.Multiply (Matrix.Translate Identity 10 0) (@Rotate sample pi_2)) 0 0 in
  (x <? 0.5)%float = true ∧ y = 10%float.
Proof. vm_compute. split; reflexivity. Qed.

(** ** Bezier flattening *)

Lemma fillPoints_length (pt : Z → Vector) (k : nat) :
  ∀ i, length (fillPoints pt k i) = k.
Proof. induction k as [|k IH]; intros i; simpl; [reflexivity|]. now rewrite IH. Qed.

Lemma fillPoints_lookup (pt : Z → Vector) (k : nat) :
  ∀ (i : Z) (j : nat), (j < k)%nat → fillPoints pt k i !! j = Some (pt (i + Z.of_nat j)).
Proof.
  induction k as [|k IH]; intros i j Hj; [lia|].
  destruct j as [|j]; simpl.
  - f_equal. f_equal. lia.
  - rewrite IH by lia. f_equal. f_equal. lia.
Qed.

Lemma pointCount_round (l : float) : pointCount l = Z.max 4 (int_of_float64 (l + 0.5)).
Proof. unfold pointCount. destruct (Z.ltb_spec (int_of_float64 (l + 0.5)) 4); lia. Qed.

Lemma parameter_first (n : Z) : 4 <= n <= 2 ^ 45 → parameter n 0 = 0%float.
Proof.
  intros Hn. destruct (float64_of_int_pred n Hn) as (_ & m & e & Hd).
  unfold parameter. apply Prim2SF_inj. now rewrite div_spec, Hd.
Qed.

Lemma parameter_last (n : Z) : 4 <= n <= 2 ^ 45 → parameter n (n - 1) = 1%float.
Proof.
  intros Hn. destruct (float64_of_int_pred n Hn) as (_ & m & e & Hd).
  unfold parameter. exact (div_self _ _ _ _ Hd).
Qed.

(** The weights at the two ends of a curve: one for a control point, the
    positive zero for the others; what comes out is the control point. *)
Section Ends.
Variables x a b c : float.
Hypothesis Hx : is_finite x = true.
Hypothesis Ha : is_finite a = true.
Hypothesis Hb : is_finite b = true.
Hypothesis Hc : is_finite c = true.

Lemma weight_0 (y : float) : is_finite y = true → Zero (0 * y).
Proof. intros Hy. apply Zero_mul_l; [exact Zero_0 | exact Hy]. Qed.

Lemma weight_1 : stands_for x (1 * x).
Proof. rewrite (mul_1_l x Hx). apply stands_for_refl. Qed.

Lemma first_of_three : (1 * x + 0 * a + 0 * b =? x)%float = true.
Proof.
  apply stands_for_eqb; [exact Hx|].
  repeat (apply stands_add_r; [exact Hx | | now apply weight_0]). exact weight_1.
Qed.

Lemma last_of_three : (0 * a + 0 * b + 1 * x =? x)%float = true.
Proof.
  apply stands_for_eqb; [exact Hx|].
  apply stands_add_l; [exact Hx | exact weight_1 |].
  apply Zero_add; now apply weight_0.
Qed.

Lemma first_of_four : (1 * x + 0 * a + 0 * b + 0 * c =? x)%float = true.
Proof.
  apply stands_for_eqb; [exact Hx|].
  repeat (apply stands_add_r; [exact Hx | | now apply weight_0]). exact weight_1.
Qed.

Lemma last_of_four : (0 * a + 0 * b + 0 * c + 1 * x =? x)%float = true.
Proof.
  apply stands_for_eqb; [exact Hx|].
  apply stands_add_l; [exact Hx | exact weight_1 |].
  repeat apply Zero_add; now apply weight_0.
Qed.
End Ends.

(** C9: when the point count [n], the sum of the control polygon's segment
    lengths plus a half, truncated, and no less than 4, is one the run time
    can allocate, flattening returns exactly [n] points, and the point of
    index [i] is the curve at the parameter [i / (n - 1)]; with finite control
    points the first point is equal to the start of the curve and the last
    to its end ([==] of Go, which takes the two zeros for equal). *)
Theorem flattening_points `{Externals} :
  (∀ x0 y0 x1 y1 x2 y2,
     let n := pointCount (Hypot (x1 - x0) (y1 - y0) + Hypot (x2 - x1) (y2 - y1)) in
     n <= 2 ^ 45 →
     ∃ points,
       CreateQuadraticBezier x0 y0 x1 y1 x2 y2 = Ok points
       ∧ n = Z.max 4 (int_of_float64
                        (Hypot (x1 - x0) (y1 - y0) + Hypot (x2 - x1) (y2 - y1) + 0.5))
       ∧ Z.of_nat (length points) = n
       ∧ (∀ i, 0 <= i < n →
            points !! Z.to_nat i
            = Some (quadraticAt x0 y0 x1 y1 x2 y2 (parameter n i)))
       ∧ (is_finite x0 = true → is_finite y0 = true →
          is_finite x1 = true → is_finite y1 = true →
          is_finite x2 = true → is_finite y2 = true →
          ∃ first last,
            points !! 0%nat = Some first ∧ points !! Z.to_nat (n - 1) = Some last
            ∧ (X first =? x0)%float = true ∧ (Y first =? y0)%float = true
            ∧ (X last =? x2)%float = true ∧ (Y last =? y2)%float = true))
  ∧ (∀ x0 y0 x1 y1 x2 y2 x3 y3,
       let n := pointCount (Hypot (x1 - x0) (y1 - y0) + Hypot (x2 - x1) (y2 - y1)
                            + Hypot (x3 - x2) (y3 - y2)) in
       n <= 2 ^ 45 →
       ∃ points,
         CreateCubicBezier x0 y0 x1 y1 x2 y2 x3 y3 = Ok points
         ∧ n = Z.max 4 (int_of_float64
                          (Hypot (x1 - x0) (y1 - y0) + Hypot (x2 - x1) (y2 - y1)
                           + Hypot (x3 - x2) (y3 - y2) + 0.5))
         ∧ Z.of_nat (length points) = n
         ∧ (∀ i, 0 <= i < n →
              points !! Z.to_nat i
              = Some (cubicAt x0 y0 x1 y1 x2 y2 x3 y3 (parameter n i)))
         ∧ (is_finite x0 = true → is_finite y0 = true →
            is_finite x1 = true → is_finite y1 = true →
            is_finite x2 = true → is_finite y2 = true →
            is_finite x3 = true → is_finite y3 = true →
            ∃ first last,
              points !! 0%nat = Some first ∧ points !! Z.to_nat (n - 1) = Some last
              ∧ (X first =? x0)%float = true ∧ (Y first =? y0)%float = true
              ∧ (X last =? x3)%float = true ∧ (Y last =? y3)%float = true)).
Proof.
  split.
  - intros x0 y0 x1 y1 x2 y2 n Hn.
    assert (4 <= n <= 2 ^ 45) as Hn4
      by (split; [unfold n; rewrite pointCount_round; lia | exact Hn]).
    destruct (float64_of_int_pred n Hn4) as [Hd _].
    unfold CreateQuadraticBezier. fold n. unfold make_len.
    destruct (Z.ltb_spec (2 ^ 45) n) as [Hbig|_]; [lia|]. simpl.
    eexists. split; [reflexivity|].
    split; [apply pointCount_round|].
    split; [rewrite fillPoints_length; lia|].
    assert (∀ i, 0 <= i < n →
              fillPoints (quadraticPoint (float64_of_int n - 1) x0 y0 x1 y1 x2 y2)
                (Z.to_nat n) 0 !! Z.to_nat i
              = Some (quadraticAt x0 y0 x1 y1 x2 y2 (parameter n i))) as Hith.
    { intros i Hi. rewrite fillPoints_lookup by lia.
      rewrite Z2Nat.id, Z.add_0_l by lia. now rewrite Hd. }
    split; [exact Hith|].
    intros Hx0 Hy0 Hx1 Hy1 Hx2 Hy2. eexists _, _.
    split; [exact (Hith 0 ltac:(lia))|].
    split; [exact (Hith (n - 1) ltac:(lia))|].
    rewrite (parameter_first n Hn4), (parameter_last n Hn4).
    repeat split; [apply first_of_three | apply first_of_three
                   | apply last_of_three | apply last_of_three]; assumption.
  - intros x0 y0 x1 y1 x2 y2 x3 y3 n Hn.
    assert (4 <= n <= 2 ^ 45) as Hn4
      by (split; [unfold n; rewrite pointCount_round; lia | exact Hn]).
    destruct (float64_of_int_pred n Hn4) as [Hd _].
    unfold CreateCubicBezier. fold n. unfold make_len.
    destruct (Z.ltb_spec (2 ^ 45) n) as [Hbig|_]; [lia|]. simpl.
    eexists. split; [reflexivity|].
    split; [apply pointCount_round|].
    split; [rewrite fillPoints_length; lia|].
    assert (∀ i, 0 <= i < n →
              fillPoints (cubicPoint (float64_of_int n - 1) x0 y0 x1 y1 x2 y2 x3 y3)
                (Z.to_nat n) 0 !! Z.to_nat i
              = Some (cubicAt x0 y0 x1 y1 x2 y2 x3 y3 (parameter n i))) as Hith.
    { intros i Hi. rewrite fillPoints_lookup by lia.
      rewrite Z2Nat.id, Z.add_0_l by lia. now rewrite Hd. }
    split; [exact Hith|].
    intros Hx0 Hy0 Hx1 Hy1 Hx2 Hy2 Hx3 Hy3. eexists _, _.
    split; [exact (Hith 0 ltac:(lia))|].
    split; [exact (Hith (n - 1) ltac:(lia))|].
    rewrite (parameter_first n Hn4), (parameter_last n Hn4).
    repeat split; [apply first_of_four | apply first_of_four
                   | apply last_of_four | apply last_of_four]; assumption.
Qed.

Lemma flattening_points_witness :
  (∃ points first last,
     @CreateQuadraticBezier sample 0 0 5 5 10 0 = Ok points
     ∧ Z.of_nat (length points) = 14
     ∧ points !! 0%nat = Some first ∧ points !! 13%nat = Some last
     ∧ (X first =? 0)%float = true ∧ (Y first =? 0)%float = true
     ∧ (X last =? 10)%float = true ∧ (Y last =? 0)%float = true)
  ∧ (∃ points first last,
       @CreateCubicBezier sample 0 0 0 3 4 3 4 0 = Ok points
       ∧ Z.of_nat (length points) = 10
       ∧ points !! 0%nat = Some first ∧ points !! 9%nat = Some last
       ∧ (X first =? 0)%float = true ∧ (Y first =? 0)%float = true
       ∧ (X last =? 4)%float = true ∧ (Y last =? 0)%float = true).
Proof.
  split.
  - destruct (proj1 (@flattening_points sample) 0 0 5 5 10 0)%float
      as (points & Hc & _ & Hlen & _ & Hends); [now vm_compute|].
    destruct Hends as (first & last & H0 & Hn & Hrest); try reflexivity.
    exists points, first, last. repeat split; try assumption; apply Hrest.
  - destruct (proj2 (@flattening_points sample) 0 0 0 3 4 3 4 0)%float
      as (points & Hc & _ & Hlen & _ & Hends); [now vm_compute|].
    destruct Hends as (first & last & H0 & Hn & Hrest); try reflexivity.
    exists points, first, last. repeat split; try assumption; apply Hrest.
Defined.

(** C9, as the spec words it for every Bézier, fails in three ways.  A
    control polygon of length 2^47 asks [make] for more than the run time
    allocates, and the call panics.  One of length 2^64 is
    beyond [int]: the conversion yields the smallest [int64], the count is
    floored at 4, and four points are returned for a length that rounds to
    2^64.  With an infinite control point the first point is not the start
    of the curve: its weight 0 times the infinity is a NaN. *)
Lemma flattening_fails_beyond_its_range :
  @CreateQuadraticBezier sample 0 0 0x1p+46 0 0x1p+47 0 = Panic MakeSliceLen
  ∧ (∃ points,
       @CreateQuadraticBezier sample 0 0 0x1p+63 0 0x1p+64 0 = Ok points
       ∧ length points = 4%nat
       ∧ (@Hypot sample (0x1p+63 - 0) (0 - 0)
          + @Hypot sample (0x1p+64 - 0x1p+63) (0 - 0))%float = 0x1p+64%float)
  ∧ (∃ points first,
       @CreateQuadraticBezier sample 0 0 infinity 0 1 0 = Ok points
       ∧ points !! 0%nat = Some first
       ∧ is_nan (X first) = true ∧ (X first =? 0)%float = false).
Proof.
  split; [now vm_compute|]. split.
  - eexists. split; [vm_compute; reflexivity|]. split; now vm_compute.
  - eexists _, _. split; [vm_compute; reflexivity|]. split; [reflexivity|].
    split; now vm_compute.
Qed.

(** * More properties of the package *)

(** ** Path building leaves the rest of the canvas alone *)

Section Frame.
Context `{Externals}.

Lemma MoveTo_kept c x y c' : Canvas.MoveTo c x y = Ok c' → kept c' = kept c.
Proof.
  unfold Canvas.MoveTo. intros Hm. unbind.
  destruct (Canvas.TransformPoint a x y) as [tx ty]. unbind. subst c'.
  destruct (hasCurrent c); unbind; subst; reflexivity.
Qed.

Lemma LineTo_kept c x y c' : Canvas.LineTo c x y = Ok c' → kept c' = kept c.
Proof.
  unfold Canvas.LineTo. destruct (negb (hasCurrent c)); [apply MoveTo_kept|].
  destruct (Canvas.TransformPoint c x y). intros Hm. unbind. now subst.
Qed.

Lemma QuadraticTo_kept c x1 y1 x2 y2 c' :
  Canvas.QuadraticTo c x1 y1 x2 y2 = Ok c' → kept c' = kept c.
Proof.
  unfold Canvas.QuadraticTo. intros Hm. unbind.
  destruct (Canvas.TransformPoint a x1 y1), (Canvas.TransformPoint a x2 y2).
  unbind. subst c'.
  destruct (negb (hasCurrent c)); [now apply MoveTo_kept in Ha|]. unbind. now subst.
Qed.

Lemma cubicPoints_kept points :
  ∀ previous c, kept (Canvas.cubicPoints points previous c) = kept c.
Proof.
  induction points as [|p rest IH]; intros previous c; simpl; [reflexivity|].
  destruct (Point26_6_eqb _ _); now rewrite IH.
Qed.

Lemma CubicTo_kept c x1 y1 x2 y2 x3 y3 c' :
  Canvas.CubicTo c x1 y1 x2 y2 x3 y3 = Ok c' → kept c' = kept c.
Proof.
  unfold Canvas.CubicTo. intros Hm. unbind.
  destruct (Canvas.TransformPoint a x1 y1), (Canvas.TransformPoint a x2 y2),
    (Canvas.TransformPoint a x3 y3).
  unbind. destruct a1; unbind. subst c'. rewrite cubicPoints_kept.
  destruct (negb (hasCurrent c)); [now apply MoveTo_kept in Ha|]. unbind. now subst.
Qed.

Lemma ClosePath_kept c c' : Canvas.ClosePath c = Ok c' → kept c' = kept c.
Proof.
  unfold Canvas.ClosePath. destruct (hasCurrent c); intros Hm; unbind; now subst.
Qed.

Lemma NewSubPath_kept c c' : Canvas.NewSubPath c = Ok c' → kept c' = kept c.
Proof.
  unfold Canvas.NewSubPath. intros Hm. unbind. subst c'.
  destruct (hasCurrent c); unbind; now subst.
Qed.

Lemma arcRounds_kept k :
  ∀ i x y rx ry a1 a2 c c',
    Canvas.arcRounds k i x y rx ry a1 a2 c = Ok c' → kept c' = kept c.
Proof.
  induction k as [|k IH]; intros i x y rx ry a1 a2 c c' Hr; simpl in Hr.
  - now apply Ok_inj in Hr as <-.
  - unbind. rewrite (IH _ _ _ _ _ _ _ _ _ Hr), (QuadraticTo_kept _ _ _ _ _ _ Ha0).
    destruct (i =? 0); [|now apply Ok_inj in Ha as <-].
    destruct (hasCurrent c); [now apply LineTo_kept in Ha | now apply MoveTo_kept in Ha].
Qed.

Lemma DrawCircle_kept c x y r c' : Canvas.DrawCircle c x y r = Ok c' → kept c' = kept c.
Proof.
  unfold Canvas.DrawCircle, Canvas.DrawEllipticalArc. intros Hd. unbind.
  now rewrite (ClosePath_kept _ _ Hd), (arcRounds_kept _ _ _ _ _ _ _ _ _ _ Ha0),
    (NewSubPath_kept _ _ Ha).
Qed.

(** X1: the path-building calls, [MoveTo], [LineTo], [QuadraticTo],
    [CubicTo], [ClosePath], [NewSubPath], [DrawRectangle], [DrawEllipse] and
    the arcs, change nothing of a canvas but its two path programs, its
    cursor and the has-current flag: stack, image, mask, colours, patterns,
    dash pattern, line style, fill rule, font and matrix stay as they are. *)
Theorem path_building_keeps_the_rest (c c' : Canvas) :
  (∀ x y, Canvas.MoveTo c x y = Ok c' → kept c' = kept c)
  ∧ (∀ x y, Canvas.LineTo c x y = Ok c' → kept c' = kept c)
  ∧ (∀ x1 y1 x2 y2, Canvas.QuadraticTo c x1 y1 x2 y2 = Ok c' → kept c' = kept c)
  ∧ (∀ x1 y1 x2 y2 x3 y3, Canvas.CubicTo c x1 y1 x2 y2 x3 y3 = Ok c' → kept c' = kept c)
  ∧ (Canvas.ClosePath c = Ok c' → kept c' = kept c)
  ∧ (Canvas.NewSubPath c = Ok c' → kept c' = kept c)
  ∧ (∀ x y w h, Canvas.DrawRectangle c x y w h = Ok c' → kept c' = kept c)
  ∧ (∀ x y rx ry a1 a2,
       Canvas.DrawEllipticalArc c x y rx ry a1 a2 = Ok c' → kept c' = kept c)
  ∧ (∀ x y rx ry, Canvas.DrawEllipse c x y rx ry = Ok c' → kept c' = kept c).
Proof.
  repeat split; intros.
  - eapply MoveTo_kept; eassumption.
  - eapply LineTo_kept; eassumption.
  - eapply QuadraticTo_kept; eassumption.
  - eapply CubicTo_kept; eassumption.
  - now apply ClosePath_kept.
  - now apply NewSubPath_kept.
  - unfold Canvas.DrawRectangle in *. unbind.
    rewrite (ClosePath_kept _ _ H0).
    repeat match goal with
      | Hl : Canvas.LineTo _ _ _ = Ok _ |- _ => rewrite (LineTo_kept _ _ _ _ Hl); clear Hl
      end.
    now rewrite (MoveTo_kept _ _ _ _ Ha0), (NewSubPath_kept _ _ Ha).
  - eapply arcRounds_kept; eassumption.
  - unfold Canvas.DrawEllipse, Canvas.DrawEllipticalArc in *. unbind.
    now rewrite (ClosePath_kept _ _ H0), (arcRounds_kept _ _ _ _ _ _ _ _ _ _ Ha0),
      (NewSubPath_kept _ _ Ha).
Qed.
End Frame.

Lemma path_building_keeps_the_rest_witness :
  ∃ c', Canvas.DrawRectangle (Canvas.Translate (NewCanvas 2%positive 2 2) 3 4) 0 0 1 1
        = Ok c'
        ∧ kept c' = kept (Canvas.Translate (NewCanvas 2%positive 2 2) 3 4).
Proof.
  eexists. split; [vm_compute; reflexivity|].
  destruct (@path_building_keeps_the_rest sample
              (Canvas.Translate (NewCanvas 2%positive 2 2) 3 4)
              ltac:(let r := eval vm_compute in
                      (Canvas.DrawRectangle
                         (Canvas.Translate (NewCanvas 2%positive 2 2) 3 4) 0 0 1 1) in
                    match r with Ok ?c => exact c end))
    as (_ & _ & _ & _ & _ & _ & Hrect & _).
  apply (Hrect 0 0 1 1)%float. vm_compute. reflexivity.
Defined.

(** ** The one nil pointer a script on a canvas can follow *)

Section Sound.
Context `{Externals}.

Lemma MoveTo_ok c x y :
  cursor_ok c = true →
  ∃ c', Canvas.MoveTo c x y = Ok c' ∧ cursor_ok c' = true.
Proof.
  unfold cursor_ok, Canvas.MoveTo. intros Hc.
  destruct (hasCurrent c); [destruct (start c); [|discriminate]|]; simpl;
    eexists; (split; [reflexivity|reflexivity]).
Qed.

Lemma LineTo_ok c x y :
  cursor_ok c = true →
  ∃ c', Canvas.LineTo c x y = Ok c' ∧ cursor_ok c' = true.
Proof.
  intros Hc. unfold Canvas.LineTo. destruct (hasCurrent c) eqn:Eh; simpl.
  - destruct (Canvas.TransformPoint c x y). eexists. split; [reflexivity|].
    unfold cursor_ok in *. simpl. rewrite Eh in *.
    destruct (start c); [reflexivity | discriminate].
  - apply MoveTo_ok, Hc.
Qed.

Lemma QuadraticTo_ok c x1 y1 x2 y2 :
  cursor_ok c = true →
  ∃ c', Canvas.QuadraticTo c x1 y1 x2 y2 = Ok c' ∧ cursor_ok c' = true.
Proof.
  intros Hc. unfold Canvas.QuadraticTo.
  assert (∃ a, (if negb (hasCurrent c) then Canvas.MoveTo c x1 y1 else Ok c) = Ok a
               ∧ cursor_ok a = true) as (a & -> & Ha).
  { destruct (hasCurrent c); simpl; [eauto | now apply MoveTo_ok]. }
  simpl. destruct (Canvas.TransformPoint a x1 y1), (Canvas.TransformPoint a x2 y2).
  eexists. split; [reflexivity|].
  unfold cursor_ok in *. simpl. destruct (hasCurrent a); [|reflexivity].
  destruct (start a); [reflexivity | discriminate].
Qed.

Lemma ClosePath_ok c :
  cursor_ok c = true → ∃ c', Canvas.ClosePath c = Ok c' ∧ cursor_ok c' = true.
Proof.
  intros Hc. unfold Canvas.ClosePath. destruct (hasCurrent c) eqn:Eh; [|eauto].
  unfold cursor_ok in Hc. rewrite Eh in Hc.
  destruct (start c) eqn:Es; [|discriminate]. simpl.
  eexists. split; [reflexivity|]. unfold cursor_ok. simpl. now rewrite Eh, Es.
Qed.

Lemma NewSubPath_ok c :
  cursor_ok c = true → ∃ c', Canvas.NewSubPath c = Ok c' ∧ cursor_ok c' = true.
Proof.
  intros Hc. unfold Canvas.NewSubPath. destruct (hasCurrent c) eqn:Eh.
  - unfold cursor_ok in Hc. rewrite Eh in Hc.
    destruct (start c) eqn:Es; [|discriminate]. simpl. eauto.
  - simpl. eauto.
Qed.

Lemma cubicPoints_cursor points :
  ∀ previous c, hasCurrent c = true → is_Some (start c) →
    cursor_ok c = true → cursor_ok (Canvas.cubicPoints points previous c) = true.
Proof.
  induction points as [|p rest IH]; intros previous c Hh Hs Hc; simpl; [exact Hc|].
  destruct (Point26_6_eqb _ _); apply IH; try assumption.
  unfold cursor_ok. simpl. rewrite Hh. now destruct Hs as [s ->].
Qed.

Lemma CreateCubicBezier_outcome x0 y0 x1 y1 x2 y2 x3 y3 :
  (∃ p rest, CreateCubicBezier x0 y0 x1 y1 x2 y2 x3 y3 = Ok (p :: rest))
  ∨ CreateCubicBezier x0 y0 x1 y1 x2 y2 x3 y3 = Panic MakeSliceLen.
Proof.
  unfold CreateCubicBezier, make_len.
  set (n := pointCount _). destruct (2 ^ 45 <? n); [now right|]. left. simpl.
  assert (4 <= n) by (unfold n; rewrite pointCount_round; lia).
  destruct (Z.to_nat n) as [|k] eqn:Ek; [lia|]. simpl. eauto.
Qed.

Lemma CubicTo_ok c x1 y1 x2 y2 x3 y3 :
  cursor_ok c = true →
  (∃ c', Canvas.CubicTo c x1 y1 x2 y2 x3 y3 = Ok c' ∧ cursor_ok c' = true)
  ∨ Canvas.CubicTo c x1 y1 x2 y2 x3 y3 = Panic MakeSliceLen.
Proof.
  intros Hc. unfold Canvas.CubicTo.
  assert (∃ a, (if negb (hasCurrent c) then Canvas.MoveTo c x1 y1 else Ok c) = Ok a
               ∧ cursor_ok a = true ∧ hasCurrent a = true) as (a & -> & Ha & Hh).
  { destruct (hasCurrent c) eqn:Eh; simpl; [eauto|].
    destruct (MoveTo_ok c x1 y1 Hc) as (a & Hm & Ha). exists a. repeat split; trivial.
    unfold Canvas.MoveTo in Hm. unbind.
    destruct (Canvas.TransformPoint a0 x1 y1). unbind. now subst. }
  cbn [mbind outcome_bind]. pose proof Ha as Ha'. unfold cursor_ok in Ha'.
  rewrite Hh in Ha'.
  destruct (start a) as [s|] eqn:Es; [|discriminate].
  destruct (current a) as [cur|] eqn:Ecur; [|discriminate]. cbn [mbind outcome_bind deref].
  destruct (Canvas.TransformPoint a x1 y1) as [tx1 ty1],
    (Canvas.TransformPoint a x2 y2) as [tx2 ty2],
    (Canvas.TransformPoint a x3 y3) as [tx3 ty3].
  destruct (CreateCubicBezier_outcome (X cur) (Y cur) tx1 ty1 tx2 ty2 tx3 ty3)
    as [(p & rest & ->)| ->]; [|now right].
  left. cbn [mbind outcome_bind]. eexists. split; [reflexivity|].
  apply cubicPoints_cursor; [exact Hh | rewrite Es; eauto | exact Ha].
Qed.

(** What one call does to a sound canvas. *)
Lemma call_sound c k h :
  sound c h →
  match call c k h with
  | Ok h' => sound c h'
  | Panic why =>
      why = IndexOutOfRange ∨ why = MakeSliceLen
      ∨ (why = NilDereference ∧ k = SetMask None)
  | OutOfFuel => False
  end.
Proof.
  intros (cv & Hc & Hcur & Hst).
  cut (match call c k h with
       | Ok h' => sound c h'
       | Panic why => why = IndexOutOfRange ∨ why = MakeSliceLen
       | OutOfFuel => False
       end ∨ (k = SetMask None ∧ call c k h = Panic NilDereference)).
  { intros [Hk|[-> ->]]; [|tauto]. destruct (call c k h); tauto. }
  assert (k = SetMask None ∨ k ≠ SetMask None) as [->|Hnil].
  { destruct k; try (right; discriminate).
    match goal with o : option Alpha |- _ => destruct o end;
      [right; discriminate | now left]. }
  { right. split; [reflexivity|]. simpl. unfold through. now rewrite Hc. }
  left.
  assert (∀ f, (∀ a, cursor_ok a = true →
                  (∃ a', f a = Ok a' ∧ cursor_ok a' = true ∧ stack a' = stack a)
                  ∨ f a = Panic MakeSliceLen) →
            match through c f h with
            | Ok h' => sound c h'
            | Panic why => why = IndexOutOfRange ∨ why = MakeSliceLen
            | OutOfFuel => False
            end) as Hthrough.
  { intros f Hf. unfold through. rewrite Hc. simpl.
    destruct (Hf cv Hcur) as [(a' & -> & Ha' & Hs)| ->]; simpl; [|now right].
    exists a'. rewrite lookup_insert_eq. now rewrite Hs. }
  assert (∀ g : Canvas → Canvas,
            (∀ a, cursor_ok (g a) = cursor_ok a ∧ stack (g a) = stack a) →
            match through c (λ a, Ok (g a)) h with
            | Ok h' => sound c h'
            | Panic why => why = IndexOutOfRange ∨ why = MakeSliceLen
            | OutOfFuel => False
            end) as Hset.
  { intros g Hg. apply Hthrough. intros a Ha. left. exists (g a).
    destruct (Hg a) as [-> ->]. auto. }
  destruct k; simpl; try (apply Hset; intros a; split; reflexivity).
  - apply Hset. intros a. unfold Canvas.SetFillStyle. now destruct pattern.
  - apply Hthrough. intros a Ha. left.
    destruct (MoveTo_ok a x y Ha) as (a' & Hm & Ha'). exists a'.
    repeat split; trivial. eapply MoveTo_stack, Hm.
  - apply Hthrough. intros a Ha. left.
    destruct (LineTo_ok a x y Ha) as (a' & Hm & Ha'). exists a'.
    repeat split; trivial. eapply LineTo_stack, Hm.
  - apply Hthrough. intros a Ha. left.
    destruct (QuadraticTo_ok a x1 y1 x2 y2 Ha) as (a' & Hm & Ha'). exists a'.
    repeat split; trivial. eapply QuadraticTo_stack, Hm.
  - apply Hthrough. intros a Ha.
    destruct (CubicTo_ok a x1 y1 x2 y2 x3 y3 Ha) as [(a' & Hm & Ha')|Hp]; [left|now right].
    exists a'. repeat split; trivial. eapply CubicTo_stack, Hm.
  - apply Hthrough. intros a Ha. left.
    destruct (ClosePath_ok a Ha) as (a' & Hm & Ha'). exists a'.
    repeat split; trivial. eapply ClosePath_stack, Hm.
  - apply Hthrough. intros a Ha. left. exists (Canvas.ClearPath a). now repeat split.
  - apply Hthrough. intros a Ha. left.
    destruct (NewSubPath_ok a Ha) as (a' & Hm & Ha'). exists a'.
    repeat split; trivial. eapply NewSubPath_stack, Hm.
  - match goal with |- context [deref ?o] => destruct o as [m|]; [|now destruct Hnil] end.
    apply Hset. intros a. unfold Canvas.SetMask. now destruct (negb _).
  - apply Hset. intros a. unfold Canvas.InvertMask. now destruct (mask a).
  - unfold Push. rewrite Hc. simpl. eexists. rewrite lookup_insert_eq.
    split; [reflexivity|]. split; [exact Hcur|]. simpl.
    apply Forall_app. split; [exact Hst | repeat constructor].
  - destruct (last (stack cv)) as [x|] eqn:El.
    + assert (x = c) as ->.
      { apply last_Some_elem_of in El. rewrite Forall_forall in Hst.
        symmetry. now apply Hst. }
      rewrite (Pop_own_address c h cv Hc El). now exists cv.
    + apply last_None in El. unfold Pop. rewrite Hc. simpl. rewrite El.
      simpl. now left.
Qed.

End Sound.

Lemma fresh_heap_sound : sound 1%positive fresh_heap.
Proof.
  exists (NewCanvas 2%positive 2 2). split; [reflexivity|]. split; [reflexivity|].
  constructor.
Qed.


(** ** The stack only grows *)

Section Growth.
Context `{Externals}.

Lemma through_stack c f h h' cv :
  (∀ a a', f a = Ok a' → stack a' = stack a) →
  h !! c = Some cv → through c f h = Ok h' →
  ∃ cv', h' !! c = Some cv' ∧ stack cv' = stack cv.
Proof.
  intros Hf Hc Ht. unfold through in Ht. rewrite Hc in Ht. simpl in Ht. unbind.
  subst h'. exists a. split; [apply lookup_insert_eq|]. now apply Hf.
Qed.

Lemma call_stack c k h h' cv :
  sound c h → h !! c = Some cv → call c k h = Ok h' →
  ∃ cv', h' !! c = Some cv' ∧ stack cv' = stack cv ++ replicate (pushes [k]) c.
Proof.
  intros (cv0 & Hc0 & _ & Hst) Hc. rewrite Hc in Hc0. injection Hc0 as <-.
  assert (∀ f, (∀ a a', f a = Ok a' → stack a' = stack a) →
            through c f h = Ok h' →
            ∃ cv', h' !! c = Some cv' ∧ stack cv' = stack cv ++ []) as Hthrough.
  { intros f Hf Ht. rewrite app_nil_r. eapply through_stack; eassumption. }
  destruct k; simpl;
    try (apply Hthrough; intros a a' [= <-]; reflexivity).
  - apply Hthrough. intros a a' [= <-]. unfold Canvas.SetFillStyle. now destruct pattern.
  - apply Hthrough. intros ? ?. apply MoveTo_stack.
  - apply Hthrough. intros ? ?. apply LineTo_stack.
  - apply Hthrough. intros ? ?. apply QuadraticTo_stack.
  - apply Hthrough. intros ? ?. apply CubicTo_stack.
  - apply Hthrough. intros ? ?. apply ClosePath_stack.
  - apply Hthrough. intros ? ?. apply NewSubPath_stack.
  - apply Hthrough. intros a a' Hm.
    match type of Hm with context [deref ?o] => destruct o as [m|]; [|discriminate Hm] end.
    apply Ok_inj in Hm as <-. unfold Canvas.SetMask. now destruct (negb _).
  - apply Hthrough. intros a a' [= <-]. unfold Canvas.InvertMask. now destruct (mask a).
  - unfold Push. rewrite Hc. simpl. intros [= <-]. eexists.
    split; [apply lookup_insert_eq|]. reflexivity.
  - destruct (last (stack cv)) as [x|] eqn:El.
    + assert (x = c) as ->.
      { apply last_Some_elem_of in El. rewrite Forall_forall in Hst.
        symmetry. now apply Hst. }
      rewrite (Pop_own_address c h cv Hc El). intros [= <-]. exists cv.
      now rewrite app_nil_r.
    + apply last_None in El. unfold Pop. rewrite Hc. simpl. rewrite El. discriminate.
Qed.

Lemma call_sound_Ok c k h h' : sound c h → call c k h = Ok h' → sound c h'.
Proof. intros Hs Hk. pose proof (call_sound c k h Hs) as Hm. now rewrite Hk in Hm. Qed.

(** X3: [Pop] never takes an entry off the stack, and nothing but [Push]
    puts one on: when a script returns on a sound canvas, the stack is the
    one before with the canvas's own address added once for every [Push] of
    the script, however many [Pop]s it made. *)
Theorem stack_grows_by_the_pushes (c : ptr) (script : list Call) (h h' : heap)
    (cv : Canvas) :
  sound c h → h !! c = Some cv → run c script h = Ok h' →
  ∃ cv', h' !! c = Some cv' ∧ stack cv' = stack cv ++ replicate (pushes script) c.
Proof.
  revert h cv. induction script as [|k rest IH]; intros h cv Hs Hc Hr; simpl in Hr.
  - apply Ok_inj in Hr as <-. exists cv. now rewrite app_nil_r.
  - unbind. destruct (call_stack c k h a cv Hs Hc Ha) as (cv1 & Hc1 & Hst1).
    destruct (IH a cv1 (call_sound_Ok c k h a Hs Ha) Hc1 Hr) as (cv' & Hc' & Hst').
    exists cv'. split; [exact Hc'|]. rewrite Hst', Hst1, <- app_assoc.
    f_equal. rewrite <- replicate_add. f_equal.
    simpl. destruct k; reflexivity.
Qed.

Lemma run_app c (s1 s2 : list Call) h :
  run c (s1 ++ s2) h = run c s1 h ≫= run c s2.
Proof.
  revert h. induction s1 as [|k rest IH]; intros h; simpl; [reflexivity|].
  destruct (call c k h); simpl; [apply IH | reflexivity | reflexivity].
Qed.

(** X4: a [Pop] that closes a [Push] restores nothing: whatever the script
    between them set (line width, colours, dash pattern, matrix, clip), the
    heap after the [Pop] is the heap before it. *)
Theorem Pop_after_Push_restores_nothing (c : ptr) (script : list Call) (h h1 : heap) :
  run c (DoPush :: script) h = Ok h1 →
  run c (DoPush :: script ++ [DoPop]) h = Ok h1.
Proof.
  intros Hr. rewrite app_comm_cons, run_app, Hr. simpl in *. unbind.
  assert (own_top c h1) as (cv1 & Hc & Hlast).
  { eapply run_own_top; [|exact Hr]. eapply Push_own_top; exact Ha. }
  now rewrite (Pop_own_address c h1 cv1 Hc Hlast).
Qed.

(** X5: [DrawPoint] draws its circle with the identity transform between a
    [Push] and a [Pop]; as the [Pop] restores nothing, the canvas comes back
    with the identity matrix in place of its own, and with one more entry
    on its stack. *)
Theorem DrawPoint_loses_the_transform (c : ptr) (x y r : float) (h h' : heap)
    (cv : Canvas) :
  h !! c = Some cv → DrawPoint c x y r h = Ok h' →
  ∃ cv', h' !! c = Some cv' ∧ matrix cv' = Identity ∧ stack cv' = stack cv ++ [c].
Proof.
  intros Hc Hd. unfold DrawPoint, Push in Hd. rewrite Hc in Hd. simpl in Hd.
  rewrite lookup_insert_eq in Hd. simpl in Hd. unbind.
  rewrite lookup_insert_eq in Ha. apply Ok_inj in Ha as <-.
  pose proof (DrawCircle_kept _ _ _ _ _ Ha0) as Hk.
  assert (stack a0 = stack cv ++ [c] ∧ matrix a0 = Identity) as [Hst Hm].
  { unfold kept in Hk. simpl in Hk. split; congruence. }
  rewrite (Pop_own_address c _ a0) in Hd.
  - apply Ok_inj in Hd as <-. exists a0. split; [apply lookup_insert_eq|]. now split.
  - apply lookup_insert_eq.
  - rewrite Hst. apply last_snoc.
Qed.
End Growth.

Lemma stack_grows_by_the_pushes_witness :
  ∃ cv', @run sample 1%positive sample_script fresh_heap
         ≫= (λ h', deref (h' !! 1%positive)) = Ok cv'
         ∧ stack cv' = [1%positive].
Proof.
  destruct (@run sample 1%positive sample_script fresh_heap) as [h'| |] eqn:Hr;
    [|vm_compute in Hr; discriminate Hr..].
  destruct (@stack_grows_by_the_pushes sample 1%positive sample_script fresh_heap h'
              (NewCanvas 2%positive 2 2) fresh_heap_sound eq_refl Hr)
    as (cv' & Hc' & Hst).
  exists cv'. simpl. rewrite Hc'. split; [reflexivity | exact Hst].
Defined.

Lemma Pop_after_Push_restores_nothing_witness :
  ∃ h1, @run sample 1%positive [DoPush; DoScale 2 2; SetLineWidth 5] fresh_heap = Ok h1
        ∧ @run sample 1%positive [DoPush; DoScale 2 2; SetLineWidth 5; DoPop] fresh_heap
          = Ok h1.
Proof.
  destruct (@run sample 1%positive [DoPush; DoScale 2 2; SetLineWidth 5] fresh_heap)
    as [h1| |] eqn:Hr; [|vm_compute in Hr; discriminate Hr..].
  exists h1. split; [reflexivity|].
  exact (@Pop_after_Push_restores_nothing sample 1%positive
           [DoScale 2 2; SetLineWidth 5] fresh_heap h1 Hr).
Defined.

Lemma DrawPoint_loses_the_transform_witness :
  ∃ h' cv',
    @DrawPoint sample 1%positive 1 1 1
      (<[1%positive := Canvas.Translate (NewCanvas 2%positive 2 2) 3 4]> fresh_heap)
    = Ok h'
    ∧ h' !! 1%positive = Some cv' ∧ matrix cv' = Identity
    ∧ stack cv' = [1%positive].
Proof.
  destruct (@DrawPoint sample 1%positive 1 1 1
              (<[1%positive := Canvas.Translate (NewCanvas 2%positive 2 2) 3 4]>
                 fresh_heap)) as [h'| |] eqn:Hd; [|vm_compute in Hd; discriminate Hd..].
  destruct (@DrawPoint_loses_the_transform sample 1%positive 1 1 1 _ h'
              (Canvas.Translate (NewCanvas 2%positive 2 2) 3 4)
              (lookup_insert_eq _ _ _) Hd) as (cv' & Hc' & Hm & Hst).
  exists h', cv'. repeat split; assumption.
Defined.

(** ** The clip mask *)

(** X6: on a mask of bytes, [InvertMask] is its own inverse: inverting
    twice gives back the canvas, mask and all. *)
Theorem InvertMask_twice (c : Canvas) (m : Alpha) :
  mask c = Some m → byte_mask m →
  Canvas.InvertMask (Canvas.InvertMask c) = c.
Proof.
  intros Hm Hb. unfold Canvas.InvertMask at 2. rewrite Hm.
  unfold Canvas.InvertMask. cbn [mask set_mask].
  apply Canvas_ext; try reflexivity. cbn [mask set_mask APix AStride ARect].
  rewrite Hm. f_equal. destruct m as [pix stride rect]. f_equal.
  unfold byte_mask in Hb. simpl in *. rewrite map_map. clear Hm.
  induction Hb as [|a pix Ha _ IH]; simpl; [reflexivity|]. rewrite IH. f_equal.
  rewrite (Z.mod_small (255 - a)) by lia. rewrite Z.mod_small by lia. lia.
Qed.

Lemma InvertMask_twice_witness :
  Canvas.InvertMask
    (Canvas.InvertMask
       (set_mask (Some {| APix := [0; 7; 255; 128]; AStride := 2;
                          ARect := image_Rect 0 0 2 2 |})
          (NewCanvas 2%positive 2 2)))
  = set_mask (Some {| APix := [0; 7; 255; 128]; AStride := 2;
                      ARect := image_Rect 0 0 2 2 |})
      (NewCanvas 2%positive 2 2).
Proof.
  apply (InvertMask_twice _ {| APix := [0; 7; 255; 128]; AStride := 2;
                                ARect := image_Rect 0 0 2 2 |}).
  - reflexivity.
  - unfold byte_mask. simpl. repeat constructor; lia.
Defined.

(** ** Shapes *)

Section Shapes.
Context `{Externals}.

Lemma MoveTo_cursor c x y c' :
  Canvas.MoveTo c x y = Ok c' →
  start c' = Some (transformed c (NewVector x y))
  ∧ current c' = Some (transformed c (NewVector x y))
  ∧ hasCurrent c' = true.
Proof.
  unfold Canvas.MoveTo, transformed, Canvas.TransformPoint. intros Hm. unbind.
  assert (matrix a = matrix c) as Hmat.
  { destruct (hasCurrent c); unbind; now subst. }
  rewrite Hmat in Hm. cbn [X Y].
  destruct (Matrix.TransformPoint (matrix c) x y) as [tx ty]. unbind. subst c'.
  repeat split.
Qed.

Lemma LineTo_cursor c x y c' :
  Canvas.LineTo c x y = Ok c' → hasCurrent c = true →
  start c' = start c ∧ current c' = Some (transformed c (NewVector x y))
  ∧ hasCurrent c' = true.
Proof.
  unfold Canvas.LineTo, transformed. intros Hl Hh. rewrite Hh in *. simpl in *.
  destruct (Canvas.TransformPoint c x y) as [tx ty]. unbind. now subst c'.
Qed.

Lemma transformed_kept c c' v : kept c' = kept c → transformed c' v = transformed c v.
Proof.
  unfold transformed, Canvas.TransformPoint, kept. intros Hk.
  assert (matrix c' = matrix c) as -> by congruence. reflexivity.
Qed.

Lemma lineToAll_cursor vs :
  ∀ c c', Canvas.lineToAll vs c = Ok c' → hasCurrent c = true →
    start c' = start c ∧ hasCurrent c' = true ∧ kept c' = kept c
    ∧ current c' = match last vs with
                   | Some v => Some (transformed c v)
                   | None => current c
                   end.
Proof.
  induction vs as [|v rest IH]; intros c c' Hl Hh; simpl in Hl.
  - apply Ok_inj in Hl as <-. now repeat split.
  - unbind. destruct (LineTo_cursor _ _ _ _ Ha Hh) as (Hs & Hc & Hh').
    pose proof (LineTo_kept _ _ _ _ Ha) as Hk.
    destruct (IH _ _ Hl Hh') as (Hs' & Hh'' & Hk' & Hc').
    repeat split; [congruence | exact Hh'' | congruence |].
    rewrite Hc'. destruct rest as [|w rest'].
    + simpl. rewrite Hc. now destruct v.
    + change (last (v :: w :: rest')) with (last (w :: rest')).
      destruct (last (w :: rest')) eqn:El; [|now apply last_None in El].
      now rewrite (transformed_kept _ _ _ Hk).
Qed.

Lemma lineToAll_ok vs :
  ∀ c, cursor_ok c = true →
    ∃ c', Canvas.lineToAll vs c = Ok c' ∧ cursor_ok c' = true.
Proof.
  induction vs as [|v rest IH]; intros c Hc; simpl; [eauto|].
  destruct (LineTo_ok c (X v) (Y v) Hc) as (c1 & -> & Hc1). simpl. now apply IH.
Qed.

(** X7: [EndShape] reads the first vertex without looking at how many there
    are.  On a canvas with a sound cursor it fails in one case only, with an
    index out of range: a shape that was begun and given no vertex.  In every
    other case it returns, with the shape over and the cursor sound. *)
Theorem EndShape_fails_only_without_vertices (c : Canvas) (isClose : list bool) :
  cursor_ok c = true →
  match Canvas.EndShape c isClose with
  | Ok c' => hasBegin c' = false ∧ cursor_ok c' = true
             ∧ ¬ (hasBegin c = true ∧ vertexts c = [])
  | Panic why => why = IndexOutOfRange ∧ hasBegin c = true ∧ vertexts c = []
  | OutOfFuel => False
  end.
Proof.
  intros Hc. unfold Canvas.EndShape. destruct (hasBegin c) eqn:Hb.
  2: { repeat split; [exact Hb | exact Hc | now intros [? _]]. }
  cbn [vertexts set_hasBegin]. destruct (vertexts c) as [|v0 vs] eqn:Hv.
  { now repeat split. }
  cbn [index lookup list_lookup mbind outcome_bind].
  assert (cursor_ok (set_hasBegin false c) = true) as Hc0 by exact Hc.
  destruct (MoveTo_ok _ (X v0) (Y v0) Hc0) as (c1 & Hm & Hc1). rewrite Hm.
  cbn [mbind outcome_bind].
  pose proof (MoveTo_kept _ _ _ _ Hm) as Hk1.
  destruct (MoveTo_cursor _ _ _ _ Hm) as (_ & _ & Hh1).
  assert (vertexts c1 = v0 :: vs) as Hv1.
  { unfold kept in Hk1. simpl in Hk1. congruence. }
  rewrite Hv1. change (drop 1 (v0 :: vs)) with vs.
  destruct (lineToAll_ok vs c1 Hc1) as (c2 & Hl & Hc2). rewrite Hl.
  cbn [mbind outcome_bind].
  destruct (lineToAll_cursor vs _ _ Hl Hh1) as (_ & _ & Hk2 & _).
  assert (hasBegin c2 = false ∧ vertexts c2 = v0 :: vs) as [Hb2 Hv2].
  { unfold kept in Hk1, Hk2. simpl in Hk1, Hk2. split; congruence. }
  assert (∀ c3, Canvas.LineTo c2 (X v0) (Y v0) = Ok c3 → hasBegin c3 = false) as Hb3.
  { intros c3 Hl3. apply LineTo_kept in Hl3. unfold kept in Hl3. congruence. }
  destruct (LineTo_ok c2 (X v0) (Y v0) Hc2) as (c3 & Hl3 & Hc3).
  destruct isClose as [|[] [|? ?]]; rewrite ?Hv2;
    cbn [index lookup list_lookup mbind outcome_bind]; rewrite ?Hl3;
    (repeat split; [auto | assumption | now intros [_ ?]]).
Qed.

(** X8: a shape ended with [EndShape(true)] is closed: on a canvas with a
    sound cursor and a shape of at least one vertex the call returns, and
    the start and the current point are both where the matrix maps the
    first vertex, the has-current flag is set, the shape is over and the
    vertices stay recorded. *)
Theorem closed_shape_ends_at_its_first_vertex (c : Canvas) (v0 : Vector)
    (vs : list Vector) :
  hasBegin c = true → vertexts c = v0 :: vs → cursor_ok c = true →
  ∃ c', Canvas.EndShape c [true] = Ok c'
        ∧ start c' = Some (transformed c v0)
        ∧ current c' = Some (transformed c v0)
        ∧ hasCurrent c' = true
        ∧ hasBegin c' = false
        ∧ vertexts c' = v0 :: vs.
Proof.
  intros Hb Hv Hc. unfold Canvas.EndShape. rewrite Hb.
  cbn [vertexts set_hasBegin]. rewrite Hv. cbn [index lookup list_lookup mbind outcome_bind].
  assert (cursor_ok (set_hasBegin false c) = true) as Hc0 by exact Hc.
  destruct (MoveTo_ok _ (X v0) (Y v0) Hc0) as (c1 & Hm & Hc1). rewrite Hm.
  cbn [mbind outcome_bind].
  pose proof (MoveTo_kept _ _ _ _ Hm) as Hk1.
  destruct (MoveTo_cursor _ _ _ _ Hm) as (Hs1 & Hcur1 & Hh1).
  assert (vertexts c1 = v0 :: vs) as Hv1.
  { unfold kept in Hk1. simpl in Hk1. congruence. }
  rewrite Hv1. change (drop 1 (v0 :: vs)) with vs.
  destruct (lineToAll_ok vs c1 Hc1) as (c2 & Hl & Hc2). rewrite Hl.
  cbn [mbind outcome_bind].
  destruct (lineToAll_cursor vs _ _ Hl Hh1) as (Hs2 & Hh2 & Hk2 & _).
  assert (vertexts c2 = v0 :: vs) as Hv2.
  { unfold kept in Hk2. simpl in Hk2. congruence. }
  rewrite Hv2. cbn [index lookup list_lookup mbind outcome_bind].
  destruct (LineTo_ok c2 (X v0) (Y v0) Hc2) as (c3 & Hl3 & Hc3).
  exists c3. split; [exact Hl3|].
  destruct (LineTo_cursor _ _ _ _ Hl3 Hh2) as (Hs3 & Hcur3 & Hh3).
  pose proof (LineTo_kept _ _ _ _ Hl3) as Hk3.
  assert (kept c3 = kept (set_hasBegin false c)) as Hk by congruence.
  assert (∀ v, transformed c2 v = transformed c v) as Ht2.
  { intros v. rewrite (transformed_kept _ _ _ Hk2), (transformed_kept _ _ _ Hk1).
    reflexivity. }
  repeat split.
  - rewrite Hs3, Hs2, Hs1. destruct v0. reflexivity.
  - rewrite Hcur3, Ht2. destruct v0. reflexivity.
  - exact Hh3.
  - unfold kept in Hk. simpl in Hk. congruence.
  - unfold kept in Hk. simpl in Hk. congruence.
Qed.
End Shapes.

Lemma EndShape_fails_only_without_vertices_witness :
  match @Canvas.EndShape (Canvas.BeginShape (NewCanvas 2%positive 2 2)) [] with
  | Ok c' => False
  | Panic why => why = IndexOutOfRange
  | OutOfFuel => False
  end.
Proof.
  pose proof (EndShape_fails_only_without_vertices
                (Canvas.BeginShape (NewCanvas 2%positive 2 2)) [] eq_refl) as He.
  destruct (@Canvas.EndShape (Canvas.BeginShape (NewCanvas 2%positive 2 2)) []);
    [destruct He as (_ & _ & Hn); apply Hn; now split | apply He | exact He].
Defined.

Lemma closed_shape_ends_at_its_first_vertex_witness :
  ∃ c', @Canvas.EndShape triangle_canvas [true] = Ok c'
        ∧ start c' = Some (NewVector 0 0)
        ∧ current c' = Some (NewVector 0 0)
        ∧ hasCurrent c' = true
        ∧ hasBegin c' = false
        ∧ vertexts c' = [NewVector 0 0; NewVector 1 0; NewVector 0 1].
Proof.
  exact (closed_shape_ends_at_its_first_vertex triangle_canvas (NewVector 0 0)
           [NewVector 1 0; NewVector 0 1] eq_refl eq_refl eq_refl).
Defined.

(** ** What the drawing calls add to the programs *)

Section Programs.
Context `{Externals}.

Lemma MoveTo_stroke c x y c' :
  Canvas.MoveTo c x y = Ok c' →
  strokePath c' = Path_Start (strokePath c) (Vector.Fixed (transformed c (NewVector x y))).
Proof.
  unfold Canvas.MoveTo, transformed, Canvas.TransformPoint. intros Hm. unbind.
  assert (matrix a = matrix c ∧ strokePath a = strokePath c) as [Hmat Hst].
  { destruct (hasCurrent c); unbind; now subst. }
  rewrite Hmat in Hm. cbn [X Y].
  destruct (Matrix.TransformPoint (matrix c) x y) as [tx ty]. unbind. subst c'.
  cbn. now rewrite Hst.
Qed.

Lemma LineTo_stroke c x y c' :
  Canvas.LineTo c x y = Ok c' → hasCurrent c = true →
  strokePath c' = Path_Add1 (strokePath c) (Vector.Fixed (transformed c (NewVector x y))).
Proof.
  unfold Canvas.LineTo, transformed. intros Hl Hh. rewrite Hh in *. simpl in *.
  destruct (Canvas.TransformPoint c x y) as [tx ty]. unbind. now subst c'.
Qed.

Lemma NewSubPath_stroke c c' :
  Canvas.NewSubPath c = Ok c' →
  strokePath c' = strokePath c ∧ hasCurrent c' = false.
Proof.
  unfold Canvas.NewSubPath. intros Hm. unbind. subst c'. simpl.
  destruct (hasCurrent c); unbind; now subst.
Qed.

Lemma ClosePath_stroke c c' s :
  Canvas.ClosePath c = Ok c' → hasCurrent c = true → start c = Some s →
  strokePath c' = Path_Add1 (strokePath c) (Vector.Fixed s)
  ∧ start c' = Some s ∧ current c' = Some s ∧ hasCurrent c' = true.
Proof.
  unfold Canvas.ClosePath. intros Hm Hh Hs. rewrite Hh, Hs in Hm. simpl in Hm.
  unbind. subst c'. simpl. now rewrite Hh, Hs.
Qed.

(** X9: [DrawRectangle] on a canvas with a sound cursor returns, and adds
    to the stroke program one subpath: a start at the corner (x, y), lines
    to the three other corners and a line back to the first, each corner
    mapped by the matrix and cut to whole pixels.  The start and the current
    point are left at the first corner. *)
Theorem DrawRectangle_outline (c : Canvas) (x y w h : float) :
  cursor_ok c = true →
  let corner x y := transformed c (NewVector x y) in
  let p0 := Vector.Fixed (corner x y) in
  let p1 := Vector.Fixed (corner (x + w) y)%float in
  let p2 := Vector.Fixed (corner (x + w) (y + h))%float in
  let p3 := Vector.Fixed (corner x (y + h))%float in
  ∃ c', Canvas.DrawRectangle c x y w h = Ok c'
        ∧ strokePath c'
          = strokePath c ++ [0; PX p0; PY p0; 0] ++ [1; PX p1; PY p1; 1]
              ++ [1; PX p2; PY p2; 1] ++ [1; PX p3; PY p3; 1] ++ [1; PX p0; PY p0; 1]
        ∧ start c' = Some (corner x y) ∧ current c' = Some (corner x y)
        ∧ hasCurrent c' = true.
Proof.
  intros Hc corner p0 p1 p2 p3. unfold Canvas.DrawRectangle.
  destruct (NewSubPath_ok c Hc) as (c0 & H0 & Hc0). rewrite H0. cbn [mbind outcome_bind].
  destruct (MoveTo_ok c0 x y Hc0) as (c1 & H1 & Hc1). rewrite H1. cbn [mbind outcome_bind].
  destruct (LineTo_ok c1 (x + w) y Hc1) as (c2 & H2 & Hc2). rewrite H2.
  cbn [mbind outcome_bind].
  destruct (LineTo_ok c2 (x + w) (y + h) Hc2) as (c3 & H3 & Hc3). rewrite H3.
  cbn [mbind outcome_bind].
  destruct (LineTo_ok c3 x (y + h) Hc3) as (c4 & H4 & Hc4). rewrite H4.
  cbn [mbind outcome_bind].
  destruct (ClosePath_ok c4 Hc4) as (c5 & H5 & Hc5). exists c5. split; [exact H5|].
  destruct (NewSubPath_stroke _ _ H0) as [S0 _].
  pose proof (NewSubPath_kept _ _ H0) as K0.
  pose proof (MoveTo_stroke _ _ _ _ H1) as S1.
  destruct (MoveTo_cursor _ _ _ _ H1) as (St1 & _ & Hh1).
  pose proof (MoveTo_kept _ _ _ _ H1) as K1.
  pose proof (LineTo_stroke _ _ _ _ H2 Hh1) as S2.
  destruct (LineTo_cursor _ _ _ _ H2 Hh1) as (St2 & _ & Hh2).
  pose proof (LineTo_kept _ _ _ _ H2) as K2.
  pose proof (LineTo_stroke _ _ _ _ H3 Hh2) as S3.
  destruct (LineTo_cursor _ _ _ _ H3 Hh2) as (St3 & _ & Hh3).
  pose proof (LineTo_kept _ _ _ _ H3) as K3.
  pose proof (LineTo_stroke _ _ _ _ H4 Hh3) as S4.
  destruct (LineTo_cursor _ _ _ _ H4 Hh3) as (St4 & _ & Hh4).
  assert (start c4 = Some (corner x y)) as St.
  { rewrite St4, St3, St2, St1. unfold corner. now rewrite (transformed_kept _ _ _ K0). }
  destruct (ClosePath_stroke _ _ _ H5 Hh4 St) as (S5 & St5 & Cu5 & Hh5).
  repeat split; try assumption.
  rewrite S5, S4, S3, S2, S1, S0.
  rewrite (transformed_kept c c3), (transformed_kept c c2), (transformed_kept c c1),
    (transformed_kept c c0) by congruence.
  unfold Path_Add1, Path_Start. rewrite <- !app_assoc. reflexivity.
Qed.

Lemma ClearPath_then_LineTo c x y :
  let v := transformed c (NewVector x y) in
  ∃ c2, Canvas.LineTo (Canvas.ClearPath c) x y = Ok c2
        ∧ strokePath c2 = [0; PX (Vector.Fixed v); PY (Vector.Fixed v); 0]
        ∧ fillPath c2 = [0; PX (Vector.Fixed v); PY (Vector.Fixed v); 0]
        ∧ start c2 = Some v ∧ current c2 = Some v.
Proof.
  unfold Canvas.LineTo, Canvas.MoveTo, transformed, Canvas.TransformPoint.
  cbn [Canvas.ClearPath hasCurrent set_hasCurrent negb mbind outcome_bind matrix
       set_fillPath set_strokePath X Y].
  destruct (Matrix.TransformPoint (matrix c) x y) as [tx ty].
  eexists. split; [reflexivity|]. cbn. repeat split.
Qed.

(** X10: [Fill] and [Stroke] clear the programs and the has-current flag, so
    what is drawn next does not continue the old path: a [LineTo] made right
    after either of them returns and leaves two programs that hold a single
    start command, at its own point. *)
Theorem drawing_after_Fill_or_Stroke_starts_afresh (c c1 : Canvas) (x y : float) :
  let v := transformed c (NewVector x y) in
  let afresh :=
    ∃ c2, Canvas.LineTo c1 x y = Ok c2
          ∧ strokePath c2 = [0; PX (Vector.Fixed v); PY (Vector.Fixed v); 0]
          ∧ fillPath c2 = [0; PX (Vector.Fixed v); PY (Vector.Fixed v); 0]
          ∧ start c2 = Some v ∧ current c2 = Some v in
  (∀ r r1 req, Render.Fill c r = Ok (c1, r1, req) → afresh)
  ∧ (∀ fuel r r1 req, Render.Stroke fuel c r = Ok (c1, r1, req) → afresh).
Proof.
  intros v afresh. split.
  - intros r r1 req Hf. unfold Render.Fill in Hf. unbind. destruct a as [r' req'].
    apply Ok_inj in Hf. injection Hf as <- _ _. apply ClearPath_then_LineTo.
  - intros fuel r r1 req Hf. unfold Render.Stroke in Hf. unbind. destruct a as [r' req'].
    apply Ok_inj in Hf. injection Hf as <- _ _. apply ClearPath_then_LineTo.
Qed.
End Programs.

Lemma DrawRectangle_outline_witness :
  ∃ c', Canvas.DrawRectangle (Canvas.Translate (NewCanvas 2%positive 2 2) 3 4) 0 0 2 1
        = Ok c'
        ∧ strokePath c'
          = [0; 192; 256; 0] ++ [1; 320; 256; 1] ++ [1; 320; 320; 1]
              ++ [1; 192; 320; 1] ++ [1; 192; 256; 1]
        ∧ start c' = Some (NewVector 3 4) ∧ current c' = Some (NewVector 3 4)
        ∧ hasCurrent c' = true.
Proof.
  exact (DrawRectangle_outline (Canvas.Translate (NewCanvas 2%positive 2 2) 3 4)
           0 0 2 1 eq_refl).
Defined.

(** ** What is stroked is filled *)

Section Filled.
Context `{Externals}.

Lemma MoveTo_filled c x y c' : Canvas.MoveTo c x y = Ok c' → filled c → filled c'.
Proof.
  unfold Canvas.MoveTo, filled. intros Hm Hf. unbind.
  assert (sublist (strokePath a) (fillPath a)) as Ha'.
  { destruct (hasCurrent c); unbind; subst; [|exact Hf].
    simpl. now apply sublist_inserts_r. }
  destruct (Canvas.TransformPoint a x y) as [tx ty]. unbind. subst c'. simpl.
  apply sublist_app; [exact Ha' | reflexivity].
Qed.

Lemma LineTo_filled c x y c' : Canvas.LineTo c x y = Ok c' → filled c → filled c'.
Proof.
  unfold Canvas.LineTo. destruct (negb (hasCurrent c)); [apply MoveTo_filled|].
  destruct (Canvas.TransformPoint c x y). intros Hm Hf. unbind. subst c'.
  unfold filled. simpl. apply sublist_app; [exact Hf | reflexivity].
Qed.

Lemma QuadraticTo_filled c x1 y1 x2 y2 c' :
  Canvas.QuadraticTo c x1 y1 x2 y2 = Ok c' → filled c → filled c'.
Proof.
  unfold Canvas.QuadraticTo. intros Hm Hf. unbind.
  assert (filled a) as Ha'.
  { destruct (negb (hasCurrent c)); [eapply MoveTo_filled; eassumption|].
    unbind. now subst. }
  destruct (Canvas.TransformPoint a x1 y1), (Canvas.TransformPoint a x2 y2).
  unbind. subst c'. unfold filled. simpl. apply sublist_app; [exact Ha' | reflexivity].
Qed.

Lemma cubicPoints_filled points :
  ∀ previous c, filled c → filled (Canvas.cubicPoints points previous c).
Proof.
  induction points as [|p rest IH]; intros previous c Hf; simpl; [exact Hf|].
  destruct (Point26_6_eqb _ _); apply IH; [exact Hf|].
  unfold filled. simpl. apply sublist_app; [exact Hf | reflexivity].
Qed.

Lemma CubicTo_filled c x1 y1 x2 y2 x3 y3 c' :
  Canvas.CubicTo c x1 y1 x2 y2 x3 y3 = Ok c' → filled c → filled c'.
Proof.
  unfold Canvas.CubicTo. intros Hm Hf. unbind.
  assert (filled a) as Ha'.
  { destruct (negb (hasCurrent c)); [eapply MoveTo_filled; eassumption|].
    unbind. now subst. }
  destruct (Canvas.TransformPoint a x1 y1), (Canvas.TransformPoint a x2 y2),
    (Canvas.TransformPoint a x3 y3).
  unbind. destruct a1; unbind. subst c'. now apply cubicPoints_filled.
Qed.

Lemma ClosePath_filled c c' : Canvas.ClosePath c = Ok c' → filled c → filled c'.
Proof.
  unfold Canvas.ClosePath, filled. destruct (hasCurrent c); intros Hm Hf; unbind;
    subst; [|exact Hf].
  simpl. apply sublist_app; [exact Hf | reflexivity].
Qed.

Lemma NewSubPath_filled c c' : Canvas.NewSubPath c = Ok c' → filled c → filled c'.
Proof.
  unfold Canvas.NewSubPath, filled. intros Hm Hf. unbind. subst c'. simpl.
  destruct (hasCurrent c); unbind; subst; [|exact Hf].
  simpl. now apply sublist_inserts_r.
Qed.

Lemma through_filled c f h h' :
  (∀ a a', f a = Ok a' → filled a → filled a') →
  stroked_is_filled c h → through c f h = Ok h' → stroked_is_filled c h'.
Proof.
  intros Hf Hs Ht. unfold through in Ht. unbind. subst h'.
  apply deref_Ok in Ha. intros cv. rewrite lookup_insert_eq. intros [= <-].
  eapply Hf; [exact Ha0|]. now apply Hs.
Qed.

Lemma call_filled c k h h' :
  stroked_is_filled c h → call c k h = Ok h' → stroked_is_filled c h'.
Proof.
  intros Hs. destruct k; simpl;
    try (apply through_filled; [|exact Hs]; intros a a' [= <-]; exact id).
  - apply through_filled; [|exact Hs]. intros a a' [= <-].
    unfold Canvas.SetFillStyle. now destruct pattern.
  - apply through_filled; [|exact Hs]. intros ? ?. apply MoveTo_filled.
  - apply through_filled; [|exact Hs]. intros ? ?. apply LineTo_filled.
  - apply through_filled; [|exact Hs]. intros ? ?. apply QuadraticTo_filled.
  - apply through_filled; [|exact Hs]. intros ? ?. apply CubicTo_filled.
  - apply through_filled; [|exact Hs]. intros ? ?. apply ClosePath_filled.
  - apply through_filled; [|exact Hs]. intros a a' [= <-] _. constructor.
  - apply through_filled; [|exact Hs]. intros ? ?. apply NewSubPath_filled.
  - apply through_filled; [|exact Hs]. intros a a' Hm.
    match type of Hm with context [deref ?o] => destruct o as [m|]; [|discriminate Hm] end.
    apply Ok_inj in Hm as <-. unfold Canvas.SetMask. now destruct (negb _).
  - apply through_filled; [|exact Hs]. intros a a' [= <-].
    unfold Canvas.InvertMask. now destruct (mask a).
  - unfold Push. intros Hp. unbind. subst h'. apply deref_Ok in Ha.
    intros cv. rewrite lookup_insert_eq. intros [= <-]. exact (Hs a Ha).
  - unfold Pop. intros Hp. unbind. subst h'. apply deref_Ok in Ha.
    intros cv. rewrite lookup_insert_eq. intros [= <-]. exact (Hs a Ha).
Qed.

(** X11: every command of the stroke program is also in the fill program,
    in the same order: the fill program is the stroke program with closing
    lines put in.  Whatever calls are made on a canvas (setters, path
    building, clearing, clip, transforms, [Push] and [Pop]), this goes on
    holding if it held before, as it does on a new canvas. *)
Theorem stroke_program_within_fill_program (c : ptr) (script : list Call)
    (h h' : heap) :
  stroked_is_filled c h → run c script h = Ok h' → stroked_is_filled c h'.
Proof.
  revert h. induction script as [|k rest IH]; simpl; intros h Hs Hr.
  - now apply Ok_inj in Hr as <-.
  - unbind. eapply IH; [|exact Hr]. eapply call_filled; eassumption.
Qed.
End Filled.

Lemma stroke_program_within_fill_program_witness :
  ∃ h' cv, @run sample 1%positive sample_script fresh_heap = Ok h'
           ∧ h' !! 1%positive = Some cv
           ∧ sublist (strokePath cv) (fillPath cv)
           ∧ strokePath cv ≠ fillPath cv.
Proof.
  destruct (@run sample 1%positive sample_script fresh_heap) as [h'| |] eqn:Hr;
    [|vm_compute in Hr; discriminate Hr..].
  assert (stroked_is_filled 1%positive fresh_heap) as Hs.
  { intros cv [= <-]. constructor. }
  pose proof (@stroke_program_within_fill_program sample 1%positive sample_script
                fresh_heap h' Hs Hr) as Hf.
  vm_compute in Hr. apply Ok_inj in Hr. subst h'.
  eexists _, _. split; [reflexivity|]. split; [reflexivity|].
  split; [apply Hf; reflexivity|]. vm_compute. discriminate.
Defined.

(** ** flattenPath *)

Section Flatten.
Context `{Externals}.

Lemma CreateQuadraticBezier_outcome x0 y0 x1 y1 x2 y2 :
  (∃ p rest, CreateQuadraticBezier x0 y0 x1 y1 x2 y2 = Ok (p :: rest))
  ∨ CreateQuadraticBezier x0 y0 x1 y1 x2 y2 = Panic MakeSliceLen.
Proof.
  unfold CreateQuadraticBezier, make_len.
  set (n := pointCount _). destruct (2 ^ 45 <? n); [now right|]. left. simpl.
  assert (4 <= n) by (unfold n; rewrite pointCount_round; lia).
  destruct (Z.to_nat n) as [|k] eqn:Ek; [lia|]. simpl. eauto.
Qed.

Lemma index_decoded {A B} (s : list A) (i : nat) (k : A → outcome B) :
  (∀ a, decoded (k a)) → decoded (index s i ≫= k).
Proof.
  intros Hk. unfold index. destruct (s !! i); simpl; [apply Hk | now left].
Qed.

Lemma flattenLoop_decoded fuel :
  ∀ p i result path cx cy,
    (length p <= i + fuel)%nat → decoded (flattenLoop fuel p i result path cx cy).
Proof.
  induction fuel as [|fuel IH]; intros p i result path cx cy Hlen.
  - simpl. destruct (Nat.ltb_spec i (length p)); [lia | exact I].
  - simpl. destruct (Nat.ltb_spec i (length p)); [|exact I]. simpl.
    apply index_decoded. intros tag.
    destruct (tag =? 0).
    { destruct (flush result path) as [result' path'].
      do 2 (apply index_decoded; intros ?). apply IH. lia. }
    destruct (tag =? 1).
    { do 2 (apply index_decoded; intros ?). apply IH. lia. }
    destruct (tag =? 2).
    { do 4 (apply index_decoded; intros ?).
      destruct (CreateQuadraticBezier_outcome cx cy (Unfix a) (Unfix a0) (Unfix a1)
                  (Unfix a2)) as [(q & rest & ->)| ->]; simpl; [apply IH; lia | auto]. }
    destruct (tag =? 3).
    { do 6 (apply index_decoded; intros ?).
      destruct (CreateCubicBezier_outcome cx cy (Unfix a) (Unfix a0) (Unfix a1)
                  (Unfix a2) (Unfix a3) (Unfix a4)) as [(q & rest & ->)| ->];
        simpl; [apply IH; lia | auto]. }
    simpl. auto.
Qed.

(** X12: [flattenPath] ends on every program, well formed or not, and never
    follows a nil pointer: it returns the polylines, or panics with an index
    out of range (a command cut short), with "bad path" (a tag that is none
    of 0, 1, 2, 3) or on a curve too long to allocate. *)
Theorem flattenPath_ends (p : Path) : decoded (flattenPath p).
Proof. apply flattenLoop_decoded. lia. Qed.
End Flatten.

Section Decode.
Context `{Externals}.

Lemma lookup_after {A} (pre q : list A) (k : nat) :
  (pre ++ q) !! (length pre + k)%nat = q !! k.
Proof. rewrite lookup_app_r by lia. f_equal. lia. Qed.

Lemma lookup_at {A} (pre q : list A) : (pre ++ q) !! length pre = q !! 0%nat.
Proof. rewrite <- (lookup_after pre q 0). f_equal. lia. Qed.

(** One round of the loop on a start command and on a line command. *)
Lemma flattenLoop_Start fuel pre a t post result path cx cy :
  flattenLoop (S fuel) (pre ++ [0; PX a; PY a; t] ++ post) (length pre) result path cx cy
  = flattenLoop fuel ((pre ++ [0; PX a; PY a; t]) ++ post) (length (pre ++ [0; PX a; PY a; t]))
      (fst (flush result path)) [unfixed a] (Unfix (PX a)) (Unfix (PY a)).
Proof.
  cbn [flattenLoop].
  rewrite (proj2 (Nat.ltb_lt _ _))
    by (rewrite length_app; simpl; lia).
  cbn [negb]. unfold index.
  rewrite lookup_at, !lookup_after.
  cbn [lookup list_lookup app mbind outcome_bind Z.eqb].
  rewrite length_app, <- app_assoc. cbn [length].
  destruct path; reflexivity.
Qed.

Lemma flattenLoop_Add1 fuel pre b t post result path cx cy :
  flattenLoop (S fuel) (pre ++ [1; PX b; PY b; t] ++ post) (length pre) result path cx cy
  = flattenLoop fuel ((pre ++ [1; PX b; PY b; t]) ++ post) (length (pre ++ [1; PX b; PY b; t]))
      result (path ++ [unfixed b]) (Unfix (PX b)) (Unfix (PY b)).
Proof.
  cbn [flattenLoop].
  rewrite (proj2 (Nat.ltb_lt _ _))
    by (rewrite length_app; simpl; lia).
  cbn [negb]. unfold index.
  rewrite lookup_at, !lookup_after.
  cbn [lookup list_lookup app mbind outcome_bind Z.eqb].
  rewrite length_app, <- app_assoc. cbn [length]. reflexivity.
Qed.
Lemma fold_Add1 (rest : list Point26_6) :
  ∀ p, fold_left Path_Add1 rest p = p ++ flat_map (λ b, [1; PX b; PY b; 1]) rest.
Proof.
  induction rest as [|b rest IH]; intros p; simpl; [now rewrite app_nil_r|].
  rewrite IH. unfold Path_Add1. now rewrite <- app_assoc.
Qed.

Lemma polyline_app (p : Path) (poly : list Point26_6) :
  polyline p poly = p ++ polyline [] poly.
Proof.
  destruct poly as [|a rest]; simpl; [now rewrite app_nil_r|].
  rewrite !fold_Add1. unfold Path_Start. simpl. now rewrite <- app_assoc.
Qed.

Lemma polylines_from (polys : list (list Point26_6)) :
  ∀ p, fold_left polyline polys p = p ++ polylines polys.
Proof.
  unfold polylines. induction polys as [|poly polys IH]; intros p; simpl.
  - now rewrite app_nil_r.
  - rewrite IH, (IH (polyline [] poly)), (polyline_app p), <- app_assoc. reflexivity.
Qed.

(** The rounds of the loop on the line commands of one polyline. *)
Lemma flattenLoop_Add1s (rest : list Point26_6) :
  ∀ pre post fuel result path cx cy,
    ∃ cx' cy',
      flattenLoop (length rest + fuel)
        (pre ++ flat_map (λ b, [1; PX b; PY b; 1]) rest ++ post) (length pre)
        result path cx cy
      = flattenLoop fuel
          ((pre ++ flat_map (λ b, [1; PX b; PY b; 1]) rest) ++ post)
          (length (pre ++ flat_map (λ b, [1; PX b; PY b; 1]) rest))
          result (path ++ map unfixed rest) cx' cy'.
Proof.
  induction rest as [|b rest IH]; intros pre post fuel result path cx cy.
  - exists cx, cy. simpl. now rewrite !app_nil_r.
  - cbn [flat_map length Nat.add map]. rewrite <- (app_assoc [1; PX b; PY b; 1]).
    rewrite flattenLoop_Add1.
    destruct (IH (pre ++ [1; PX b; PY b; 1]) post fuel result (path ++ [unfixed b])
                (Unfix (PX b)) (Unfix (PY b))) as (cx' & cy' & Hrest).
    exists cx', cy'. rewrite Hrest.
    rewrite <- (app_assoc pre [1; PX b; PY b; 1]), <- (app_assoc path [unfixed b]).
    reflexivity.
Qed.

Lemma flattenLoop_polylines (polys : list (list Point26_6)) :
  ∀ pre fuel result path cx cy,
    (length (concat polys) <= fuel)%nat →
    flattenLoop fuel (pre ++ polylines polys) (length pre) result path cx cy
    = Ok (fst (flush result path) ++ map (map unfixed) (filter has_points polys)).
Proof.
  induction polys as [|poly polys IH]; intros pre fuel result path cx cy Hfuel.
  - unfold polylines. simpl. rewrite !app_nil_r.
    destruct fuel; simpl; now rewrite Nat.ltb_irrefl.
  - unfold polylines. cbn [fold_left]. rewrite polylines_from.
    destruct poly as [|a rest].
    + simpl. apply IH. exact Hfuel.
    + cbn [polyline]. rewrite fold_Add1. unfold Path_Start. cbn [app].
      simpl in Hfuel. rewrite length_app in Hfuel.
      assert (∃ f, fuel = S (length rest + f) ∧ (length (concat polys) <= f)%nat)
        as (f & -> & Hf) by (exists (fuel - S (length rest))%nat; lia).
      etransitivity; [exact (flattenLoop_Start _ pre a 0 _ result path cx cy)|].
      destruct (flattenLoop_Add1s rest (pre ++ [0; PX a; PY a; 0]) (polylines polys)
                  f (fst (flush result path)) [unfixed a]
                  (Unfix (PX a)) (Unfix (PY a))) as (cx' & cy' & Hrest).
      etransitivity; [exact Hrest|]. rewrite IH by exact Hf.
      cbn [filter has_points map app flush fst]. rewrite <- app_assoc. reflexivity.
Qed.

Lemma flattenPath_polylines (polys : list (list Point26_6)) :
  flattenPath (polylines polys)
  = Ok (map (map unfixed) (filter has_points polys)).
Proof.
  unfold flattenPath.
  apply (flattenLoop_polylines polys [] (length (polylines polys)) [] [] 0 0)%float.
  induction polys as [|poly polys IH]; [simpl; lia|].
  unfold polylines. cbn [fold_left concat]. rewrite polylines_from, !length_app.
  destruct poly as [|a rest]; [simpl in *; lia|].
  cbn [polyline]. rewrite fold_Add1, length_app. unfold Path_Start.
  assert (∀ l : list Point26_6,
            length (flat_map (λ b, [1; PX b; PY b; 1]) l) = (4 * length l)%nat) as ->.
  { clear. induction l; simpl in *; lia. }
  simpl. lia.
Qed.

(** X13: the programs that have start and line commands only are read back
    as they were written: [flattenPath] returns on the program of any list
    of polylines, with one polyline for each one that has a point, made of
    its points decoded in order. *)
Theorem flattenPath_reads_back_polylines (polys : list (list Point26_6)) :
  flattenPath (polylines polys)
  = Ok (map (map unfixed) (filter has_points polys)).
Proof. apply flattenPath_polylines. Qed.
End Decode.

(** ** rasterPath and what follows it *)

Section RasterOut.
Context `{Externals}.

Lemma rasterPoints_start (p : Vector) (rest : list Vector) (previous : Point26_6)
    (result : Path) :
  rasterPoints (p :: rest) 0 previous result
  = rasterPoints rest 1 (Vector.Fixed p) (Path_Start result (Vector.Fixed p)).
Proof. unfold rasterPoints at 1. fold rasterPoints. reflexivity. Qed.

Lemma rasterPoints_lines (points : list Vector) :
  ∀ i previous result,
    ∃ ks, rasterPoints points (S i) previous result = fold_left Path_Add1 ks result
          ∧ (length ks <= length points)%nat.
Proof.
  induction points as [|p rest IH]; intros i previous result.
  - exists []. split; [reflexivity | simpl; lia].
  - rewrite rasterPoints_next.
    destruct (8 <? _).
    + destruct (IH (S i) (Vector.Fixed p) (Path_Add1 result (Vector.Fixed p)))
        as (ks & -> & Hlen).
      exists (Vector.Fixed p :: ks). split; [reflexivity | simpl; lia].
    + destruct (IH (S i) (Vector.Fixed p) result) as (ks & -> & Hlen).
      exists ks. split; [reflexivity | simpl; lia].
Qed.

Lemma rasterPoints_polyline (path : list Vector) (previous : Point26_6) (result : Path) :
  ∃ poly, rasterPoints path 0 previous result = polyline result poly
          ∧ has_points poly = has_points path
          ∧ head poly = Vector.Fixed <$> head path
          ∧ (length poly <= length path)%nat.
Proof.
  destruct path as [|p rest].
  - exists []. repeat split. simpl. lia.
  - rewrite rasterPoints_start.
    destruct (rasterPoints_lines rest 0 (Vector.Fixed p)
                (Path_Start result (Vector.Fixed p))) as (ks & -> & Hlen).
    exists (Vector.Fixed p :: ks). repeat split. simpl. lia.
Qed.

Lemma rasterPath_polylines (paths : list (list Vector)) :
  ∃ polys,
    rasterPath paths = polylines polys
    ∧ Forall2 (λ poly path, has_points poly = has_points path
                            ∧ head poly = Vector.Fixed <$> head path
                            ∧ (length poly <= length path)%nat) polys paths.
Proof.
  unfold rasterPath, polylines. generalize (@nil Z) as result.
  induction paths as [|path paths IH]; intros result.
  - exists []. split; [reflexivity | constructor].
  - cbn [fold_left].
    destruct (rasterPoints_polyline path {| PX := 0; PY := 0 |} result)
      as (poly & -> & Hpoly).
    destruct (IH (polyline result poly)) as (polys & -> & Hall).
    exists (poly :: polys). split; [reflexivity | now constructor].
Qed.

(** X14: what [rasterPath] writes, [flattenPath] reads: on the program of
    any polylines the decoding returns, with one polyline for each input
    polyline that has a point; it begins at the pixel of that one's first
    point and has at most as many points. *)
Theorem rasterPath_then_flattenPath (paths : list (list Vector)) :
  ∃ polys,
    flattenPath (rasterPath paths) = Ok polys
    ∧ Forall2 (λ poly path,
                 head poly = (λ v, unfixed (Vector.Fixed v)) <$> head path
                 ∧ (1 <= length poly <= length path)%nat)
        polys (filter has_points paths).
Proof.
  destruct (rasterPath_polylines paths) as (polys & -> & Hall).
  eexists. split; [apply flattenPath_polylines|].
  induction Hall as [|poly path polys paths (Hp & Hhead & Hlen) _ IH]; [constructor|].
  rewrite !filter_cons. rewrite Hp.
  destruct path as [|v path]; [exact IH|].
  destruct poly as [|f poly]; [discriminate|].
  cbn [has_points map]. rewrite !decide_True by exact I.
  cbn [map]. constructor; [|exact IH].
  simpl in Hhead. injection Hhead as ->. split; [reflexivity|].
  simpl in *. rewrite length_map. lia.
Qed.

Lemma rasterPoints_on_grid (points : list Vector) :
  ∀ i previous result,
    on_pixel_grid result = true →
    on_pixel_grid (rasterPoints points i previous result) = true.
Proof.
  induction points as [|p rest IH]; intros i previous result Hr; [exact Hr|].
  destruct i as [|i].
  - rewrite rasterPoints_start. apply IH. now apply Start_on_grid.
  - rewrite rasterPoints_next. apply IH.
    destruct (8 <? _); [now apply Add1_on_grid | exact Hr].
Qed.

Lemma rasterPath_on_grid (paths : list (list Vector)) :
  on_pixel_grid (rasterPath paths) = true.
Proof.
  unfold rasterPath. assert (on_pixel_grid [] = true) as Hnil by reflexivity.
  revert Hnil. generalize (@nil Z) as result.
  induction paths as [|path paths IH]; intros result Hr; [exact Hr|].
  cbn [fold_left]. apply IH. now apply rasterPoints_on_grid.
Qed.

(** X15: whatever the path, the matrix it was built under, the line width
    and the dash pattern, a [stroke] that returns has handed the rasterizer
    exactly one shape, in place of whatever it held: the canvas's line
    width, capper and joiner with a program whose coordinates are all whole
    pixels. *)
Theorem stroke_submits_whole_pixels (fuel : nat) (c : Canvas) (r r' : Rasterizer)
    (p : Painter) (req : Request) :
  Render.stroke fuel c r p = Ok (r', req) →
  ∃ q, geometry req
       = [StrokeShape q (Fix (lineWidth c)) (Render.capper c) (Render.joiner c)]
       ∧ shapes r' = geometry req
       ∧ on_pixel_grid q = true.
Proof.
  unfold Render.stroke. intros Hs. unbind. injection Hs as <- <-.
  exists a. repeat split.
  destruct (0 <? length (dashes c))%nat; unbind; subst a; apply rasterPath_on_grid.
Qed.
End RasterOut.

Lemma stroke_submits_whole_pixels_witness :
  ∃ r' req q,
    @Render.stroke sample 20 dashed_canvas idle_rasterizer AlphaOverPainter = Ok (r', req)
    ∧ geometry req
      = [StrokeShape q (sample_Fix 1) (Some RoundCapper) None]
    ∧ shapes r' = geometry req
    ∧ on_pixel_grid q = true.
Proof.
  destruct (@Render.stroke sample 20 dashed_canvas idle_rasterizer AlphaOverPainter)
    as [[r' req]| |] eqn:Hs; [|vm_compute in Hs; discriminate Hs..].
  destruct (@stroke_submits_whole_pixels sample 20 dashed_canvas idle_rasterizer r'
              AlphaOverPainter req Hs) as (q & Hg & Hsh & Hq).
  exists r', req, q. repeat split; assumption.
Defined.

(** ** dashPath *)

Lemma dashLoop_dashed (fuel : nat) :
  ∀ path dashes previous pathIndex dashIndex segmentLength segment result,
    (dashIndex < length dashes)%nat →
    Forall (λ s, (2 <= length s)%nat) result →
    match dashLoop fuel path dashes previous pathIndex dashIndex segmentLength
            segment result with
    | Ok (result', _, _) => Forall (λ s, (2 <= length s)%nat) result'
    | Panic _ => False
    | OutOfFuel => True
    end.
Proof.
  induction fuel as [|fuel IH];
    intros path dashes previous pathIndex dashIndex segmentLength segment result Hd Hr;
    simpl; destruct (Nat.ltb_spec pathIndex (length path)) as [Hp|Hp]; simpl; trivial.
  unfold index.
  destruct (lookup_lt_is_Some_2 dashes dashIndex Hd) as [dashLength ->].
  destruct (lookup_lt_is_Some_2 path pathIndex Hp) as [point ->]. simpl.
  destruct (_ <? _)%float.
  - apply IH.
    + apply Nat.mod_upper_bound. lia.
    + unfold emits. destruct (Nat.even dashIndex); simpl; [|exact Hr].
      destruct (Nat.ltb_spec 1 (length (segment ++ [Vector.Interpolate previous point
                  ((dashLength - segmentLength) / Vector.Distance previous point)])))
        as [Hl|Hl]; [|exact Hr].
      apply Forall_app. split; [exact Hr|]. repeat constructor. exact Hl.
  - apply IH; assumption.
Qed.

Lemma dashOne_dashed (fuel : nat) (dashes : list float) (result : list (list Vector))
    (path : list Vector) :
  (0 < length dashes)%nat →
  Forall (λ s, (2 <= length s)%nat) result →
  dashed (dashOne fuel dashes result path).
Proof.
  intros Hd Hr. unfold dashOne. destruct path as [|previous [|point rest]]; try exact Hr.
  pose proof (dashLoop_dashed fuel (previous :: point :: rest) dashes previous 1 0 0
                [previous] result Hd Hr) as Hloop.
  destruct (dashLoop _ _ _ _ _ _ _ _ _) as [[[result' dashIndex] segment]| |];
    simpl; trivial.
  unfold emits. destruct (Nat.even dashIndex); simpl; [|exact Hloop].
  destruct (Nat.ltb_spec 1 (length segment)) as [Hl|Hl]; [|exact Hloop].
  apply Forall_app. split; [exact Hloop|]. repeat constructor. exact Hl.
Qed.

Lemma dashAll_dashed (fuel : nat) (dashes : list float) (paths : list (list Vector)) :
  ∀ result,
    (0 < length dashes)%nat →
    Forall (λ s, (2 <= length s)%nat) result →
    dashed (dashAll fuel dashes result paths).
Proof.
  induction paths as [|path paths IH]; intros result Hd Hr; simpl; [exact Hr|].
  pose proof (dashOne_dashed fuel dashes result path Hd Hr) as Hone.
  destruct (dashOne fuel dashes result path) as [result'| |]; simpl; trivial.
  now apply IH.
Qed.

Lemma dashPath_dashed (fuel : nat) (paths : list (list Vector)) (dashes : list float) :
  (0 < length dashes)%nat → dashed (dashPath fuel paths dashes).
Proof.
  intros Hd. unfold dashPath. destruct dashes as [|d0 [|d1 rest]]; [simpl in Hd; lia|..];
    apply dashAll_dashed; simpl; try lia; constructor.
Qed.

(** X16: with a dash pattern that is not empty, [dashPath] never panics
    (no index leaves the pattern or the path), and when it returns, every
    dash it has made has two points or more.  It may not end: that is the
    one other outcome. *)
Theorem dashPath_makes_dashes_of_two_points (fuel : nat) (paths : list (list Vector))
    (dashes : list float) :
  (0 < length dashes)%nat → dashed (dashPath fuel paths dashes).
Proof. apply dashPath_dashed. Qed.

Lemma dashPath_makes_dashes_of_two_points_witness :
  ∃ segments,
    dashPath 20 [[NewVector 0 0; NewVector 16 0]; [NewVector 7 7]] [5; 3]%float
    = Ok segments
    ∧ length segments = 2%nat
    ∧ Forall (λ s, (2 <= length s)%nat) segments.
Proof.
  pose proof (dashPath_makes_dashes_of_two_points 20
                [[NewVector 0 0; NewVector 16 0]; [NewVector 7 7]] [5; 3]%float
                ltac:(simpl; lia)) as Hd.
  destruct (dashPath 20 [[NewVector 0 0; NewVector 16 0]; [NewVector 7 7]] [5; 3]%float)
    as [segments| |] eqn:Hs; [|vm_compute in Hs; discriminate Hs..].
  exists segments. split; [reflexivity|]. split; [|exact Hd].
  vm_compute in Hs. apply Ok_inj in Hs. now subst segments.
Defined.

(** ** Vectors that are written through their pointer *)

Lemma opp_involutive (x : float) : (- - x)%float = x.
Proof.
  apply Prim2SF_inj. rewrite !opp_spec. destruct (Prim2SF x) as [s|s| |s m e]; simpl;
    now rewrite ?negb_involutive.
Qed.

(** X17: [v.PerpendicularWith(v2)] writes [v.X] before it reads [v2.X], so
    with the receiver itself as argument it leaves (-y, -y) where
    [v.Perpendicular()], which saves [v.X] first, leaves (-y, x); with any
    other vector as argument it leaves that one's perpendicular. *)
Theorem PerpendicularWith_itself (s : Vector.store) (v : positive) (r : Vector) :
  s !! v = Some r →
  Vector.PerpendicularWith v v s = Ok (<[v := NewVector (- Y r) (- Y r)]> s)
  ∧ Vector.Perpendicular v s = Ok (<[v := NewVector (- Y r) (X r)]> s)
  ∧ ∀ v2 a, v2 ≠ v → s !! v2 = Some a →
      Vector.PerpendicularWith v v2 s = Ok (<[v := NewVector (- Y a) (X a)]> s).
Proof.
  intros Hv. repeat split.
  - unfold Vector.PerpendicularWith, Vector.setX, Vector.setY, Vector.store in *.
    rewrite Hv. simpl.
    rewrite lookup_insert_eq. simpl. now rewrite insert_insert_eq.
  - unfold Vector.Perpendicular, Vector.setX, Vector.setY, Vector.store in *.
    rewrite Hv. simpl.
    rewrite lookup_insert_eq. simpl. now rewrite insert_insert_eq.
  - intros v2 a Hne Ha.
    unfold Vector.PerpendicularWith, Vector.setX, Vector.setY, Vector.store in *.
    rewrite Ha, Hv. simpl. rewrite (lookup_insert_ne _ v v2) by (intros E; now apply Hne).
    rewrite Ha. simpl.
    rewrite lookup_insert_eq. simpl. now rewrite insert_insert_eq.
Qed.

Lemma PerpendicularWith_itself_witness :
  Vector.PerpendicularWith 1%positive 1%positive store_3_4
  = Ok (<[1%positive := NewVector (-4) (-4)]> store_3_4)
  ∧ Vector.Perpendicular 1%positive store_3_4
    = Ok (<[1%positive := NewVector (-4) 3]> store_3_4).
Proof.
  destruct (PerpendicularWith_itself store_3_4 1%positive (NewVector 3 4)
              ltac:(vm_compute; reflexivity)) as (Hw & Hp & _).
  split; [exact Hw | exact Hp].
Defined.

Lemma Perpendicular_value (s : gmap positive Vector) (v : positive) (r : Vector) :
  s !! v = Some r →
  Vector.Perpendicular v s = Ok (<[v := NewVector (- Y r) (X r)]> s).
Proof.
  intros Hv. unfold Vector.Perpendicular, Vector.setX, Vector.setY, Vector.store in *.
  rewrite Hv. simpl.
  rewrite lookup_insert_eq. simpl. now rewrite insert_insert_eq.
Qed.

(** X18: a quarter turn made twice is [Negative], and made four times gives
    back the store as it was, bit for bit: negation is exact, also on zeros,
    infinities and NaN. *)
Theorem Perpendicular_four_times (s : Vector.store) (v : positive) (r : Vector) :
  s !! v = Some r →
  quarter_turns 2 v s = Vector.Negative v s ∧ quarter_turns 4 v s = Ok s.
Proof.
  intros Hv. cbn [quarter_turns mbind outcome_bind].
  rewrite (Perpendicular_value s v r Hv). cbn [mbind outcome_bind].
  rewrite (Perpendicular_value _ v _ (lookup_insert_eq _ _ _)).
  cbn [X Y mbind outcome_bind].
  split.
  - unfold Vector.Negative, Vector.setX, Vector.setY, Vector.store in *.
    rewrite Hv. simpl. rewrite lookup_insert_eq. simpl. now rewrite !insert_insert_eq.
  - rewrite (Perpendicular_value _ v _ (lookup_insert_eq _ _ _)).
    cbn [X Y mbind outcome_bind].
    rewrite (Perpendicular_value _ v _ (lookup_insert_eq _ _ _)). cbn [X Y].
    unfold Vector.store in *.
    rewrite !insert_insert_eq, !opp_involutive. f_equal. apply insert_id.
    rewrite Hv. now destruct r.
Qed.

Lemma Perpendicular_four_times_witness :
  quarter_turns 2 1%positive store_3_nan = Vector.Negative 1%positive store_3_nan
  ∧ quarter_turns 4 1%positive store_3_nan = Ok store_3_nan.
Proof.
  exact (Perpendicular_four_times store_3_nan 1%positive (NewVector 3 nan)
           ltac:(vm_compute; reflexivity)).
Defined.

(** ** Vectors: the operations that are exact *)

Lemma alike_same (a : float) : alike a a.
Proof. unfold alike. destruct (is_nan a); auto. Qed.

Lemma mul_comm (x y : float) : (x * y)%float = (y * x)%float.
Proof.
  apply Prim2SF_inj. rewrite !mul_spec. unfold SF64mul, SFmul.
  destruct (Prim2SF x) as [sx|sx| |sx mx ex], (Prim2SF y) as [sy|sy| |sy my ey];
    try reflexivity; rewrite (xorb_comm sx sy); try reflexivity.
  now rewrite (Pos.mul_comm mx my), (Z.add_comm ex ey).
Qed.

Lemma add_comm (x y : float) : (x + y)%float = (y + x)%float.
Proof.
  apply Prim2SF_inj. rewrite !add_spec. unfold SF64add, SFadd.
  destruct (Prim2SF x) as [sx|sx| |sx mx ex], (Prim2SF y) as [sy|sy| |sy my ey];
    try reflexivity; try (now destruct sx, sy).
  cbv zeta. now rewrite (Z.min_comm ex ey), Z.add_comm.
Qed.

(** X19: [Add], [Multiply] and [Dot] do not depend on which vector is the
    receiver and which the argument, up to the sign and payload of a NaN: a
    result is a NaN one way round exactly when it is the other way round,
    and when it is not, the two are the same [float64], bit for bit,
    rounding and overflow included. *)
Theorem Add_Multiply_Dot_commute (v v2 : Vector) :
  alike_vectors (Vector.Add v v2) (Vector.Add v2 v)
  ∧ alike_vectors (Vector.Multiply v v2) (Vector.Multiply v2 v)
  ∧ alike (Vector.Dot v v2) (Vector.Dot v2 v).
Proof.
  unfold alike_vectors, Vector.Add, Vector.Multiply, Vector.Dot. cbn [X Y].
  rewrite (add_comm (X v)), (add_comm (Y v)), (mul_comm (X v)), (mul_comm (Y v)).
  repeat split; apply alike_same.
Qed.

Lemma binary_round_aux_sign (s : bool) (m e : Z) (l : location) :
  binary_round_aux prec emax (negb s) m e l = SFopp (binary_round_aux prec emax s m e l).
Proof.
  unfold binary_round_aux.
  destruct (shr_fexp prec emax m e l) as [mrs' e'].
  destruct (shr_fexp prec emax _ e' loc_Exact) as [mrs'' e''].
  destruct (shr_m mrs''); try reflexivity. now destruct (e'' <=? emax - prec).
Qed.

Lemma binary_round_sign (s : bool) (m : positive) (e : Z) :
  binary_round prec emax (negb s) m e = SFopp (binary_round prec emax s m e).
Proof.
  unfold binary_round. destruct (shl_align m e _) as [mz ez].
  apply binary_round_aux_sign.
Qed.

Lemma binary_normalize_opp (m e : Z) :
  m ≠ 0 →
  binary_normalize prec emax (- m) e false = SFopp (binary_normalize prec emax m e false).
Proof.
  destruct m as [|p|p]; [congruence|..]; intros _; simpl.
  - apply (binary_round_sign false).
  - apply (binary_round_sign true).
Qed.

(** The two differences of two floats are opposite, or both a zero. *)
Lemma sub_swap (a b : float) :
  Prim2SF (b - a) = SFopp (Prim2SF (a - b))
  ∨ (Zero (a - b) ∧ Zero (b - a)).
Proof.
  unfold Zero. rewrite !sub_spec. unfold SF64sub, SFsub.
  destruct (Prim2SF a) as [sa|sa| |sa ma ea], (Prim2SF b) as [sb|sb| |sb mb eb];
    try (left; reflexivity); try (left; now destruct sa, sb);
    try (left; simpl; now rewrite ?negb_involutive).
  - right. destruct sa, sb; eauto.
  - cbv zeta. rewrite (Z.min_comm eb ea).
    set (A := cond_Zopp sa (Z.pos (shl_align ma ea (ea `min` eb)).1)).
    set (B := cond_Zopp sb (Z.pos (shl_align mb eb (ea `min` eb)).1)).
    destruct (Z.eq_dec (A - B) 0) as [E|E].
    + right. replace (B - A) with 0 by lia. rewrite E. simpl. eauto.
    + left. replace (B - A) with (- (A - B)) by lia. now apply binary_normalize_opp.
Qed.

Lemma square_opp (d d' : float) :
  Prim2SF d' = SFopp (Prim2SF d) ∨ (Zero d ∧ Zero d') →
  (d' * d')%float = (d * d)%float.
Proof.
  intros Hd. apply Prim2SF_inj. rewrite !mul_spec. unfold SF64mul, SFmul.
  destruct Hd as [->|[[s ->] [s' ->]]].
  - destruct (Prim2SF d) as [s|s| |s m e]; simpl; try reflexivity;
      now destruct s.
  - now destruct s, s'.
Qed.

(** X20: [Distance] is symmetric up to the sign and payload of a NaN: the
    distance from [v] to [v2] is a NaN exactly when that from [v2] to [v]
    is, and when it is not, the two are the same [float64], bit for bit.
    The two differences are opposite (or both zero), and so their squares
    agree. *)
Theorem Distance_symmetric (v v2 : Vector) :
  alike (Vector.Distance v v2) (Vector.Distance v2 v).
Proof.
  unfold Vector.Distance. cbv zeta.
  rewrite (square_opp _ _ (sub_swap (X v2) (X v))),
    (square_opp _ _ (sub_swap (Y v2) (Y v))).
  apply alike_same.
Qed.

Lemma Zero_square (x : float) : Zero x → (x * x)%float = 0%float.
Proof.
  intros [s Hx]. apply Prim2SF_inj. rewrite mul_spec, Hx. now destruct s.
Qed.

Lemma Zero_mul_infinity (x : float) : Zero x → (x * infinity)%float = nan.
Proof.
  intros [s Hx]. apply Prim2SF_inj. rewrite mul_spec, Hx. reflexivity.
Qed.

(** X21: the zero vector has no direction, and the code does not look: its
    [Unit] is 1/0, the positive infinity, and [Normalize] leaves both its
    coordinates NaN. *)
Theorem Normalize_zero_vector (s : Vector.store) (v : positive) (r : Vector) :
  s !! v = Some r → Zero (X r) → Zero (Y r) →
  Vector.Unit r = infinity
  ∧ Vector.Normalize v s = Ok (<[v := NewVector nan nan]> s).
Proof.
  intros Hv Hx Hy.
  assert (Vector.Unit r = infinity) as Hu.
  { unfold Vector.Unit. now rewrite (Zero_square _ Hx), (Zero_square _ Hy). }
  split; [exact Hu|].
  unfold Vector.Normalize, Vector.setX, Vector.setY, Vector.store in *.
  rewrite Hv. cbn [deref mbind outcome_bind]. rewrite Hu, lookup_insert_eq.
  cbn [deref mbind outcome_bind X Y].
  now rewrite insert_insert_eq, (Zero_mul_infinity _ Hx), (Zero_mul_infinity _ Hy).
Qed.

Lemma Normalize_zero_vector_witness :
  Vector.Unit (NewVector 0 (-0)) = infinity
  ∧ Vector.Normalize 1%positive (<[1%positive := NewVector 0 (-0)]> store_3_4)
    = Ok (<[1%positive := NewVector nan nan]>
            (<[1%positive := NewVector 0 (-0)]> store_3_4)).
Proof.
  apply (Normalize_zero_vector _ 1%positive (NewVector 0 (-0))).
  - vm_compute. reflexivity.
  - now exists false.
  - now exists true.
Defined.

(** ** Matrices: what is exact *)

(** Rounding never makes a NaN out of a mantissa that is not negative. *)
Lemma shr_1_nonneg (mrs : shr_record) : 0 <= shr_m mrs → 0 <= shr_m (shr_1 mrs).
Proof. destruct mrs as [[|[p|p|]|p] r s]; simpl; lia. Qed.

Lemma shr_nonneg (mrs : shr_record) (e n : Z) :
  0 <= shr_m mrs → 0 <= shr_m (fst (shr mrs e n)).
Proof.
  intros Hm. unfold shr. destruct n as [|p|p]; simpl; try exact Hm.
  rewrite iter_pos_iter. apply Pos.iter_invariant; [|exact Hm].
  intros x. apply shr_1_nonneg.
Qed.

Lemma shr_fexp_nonneg (m e : Z) (l : location) :
  0 <= m → 0 <= shr_m (fst (shr_fexp prec emax m e l)).
Proof.
  intros Hm. unfold shr_fexp. apply shr_nonneg. now destruct l as [|[]].
Qed.

Lemma binary_round_aux_not_nan (s : bool) (m e : Z) (l : location) :
  0 <= m → binary_round_aux prec emax s m e l ≠ S754_nan.
Proof.
  intros Hm. unfold binary_round_aux.
  pose proof (shr_fexp_nonneg m e l Hm) as H1.
  destruct (shr_fexp prec emax m e l) as [mrs' e']. simpl in H1.
  assert (0 <= round_nearest_even (shr_m mrs') (loc_of_shr_record mrs')) as H2.
  { unfold round_nearest_even. destruct (loc_of_shr_record mrs') as [|[]];
      try destruct (Z.even _); lia. }
  pose proof (shr_fexp_nonneg _ e' loc_Exact H2) as H3.
  destruct (shr_fexp prec emax _ e' loc_Exact) as [mrs'' e'']. simpl in H3.
  destruct (shr_m mrs''); [discriminate | | lia].
  destruct (e'' <=? emax - prec); discriminate.
Qed.

Lemma binary_normalize_not_nan (m e : Z) (szero : bool) :
  binary_normalize prec emax m e szero ≠ S754_nan.
Proof.
  destruct m as [|p|p]; simpl; [discriminate|..]; unfold binary_round;
    destruct (shl_align p e _) as [mz ez]; apply binary_round_aux_not_nan; lia.
Qed.

Lemma add_not_nan (x y : float) :
  is_finite x = true → is_finite y = true → Prim2SF (x + y) ≠ S754_nan.
Proof.
  rewrite !is_finite_SF, add_spec. unfold SF64add, SFadd.
  destruct (Prim2SF x) as [sx|sx| |sx mx ex], (Prim2SF y) as [sy|sy| |sy my ey];
    try discriminate; intros _ _.
  - now destruct sx, sy.
  - apply binary_normalize_not_nan.
Qed.

Lemma mul_not_nan (x y : float) :
  is_finite x = true → is_finite y = true → Prim2SF (x * y) ≠ S754_nan.
Proof.
  rewrite !is_finite_SF, mul_spec. unfold SF64mul, SFmul.
  destruct (Prim2SF x) as [sx|sx| |sx mx ex], (Prim2SF y) as [sy|sy| |sy my ey];
    try discriminate; intros _ _.
  apply binary_round_aux_not_nan. lia.
Qed.

(** Go's [==] holds between a float that is not NaN and itself. *)
Lemma eqb_refl_not_nan (x : float) : Prim2SF x ≠ S754_nan → (x =? x)%float = true.
Proof.
  rewrite FloatAxioms.eqb_spec. destruct (Prim2SF x) as [s|s| |s m e]; intros Hx.
  - reflexivity.
  - now destruct s.
  - congruence.
  - apply SFeqb_refl_finite.
Qed.

Lemma Zero_eqb (x y : float) : Zero x → Zero y → (x =? y)%float = true.
Proof. intros [sx Hx] [sy Hy]. now rewrite FloatAxioms.eqb_spec, Hx, Hy. Qed.

(** What stands for [x] can take its place in a sum. *)
Lemma stands_add_eqb (x r t : float) :
  is_finite x = true → is_finite t = true → stands_for x r →
  (r + t =? x + t)%float = true.
Proof.
  intros Hx Ht [[Hzx Hzr]|[_ ->]].
  - destruct (is_finite_cases t Ht) as [Hzt|(s & m & e & Et & _)].
    + apply Zero_eqb; now apply Zero_add.
    + rewrite (Zero_add_l r t s m e Hzr Et), (Zero_add_l x t s m e Hzx Et).
      rewrite FloatAxioms.eqb_spec, Et. apply SFeqb_refl_finite.
  - apply eqb_refl_not_nan. now apply add_not_nan.
Qed.

(** A zero added to a float that is not NaN stands for that float. *)
Lemma plus_zero_stands (p z : float) :
  Prim2SF p ≠ S754_nan → Zero z → stands_for p (p + z).
Proof.
  intros Hp [sz Hz]. unfold stands_for, Zero.
  destruct (Prim2SF p) as [s|s| |s m e] eqn:Ep.
  - left. split; [eauto|]. rewrite add_spec, Ep, Hz. destruct s, sz; simpl; eauto.
  - right. split; [intros [? [=]]|]. apply Prim2SF_inj. now rewrite add_spec, Ep, Hz.
  - congruence.
  - right. split; [intros [? [=]]|]. apply Prim2SF_inj. now rewrite add_spec, Ep, Hz.
Qed.

Lemma stands_eqb (x r : float) :
  Prim2SF x ≠ S754_nan → stands_for x r → (r =? x)%float = true.
Proof.
  intros Hx [[Hzx Hzr]|[_ ->]]; [now apply Zero_eqb | now apply eqb_refl_not_nan].
Qed.

Lemma stands_not_nan (x r : float) :
  Prim2SF x ≠ S754_nan → stands_for x r → Prim2SF r ≠ S754_nan.
Proof. intros Hx [[_ [s ->]]|[_ ->]]; [discriminate | exact Hx]. Qed.

Lemma stands_trans (x r q : float) : stands_for x r → stands_for r q → stands_for x q.
Proof.
  intros [[Hzx Hzr]|[Hnx ->]] [[Hzr' Hzq]|[Hnr ->]].
  - now left.
  - now left.
  - contradiction.
  - now right.
Qed.

Section Neutral.
Variable m : Matrix.
Hypothesis Hm : finite_matrix m = true.

Lemma finite_entries :
  is_finite (XX m) = true ∧ is_finite (YX m) = true ∧ is_finite (XY m) = true
  ∧ is_finite (YY m) = true ∧ is_finite (X0 m) = true ∧ is_finite (Y0 m) = true.
Proof.
  unfold finite_matrix in Hm. rewrite !andb_true_iff in Hm. tauto.
Qed.

Lemma weight_1_r (x : float) : is_finite x = true → stands_for x (x * 1).
Proof. intros Hx. rewrite (mul_1_r x Hx). apply stands_for_refl. Qed.

Lemma weight_0_r (y : float) : is_finite y = true → Zero (y * 0).
Proof. intros Hy. apply Zero_mul_r; [exact Hy | exact Zero_0]. Qed.

Lemma Identity_left : Matrix_eqb (Matrix.Multiply Identity m) m = true.
Proof.
  destruct finite_entries as (Hxx & Hyx & Hxy & Hyy & Hx0 & Hy0).
  unfold Matrix_eqb, Matrix.Multiply, Identity. cbn [XX YX XY YY X0 Y0].
  rewrite !andb_true_iff. repeat split; apply stands_for_eqb; trivial.
  - apply stands_add_r; [trivial | now apply weight_1 | now apply weight_0].
  - apply stands_add_r; [trivial | now apply weight_1 | now apply weight_0].
  - apply stands_add_l; [trivial | now apply weight_1 | now apply weight_0].
  - apply stands_add_l; [trivial | now apply weight_1 | now apply weight_0].
  - apply stands_add_l; [trivial | apply stands_for_refl |].
    apply Zero_add; now apply weight_0.
  - apply stands_add_l; [trivial | apply stands_for_refl |].
    apply Zero_add; now apply weight_0.
Qed.

Lemma Identity_right : Matrix_eqb (Matrix.Multiply m Identity) m = true.
Proof.
  destruct finite_entries as (Hxx & Hyx & Hxy & Hyy & Hx0 & Hy0).
  unfold Matrix_eqb, Matrix.Multiply, Identity. cbn [XX YX XY YY X0 Y0].
  rewrite !andb_true_iff. repeat split; apply stands_for_eqb; trivial.
  - apply stands_add_r; [trivial | now apply weight_1_r | now apply weight_0_r].
  - apply stands_add_l; [trivial | now apply weight_1_r | now apply weight_0_r].
  - apply stands_add_r; [trivial | now apply weight_1_r | now apply weight_0_r].
  - apply stands_add_l; [trivial | now apply weight_1_r | now apply weight_0_r].
  - apply stands_add_r; [trivial | | exact Zero_0].
    apply stands_add_r; [trivial | now apply weight_1_r | now apply weight_0_r].
  - apply stands_add_r; [trivial | | exact Zero_0].
    apply stands_add_l; [trivial | now apply weight_1_r | now apply weight_0_r].
Qed.
End Neutral.

(** X22: the identity matrix is neutral for [Multiply] on both sides, up to
    Go's [==] (a zero may come back with the other sign), on every matrix
    whose entries are finite. *)
Theorem Identity_is_neutral (m : Matrix) :
  finite_matrix m = true →
  Matrix_eqb (Matrix.Multiply Identity m) m = true
  ∧ Matrix_eqb (Matrix.Multiply m Identity) m = true.
Proof. intros Hm. split; [now apply Identity_left | now apply Identity_right]. Qed.

Lemma Identity_is_neutral_witness :
  Matrix_eqb (Matrix.Multiply Identity (Matrix.Scale (Translate 3 (-0)) 2 5))
    (Matrix.Scale (Translate 3 (-0)) 2 5) = true
  ∧ Matrix_eqb (Matrix.Multiply (Matrix.Scale (Translate 3 (-0)) 2 5) Identity)
      (Matrix.Scale (Translate 3 (-0)) 2 5) = true.
Proof. apply Identity_is_neutral. vm_compute. reflexivity. Defined.

(** X23: on finite coordinates the three plain transforms are exact up to
    Go's [==]: the identity maps a point to itself, [Translate(tx, ty)] to
    the float sums (x + tx, y + ty), [Scale(sx, sy)] to the float products
    (sx * x, sy * y); the terms with a zero factor cost no rounding. *)
Theorem plain_transforms_are_exact (x y : float) :
  is_finite x = true → is_finite y = true →
  point_eqb (Matrix.TransformPoint Identity x y) (x, y) = true
  ∧ (∀ tx ty, is_finite tx = true → is_finite ty = true →
       point_eqb (Matrix.TransformPoint (Translate tx ty) x y) (x + tx, y + ty)%float
       = true)
  ∧ (∀ sx sy, is_finite sx = true → is_finite sy = true →
       point_eqb (Matrix.TransformPoint (Scale sx sy) x y) (sx * x, sy * y)%float
       = true).
Proof.
  intros Hx Hy. unfold point_eqb, Matrix.TransformPoint, Identity, Translate, Scale.
  cbn [XX YX XY YY X0 Y0 fst snd].
  assert (stands_for x (1 * x + 0 * y)) as Hfirst.
  { apply stands_add_r; [trivial | now apply weight_1 | now apply weight_0]. }
  assert (stands_for y (0 * x + 1 * y)) as Hsecond.
  { apply stands_add_l; [trivial | now apply weight_1 | now apply weight_0]. }
  repeat split.
  - rewrite andb_true_iff. split; apply stands_for_eqb; trivial;
      (apply stands_add_r; [trivial | trivial | exact Zero_0]).
  - intros tx ty Htx Hty. rewrite andb_true_iff. split; now apply stands_add_eqb.
  - intros sx sy Hsx Hsy. rewrite andb_true_iff.
    pose proof (mul_not_nan sx x Hsx Hx) as Hpx.
    pose proof (mul_not_nan sy y Hsy Hy) as Hpy.
    split; apply stands_eqb; trivial.
    + assert (stands_for (sx * x) (sx * x + 0 * y)) as Hs
        by (apply plus_zero_stands; [exact Hpx | now apply weight_0]).
      apply (stands_trans _ _ _ Hs). apply plus_zero_stands; [|exact Zero_0].
      exact (stands_not_nan _ _ Hpx Hs).
    + rewrite (add_comm (0 * x) (sy * y)).
      assert (stands_for (sy * y) (sy * y + 0 * x)) as Hs
        by (apply plus_zero_stands; [exact Hpy | now apply weight_0]).
      apply (stands_trans _ _ _ Hs). apply plus_zero_stands; [|exact Zero_0].
      exact (stands_not_nan _ _ Hpy Hs).
Qed.

Lemma plain_transforms_are_exact_witness :
  point_eqb (Matrix.TransformPoint Identity (-0) 7) (-0, 7)%float = true
  ∧ point_eqb (Matrix.TransformPoint (Translate 0.25 1.5) (-0) 7) (-0 + 0.25, 7 + 1.5)%float
    = true
  ∧ point_eqb (Matrix.TransformPoint (Scale 3 0.25) (-0) 7) (3 * -0, 0.25 * 7)%float = true.
Proof.
  destruct (plain_transforms_are_exact (-0) 7 eq_refl eq_refl) as (Hi & Ht & Hs).
  split; [exact Hi|]. split; [exact (Ht 0.25 1.5 eq_refl eq_refl)%float|].
  exact (Hs 3 0.25 eq_refl eq_refl)%float.
Defined.

(** ** Rendering what the canvas has built *)

Section Renders.
Context `{Externals}.

Lemma drop_lookup {A} (p q : list A) (n k : nat) (x : A) :
  drop n p = q → q !! k = Some x → p !! (n + k)%nat = Some x.
Proof. intros <-. now rewrite lookup_drop. Qed.

Lemma index_at {A B} (p : list A) (i : nat) (x : A) (k : A → outcome B) :
  p !! i = Some x → index p i ≫= k = k x.
Proof. intros Hx. unfold index. now rewrite Hx. Qed.

Lemma coordinates_rest (rest : Path) (f : list Z → list Z) :
  is_Some (cs ← coordinates rest; Some (f cs)) → is_Some (coordinates rest).
Proof. destruct (coordinates rest); simpl; [eauto | intros [? [=]]]. Qed.

Lemma flattenLoop_built fuel :
  ∀ p i result path cx cy,
    (length p <= i + fuel)%nat → is_Some (coordinates (drop i p)) →
    built (flattenLoop fuel p i result path cx cy).
Proof.
  induction fuel as [|fuel IH]; intros p i result path cx cy Hlen Hcs.
  - simpl. destruct (Nat.ltb_spec i (length p)); [lia | exact I].
  - simpl. destruct (Nat.ltb_spec i (length p)) as [Hi|Hi]; [|exact I]. cbn [negb].
    destruct (lookup_lt_is_Some_2 p i Hi) as [tag Htag].
    rewrite (index_at p i tag _ Htag).
    rewrite (drop_S p tag i Htag) in Hcs. cbn [coordinates] in Hcs.
    destruct (drop (S i) p) as [|a rest] eqn:Ed.
    { destruct ((tag =? 0) || (tag =? 1)); [now destruct Hcs|].
      destruct (tag =? 2); [now destruct Hcs|].
      destruct (tag =? 3); now destruct Hcs. }
    assert (∀ k x, (a :: rest) !! k = Some x → p !! (i + S k)%nat = Some x) as Hat.
    { intros k x Hx. replace (i + S k)%nat with (S i + k)%nat by lia.
      now apply (drop_lookup p (a :: rest)). }
    assert (∀ k, drop (i + S k) p = drop k (a :: rest)) as Hdrop.
    { intros k. rewrite <- Ed, drop_drop. f_equal. lia. }
    destruct (tag =? 0) eqn:E0; [|destruct (tag =? 1) eqn:E1]; cbn [orb] in Hcs.
    + destruct rest as [|b [|t rest']]; try now destruct Hcs.
      destruct (flush result path) as [result' path'].
      rewrite (index_at p (i + 1) a _ (Hat 0%nat a eq_refl)).
      rewrite (index_at p (i + 2) b _ (Hat 1%nat b eq_refl)).
      apply IH; [lia|]. rewrite (Hdrop 3%nat). cbn [drop].
      exact (coordinates_rest _ _ Hcs).
    + destruct rest as [|b [|t rest']]; try now destruct Hcs.
      rewrite (index_at p (i + 1) a _ (Hat 0%nat a eq_refl)).
      rewrite (index_at p (i + 2) b _ (Hat 1%nat b eq_refl)).
      apply IH; [lia|]. rewrite (Hdrop 3%nat). cbn [drop].
      exact (coordinates_rest _ _ Hcs).
    + destruct (tag =? 2) eqn:E2; [|destruct (tag =? 3) eqn:E3; [|now destruct Hcs]].
      * destruct rest as [|b1 [|a2 [|b2 [|t rest']]]]; try now destruct Hcs.
        rewrite (index_at p (i + 1) a _ (Hat 0%nat a eq_refl)).
        rewrite (index_at p (i + 2) b1 _ (Hat 1%nat b1 eq_refl)).
        rewrite (index_at p (i + 3) a2 _ (Hat 2%nat a2 eq_refl)).
        rewrite (index_at p (i + 4) b2 _ (Hat 3%nat b2 eq_refl)).
        destruct (CreateQuadraticBezier_outcome cx cy (Unfix a) (Unfix b1) (Unfix a2)
                    (Unfix b2)) as [(q & qs & ->)| ->]; [|reflexivity].
        cbn [mbind outcome_bind]. apply IH; [lia|]. rewrite (Hdrop 5%nat). cbn [drop].
        exact (coordinates_rest _ _ Hcs).
      * destruct rest as [|b1 [|a2 [|b2 [|a3 [|b3 [|t rest']]]]]]; try now destruct Hcs.
        rewrite (index_at p (i + 1) a _ (Hat 0%nat a eq_refl)).
        rewrite (index_at p (i + 2) b1 _ (Hat 1%nat b1 eq_refl)).
        rewrite (index_at p (i + 3) a2 _ (Hat 2%nat a2 eq_refl)).
        rewrite (index_at p (i + 4) b2 _ (Hat 3%nat b2 eq_refl)).
        rewrite (index_at p (i + 5) a3 _ (Hat 4%nat a3 eq_refl)).
        rewrite (index_at p (i + 6) b3 _ (Hat 5%nat b3 eq_refl)).
        destruct (CreateCubicBezier_outcome cx cy (Unfix a) (Unfix b1) (Unfix a2)
                    (Unfix b2) (Unfix a3) (Unfix b3)) as [(q & qs & ->)| ->];
          [|reflexivity].
        cbn [mbind outcome_bind]. apply IH; [lia|]. rewrite (Hdrop 7%nat). cbn [drop].
        exact (coordinates_rest _ _ Hcs).
Qed.

Lemma flattenPath_built (p : Path) : on_pixel_grid p = true → built (flattenPath p).
Proof.
  intros Hp. unfold flattenPath. apply flattenLoop_built.
  - lia.
  - rewrite drop_0. unfold on_pixel_grid in Hp.
    destruct (coordinates p); [eauto | discriminate].
Qed.

Lemma run_sound_grid c script :
  ∀ h h', sound c h → grid_at c h → run c script h = Ok h' → sound c h' ∧ grid_at c h'.
Proof.
  induction script as [|k rest IH]; simpl; intros h h' Hs Hg Hr.
  - now apply Ok_inj in Hr as <-.
  - unbind. apply (IH a h'); [| |exact Hr].
    + eapply call_sound_Ok; eassumption.
    + eapply call_grid; eassumption.
Qed.

(** X24: what the canvas builds, it can render.  After any sequence of
    calls on a canvas that was sound and had its programs on the pixel grid
    (a new canvas is), [fill] returns, and [stroke] returns unless a curve
    of the path is too long to allocate or, with a dash pattern, the dash
    loop does not end: neither ever meets a bad path, reads past the end of
    a program or follows a nil pointer. *)
Theorem built_paths_render (c : ptr) (script : list Call) (h h' : heap) (cv : Canvas)
    (fuel : nat) (r : Rasterizer) (p : Painter) :
  sound c h → grid_at c h → run c script h = Ok h' → h' !! c = Some cv →
  (∃ res, Render.fill cv r p = Ok res)
  ∧ match Render.stroke fuel cv r p with
    | Ok _ => True
    | Panic why => why = MakeSliceLen
    | OutOfFuel => (0 < length (dashes cv))%nat
    end.
Proof.
  intros Hs Hg Hr Hc.
  destruct (run_sound_grid c script h h' Hs Hg Hr) as [(cv0 & Hc0 & Hcur & _) Hg'].
  rewrite Hc in Hc0. injection Hc0 as <-. destruct (Hg' cv Hc) as [Hstroke _].
  split.
  - unfold Render.fill. unfold cursor_ok in Hcur. destruct (hasCurrent cv).
    + destruct (start cv); [|discriminate]. simpl. eauto.
    + simpl. eauto.
  - unfold Render.stroke. pose proof (flattenPath_built _ Hstroke) as Hb.
    destruct (Nat.ltb_spec 0 (length (dashes cv))) as [Hd|Hd].
    + destruct (flattenPath (strokePath cv)) as [polylines| |]; simpl in *; trivial.
      pose proof (dashPath_dashed fuel polylines (dashes cv) Hd) as Hp.
      destruct (dashPath fuel polylines (dashes cv)); simpl in *; trivial.
      contradiction.
    + destruct (flattenPath (strokePath cv)) as [polylines| |]; simpl in *; trivial.
      contradiction.
Qed.
End Renders.

Lemma fresh_heap_grid : grid_at 1%positive fresh_heap.
Proof. intros cv [= <-]. now split. Qed.

Lemma built_paths_render_witness :
  ∃ h' cv,
    @run sample 1%positive sample_script fresh_heap = Ok h'
    ∧ h' !! 1%positive = Some cv
    ∧ (∃ res, Render.fill cv idle_rasterizer AlphaOverPainter = Ok res)
    ∧ match @Render.stroke sample 20 cv idle_rasterizer AlphaOverPainter with
      | Ok _ => True
      | Panic why => why = MakeSliceLen
      | OutOfFuel => (0 < length (dashes cv))%nat
      end.
Proof.
  destruct (@run sample 1%positive sample_script fresh_heap) as [h'| |] eqn:Hr;
    [|vm_compute in Hr; discriminate Hr..].
  destruct (h' !! 1%positive) as [cv|] eqn:Hc;
    [|vm_compute in Hr; apply Ok_inj in Hr; subst h'; vm_compute in Hc; discriminate Hc].
  exists h', cv. split; [reflexivity|]. split; [exact Hc|].
  exact (@built_paths_render sample 1%positive sample_script fresh_heap h' cv 20
           idle_rasterizer AlphaOverPainter fresh_heap_sound fresh_heap_grid Hr Hc).
Defined.

(** ** Arcs and polygons *)

Section Arcs.
Context `{Externals}.

Lemma QuadraticTo_stroke c x1 y1 x2 y2 :
  cursor_ok c = true → hasCurrent c = true →
  ∃ c' b d, Canvas.QuadraticTo c x1 y1 x2 y2 = Ok c'
            ∧ strokePath c' = strokePath c ++ [2; PX b; PY b; PX d; PY d; 2]
            ∧ hasCurrent c' = true ∧ cursor_ok c' = true ∧ start c' = start c.
Proof.
  intros Hc Hh. unfold Canvas.QuadraticTo. rewrite Hh. cbn [negb mbind outcome_bind].
  destruct (Canvas.TransformPoint c x1 y1) as [tx1 ty1],
    (Canvas.TransformPoint c x2 y2) as [tx2 ty2].
  eexists _, (Vector.Fixed (NewVector tx1 ty1)), (Vector.Fixed (NewVector tx2 ty2)).
  split; [reflexivity|]. unfold cursor_ok in *. cbn. rewrite Hh in *.
  repeat split; trivial. now destruct (start c).
Qed.

Lemma arcRounds_curves k :
  ∀ i x y rx ry a1 a2 c,
    0 < i → cursor_ok c = true → hasCurrent c = true →
    ∃ c' qs, Canvas.arcRounds k i x y rx ry a1 a2 c = Ok c'
             ∧ length qs = k
             ∧ strokePath c'
               = strokePath c
                 ++ flat_map (λ q, [2; PX (fst q); PY (fst q); PX (snd q); PY (snd q); 2]) qs
             ∧ hasCurrent c' = true ∧ cursor_ok c' = true ∧ start c' = start c.
Proof.
  induction k as [|k IH]; intros i x y rx ry a1 a2 c Hi Hc Hh.
  - exists c, []. simpl. rewrite app_nil_r. now repeat split.
  - cbn [Canvas.arcRounds]. destruct (Z.eqb_spec i 0) as [->|_]; [lia|].
    cbn [mbind outcome_bind].
    edestruct (QuadraticTo_stroke c) as (c1 & b & d & -> & Hs1 & Hh1 & Hc1 & Hst1);
      [exact Hc | exact Hh |].
    cbn [mbind outcome_bind].
    destruct (IH (i + 1) x y rx ry a1 a2 c1 ltac:(lia) Hc1 Hh1)
      as (c' & qs & -> & Hlen & Hs & Hh' & Hc' & Hst').
    exists c', ((b, d) :: qs). split; [reflexivity|]. split; [simpl; lia|].
    split; [|repeat split; congruence].
    rewrite Hs, Hs1, <- app_assoc. reflexivity.
Qed.

Lemma first_point (c : Canvas) (x0 y0 : float) :
  cursor_ok c = true →
  ∃ c0, (if hasCurrent c then Canvas.LineTo c x0 y0 else Canvas.MoveTo c x0 y0) = Ok c0
        ∧ strokePath c0
          = strokePath c
            ++ [if hasCurrent c then 1 else 0;
                PX (Vector.Fixed (transformed c (NewVector x0 y0)));
                PY (Vector.Fixed (transformed c (NewVector x0 y0)));
                if hasCurrent c then 1 else 0]
        ∧ hasCurrent c0 = true ∧ cursor_ok c0 = true.
Proof.
  intros Hc. destruct (hasCurrent c) eqn:Hh.
  - destruct (LineTo_ok c x0 y0 Hc) as (c0 & Hl & Hc0). exists c0.
    split; [exact Hl|]. split; [exact (LineTo_stroke _ _ _ _ Hl Hh)|].
    split; [apply (LineTo_cursor _ _ _ _ Hl Hh) | exact Hc0].
  - destruct (MoveTo_ok c x0 y0 Hc) as (c0 & Hm & Hc0). exists c0.
    split; [exact Hm|]. split; [exact (MoveTo_stroke _ _ _ _ Hm)|].
    split; [apply (MoveTo_cursor _ _ _ _ Hm) | exact Hc0].
Qed.

Lemma arcRounds_first k (c : Canvas) (x y rx ry angle1 angle2 : float) :
  cursor_ok c = true →
  ∃ c' p0 qs,
    Canvas.arcRounds (S k) 0 x y rx ry angle1 angle2 c = Ok c'
    ∧ length qs = S k
    ∧ strokePath c'
      = strokePath c
        ++ [if hasCurrent c then 1 else 0; PX p0; PY p0; if hasCurrent c then 1 else 0]
        ++ flat_map (λ q, [2; PX (fst q); PY (fst q); PX (snd q); PY (snd q); 2]) qs
    ∧ hasCurrent c' = true.
Proof.
  intros Hc. cbn [Canvas.arcRounds Z.eqb].
  match goal with
  | |- context [if hasCurrent c then Canvas.LineTo c ?a ?b else _] =>
      destruct (first_point c a b Hc) as (c0 & -> & Hs0 & Hh0 & Hc0);
      set (p0 := Vector.Fixed (transformed c (NewVector a b))) in *
  end.
  cbn [mbind outcome_bind].
  edestruct (QuadraticTo_stroke c0) as (c1 & b & d & -> & Hs1 & Hh1 & Hc1 & _);
    [exact Hc0 | exact Hh0 |].
  cbn [mbind outcome_bind].
  destruct (arcRounds_curves k (0 + 1) x y rx ry angle1 angle2 c1 ltac:(lia) Hc1 Hh1)
    as (c' & qs & -> & Hlen & Hs & Hh' & _).
  exists c', p0, ((b, d) :: qs).
  split; [reflexivity|]. split; [simpl; lia|]. split; [|exact Hh'].
  rewrite Hs, Hs1, Hs0, <- !app_assoc. reflexivity.
Qed.

(** X25: an arc is always sixteen curves, whatever its radii and its sweep.
    On a canvas with a sound cursor [DrawEllipticalArc] returns, and adds
    to the stroke program one command for its first point (a line when
    there is a current point, a start when there is none) followed by
    sixteen quadratic commands; it leaves a current point. *)
Theorem arc_is_sixteen_curves (c : Canvas) (x y rx ry angle1 angle2 : float) :
  cursor_ok c = true →
  ∃ c' p0 qs,
    Canvas.DrawEllipticalArc c x y rx ry angle1 angle2 = Ok c'
    ∧ length qs = 16%nat
    ∧ strokePath c'
      = strokePath c
        ++ [if hasCurrent c then 1 else 0; PX p0; PY p0; if hasCurrent c then 1 else 0]
        ++ flat_map (λ q, [2; PX (fst q); PY (fst q); PX (snd q); PY (snd q); 2]) qs
    ∧ hasCurrent c' = true.
Proof. intros Hc. unfold Canvas.DrawEllipticalArc. now apply (arcRounds_first 15). Qed.

Lemma polygonRounds_lines k :
  ∀ i x y r rotation angle c,
    cursor_ok c = true → hasCurrent c = true →
    ∃ c' ps, Canvas.polygonRounds k i x y r rotation angle c = Ok c'
             ∧ length ps = k
             ∧ strokePath c' = strokePath c ++ flat_map (λ p, [1; PX p; PY p; 1]) ps
             ∧ hasCurrent c' = true ∧ cursor_ok c' = true ∧ start c' = start c.
Proof.
  induction k as [|k IH]; intros i x y r rotation angle c Hc Hh.
  - exists c, []. simpl. rewrite app_nil_r. now repeat split.
  - cbn [Canvas.polygonRounds].
    set (px := (x + r * Cos _)%float). set (py := (y + r * Sin _)%float).
    destruct (LineTo_ok c px py Hc) as (c1 & Hl & Hc1). rewrite Hl.
    cbn [mbind outcome_bind].
    pose proof (LineTo_stroke _ _ _ _ Hl Hh) as Hs1.
    destruct (LineTo_cursor _ _ _ _ Hl Hh) as (Hst1 & _ & Hh1).
    destruct (IH (i + 1) x y r rotation angle c1 Hc1 Hh1)
      as (c' & ps & -> & Hlen & Hs & Hh' & Hc' & Hst').
    exists c', (Vector.Fixed (transformed c (NewVector px py)) :: ps).
    split; [reflexivity|]. split; [simpl; lia|].
    split; [|repeat split; congruence].
    rewrite Hs, Hs1. unfold Path_Add1. rewrite <- app_assoc. reflexivity.
Qed.

(** X26: [DrawRegularPolygon] on a canvas with a sound cursor returns for
    every [n].  With [n] zero or negative it draws nothing: the stroke
    program is as before, and there is no current point.  With [n]
    positive it adds one closed subpath of [n] corners: a start, [n - 1]
    lines, and the line back to the start, where it leaves the current
    point. *)
Theorem polygon_has_n_corners (c : Canvas) (n : Z) (x y r rotation : float) :
  cursor_ok c = true →
  ∃ c', Canvas.DrawRegularPolygon c n x y r rotation = Ok c'
        ∧ (n <= 0 → strokePath c' = strokePath c ∧ hasCurrent c' = false)
        ∧ (0 < n →
           ∃ p0 ps, Z.of_nat (length ps) = n - 1
                    ∧ strokePath c'
                      = strokePath c ++ [0; PX p0; PY p0; 0]
                        ++ flat_map (λ p, [1; PX p; PY p; 1]) ps
                        ++ [1; PX p0; PY p0; 1]
                    ∧ current c' = start c' ∧ hasCurrent c' = true).
Proof.
  intros Hc. unfold Canvas.DrawRegularPolygon. cbv zeta.
  set (angle := (Canvas.two_pi / float64_of_int n)%float).
  set (rot := if Z.rem n 2 =? 0 then _ else _).
  destruct (NewSubPath_ok c Hc) as (c0 & H0 & Hc0). rewrite H0.
  cbn [mbind outcome_bind]. destruct (NewSubPath_stroke _ _ H0) as [Hs0 Hh0].
  destruct (Z.to_nat n) as [|k] eqn:Ek.
  - cbn [Canvas.polygonRounds mbind outcome_bind]. unfold Canvas.ClosePath.
    rewrite Hh0. exists c0. split; [reflexivity|].
    split; [intros _; now split | intros Hn; lia].
  - cbn [Canvas.polygonRounds].
    set (px := (x + r * Cos _)%float). set (py := (y + r * Sin _)%float).
    destruct (LineTo_ok c0 px py Hc0) as (c1 & Hl & Hc1). rewrite Hl.
    cbn [mbind outcome_bind].
    assert (Canvas.MoveTo c0 px py = Ok c1) as Hm.
    { unfold Canvas.LineTo in Hl. now rewrite Hh0 in Hl. }
    pose proof (MoveTo_stroke _ _ _ _ Hm) as Hs1.
    destruct (MoveTo_cursor _ _ _ _ Hm) as (Hst1 & _ & Hh1).
    destruct (polygonRounds_lines k (0 + 1) x y r rot angle c1 Hc1 Hh1)
      as (c2 & ps & -> & Hlen & Hs2 & Hh2 & Hc2 & Hst2).
    cbn [mbind outcome_bind].
    destruct (ClosePath_ok c2 Hc2) as (c3 & H3 & Hc3). exists c3.
    split; [exact H3|]. split; [intros Hn; lia|]. intros Hn.
    rewrite Hst1 in Hst2.
    destruct (ClosePath_stroke _ _ _ H3 Hh2 Hst2) as (Hs3 & Hst3 & Hcur3 & Hh3).
    exists (Vector.Fixed (transformed c0 (NewVector px py))), ps.
    split; [lia|]. split; [|split; [congruence | exact Hh3]].
    rewrite Hs3, Hs2, Hs1, Hs0. unfold Path_Add1, Path_Start.
    rewrite <- !app_assoc. reflexivity.
Qed.
End Arcs.

Lemma flat_map_length_const {A B} (f : A → list B) (k : nat) (l : list A) :
  (∀ x, length (f x) = k) → length (flat_map f l) = (k * length l)%nat.
Proof.
  intros Hf. induction l as [|x l IH]; simpl; [lia|]. rewrite length_app, Hf, IH. lia.
Qed.

Lemma arc_is_sixteen_curves_witness :
  ∃ c', @Canvas.DrawEllipticalArc sample (NewCanvas 2%positive 2 2) 1 1 1 1 0 pi_2 = Ok c'
        ∧ length (strokePath c') = 100%nat
        ∧ hasCurrent c' = true.
Proof.
  destruct (@arc_is_sixteen_curves sample (NewCanvas 2%positive 2 2) 1 1 1 1 0 pi_2
              eq_refl) as (c' & p0 & qs & Hd & Hlen & Hs & Hh).
  exists c'. split; [exact Hd|]. split; [|exact Hh].
  rewrite Hs, !length_app.
  rewrite (flat_map_length_const _ 6) by reflexivity.
  rewrite Hlen. reflexivity.
Defined.

Lemma polygon_has_n_corners_witness :
  ∃ c', @Canvas.DrawRegularPolygon sample (NewCanvas 2%positive 2 2) 3 1 1 1 0 = Ok c'
        ∧ length (strokePath c') = 16%nat
        ∧ current c' = start c' ∧ hasCurrent c' = true.
Proof.
  destruct (@polygon_has_n_corners sample (NewCanvas 2%positive 2 2) 3 1 1 1 0 eq_refl)
    as (c' & Hd & _ & Hpos).
  destruct (Hpos ltac:(lia)) as (p0 & ps & Hlen & Hs & Hcur & Hh).
  exists c'. split; [exact Hd|]. split; [|split; assumption].
  rewrite Hs, !length_app.
  rewrite (flat_map_length_const _ 4) by reflexivity.
  simpl. lia.
Defined.

(** ** InvertY *)

(** Multiplying by minus one is exact: it is the negation. *)
Lemma mul_m1_l (x : float) : is_finite x = true → (-1 * x)%float = (- x)%float.
Proof.
  intros Hx. apply Prim2SF_inj. rewrite mul_spec, opp_spec.
  change (Prim2SF (-1)) with (S754_finite true 4503599627370496 (-52)).
  destruct (is_finite_cases x Hx) as [[s ->]|(s & m & e & -> & Hb)].
  - reflexivity.
  - unfold SF64mul, SFmul. cbn [xorb SFopp].
    change (4503599627370496 * m)%positive with (Pos.iter xO m 52).
    replace (S754_finite (negb s) m e) with (S754_finite (negb s) m (-52 + e + 52))
      by (f_equal; lia).
    apply round_shifted. now replace (-52 + e + 52) with e by lia.
Qed.

(** A difference is the sum with the opposite. *)
Lemma sub_as_add (a b : float) : (a - b)%float = (a + - b)%float.
Proof.
  apply Prim2SF_inj. rewrite sub_spec, add_spec, opp_spec.
  unfold SF64sub, SFsub, SF64add, SFadd.
  destruct (Prim2SF a) as [sa|sa| |sa ma ea], (Prim2SF b) as [sb|sb| |sb mb eb];
    cbn [SFopp]; try reflexivity; now destruct sa, sb.
Qed.

(** Sums of floats that stand for [a] and [b] stand for the sum of these. *)
Lemma stands_add_both (a a' b b' : float) :
  is_finite a = true → is_finite b = true →
  stands_for a a' → stands_for b b' → stands_for (a + b) (a' + b').
Proof.
  intros Ha Hb [[Hza Hza']|[Hna ->]] [[Hzb Hzb']|[Hnb ->]].
  - left. split; now apply Zero_add.
  - destruct (is_finite_cases b Hb) as [Hzb|(s & m & e & Eb & _)]; [contradiction|].
    rewrite (Zero_add_l a b s m e Hza Eb), (Zero_add_l a' b s m e Hza' Eb).
    apply stands_for_refl.
  - destruct (is_finite_cases a Ha) as [Hza|(s & m & e & Ea & _)]; [contradiction|].
    rewrite (add_comm a b), (add_comm a b').
    rewrite (Zero_add_l b a s m e Hzb Ea), (Zero_add_l b' a s m e Hzb' Ea).
    apply stands_for_refl.
  - apply stands_for_refl.
Qed.

Section Flip.
Variables (h x y : float).
Hypothesis Hh : is_finite h = true.
Hypothesis Hx : is_finite x = true.
Hypothesis Hy : is_finite y = true.

Lemma flipped_matrix :
  ∃ y0, Matrix.Scale (Matrix.Translate Identity 0 h) 1 (-1)
        = {| XX := 1; YX := 0; XY := 0; YY := -1; X0 := 0; Y0 := y0 |}
        ∧ stands_for h y0.
Proof.
  unfold Matrix.Scale, Matrix.Translate, Matrix.Multiply, Scale, Translate, Identity.
  cbn [XX YX XY YY X0 Y0].
  assert ((0 * 1 + h * 0 + 0)%float = 0%float) as ->.
  { apply Zero_add_0. apply Zero_add; [exact Zero_0 | now apply weight_0_r]. }
  eexists. split; [reflexivity|].
  apply stands_add_l; [exact Hh | | exact Zero_0].
  apply stands_add_r; [exact Hh | | exact Zero_0].
  apply stands_add_l; [exact Hh | now apply weight_1_r | exact Zero_0].
Qed.

Lemma flipped_point :
  point_eqb (Matrix.TransformPoint (Matrix.Scale (Matrix.Translate Identity 0 h) 1 (-1)) x y)
    (x, h - y)%float = true.
Proof.
  destruct flipped_matrix as (y0 & -> & Hy0).
  unfold point_eqb, Matrix.TransformPoint. cbn [XX YX XY YY X0 Y0 fst snd].
  rewrite andb_true_iff. split.
  - apply stands_for_eqb; [exact Hx|].
    apply stands_add_r; [exact Hx | | exact Zero_0].
    apply stands_add_r; [exact Hx | now apply weight_1 | now apply weight_0].
  - rewrite (mul_m1_l y Hy), sub_as_add, (add_comm h (- y)).
    pose proof (opp_finite y Hy) as Hny.
    apply stands_eqb; [now apply add_not_nan|].
    apply stands_add_both; [exact Hny | exact Hh | | exact Hy0].
    apply stands_add_l; [exact Hny | apply stands_for_refl | now apply weight_0].
Qed.
End Flip.

Lemma float64_of_int_finite (n : Z) :
  0 <= n < 2 ^ 53 → is_finite (float64_of_int n) = true.
Proof.
  intros Hn. destruct n as [|p|p]; [reflexivity | | lia].
  rewrite is_finite_SF, (float64_of_int_exact p) by lia.
  unfold exact_float. now destruct (53 - Z.pos (digits2_pos p)).
Qed.

(** X27: [InvertY] turns the picture upside down.  On a canvas that has the
    identity matrix, as a new one has, and a height below 2^53, it leaves a
    transform that maps every finite point (x, y) to (x, height - y), up to
    Go's [==]: no rounding but that of the one subtraction. *)
Theorem InvertY_flips (c : Canvas) (x y : float) :
  matrix c = Identity → 0 <= height c < 2 ^ 53 →
  is_finite x = true → is_finite y = true →
  point_eqb (Canvas.TransformPoint (Canvas.InvertY c) x y)
    (x, float64_of_int (height c) - y)%float = true.
Proof.
  intros Hm Hh Hx Hy. apply float64_of_int_finite in Hh.
  unfold Canvas.InvertY, Canvas.TransformPoint, Canvas.Scale, Canvas.Translate.
  cbn [matrix set_matrix height]. rewrite Hm.
  now apply flipped_point.
Qed.

Lemma InvertY_flips_witness :
  point_eqb (Canvas.TransformPoint (Canvas.InvertY (NewCanvas 2%positive 640 480)) 10 20)
    (10, 460)%float = true.
Proof.
  apply (InvertY_flips (NewCanvas 2%positive 640 480) 10 20).
  - reflexivity.
  - vm_compute. split; [discriminate | reflexivity].
  - reflexivity.
  - reflexivity.
Defined.

(** ** A dash that makes no progress *)

Lemma sub_0_r (x : float) : (x - 0)%float = x.
Proof.
  apply Prim2SF_inj. rewrite sub_spec. change (Prim2SF 0) with (S754_zero false).
  unfold SF64sub, SFsub. destruct (Prim2SF x) as [s|s| |s m e]; try reflexivity.
  now destruct s.
Qed.

Lemma dashLoop_stuck (a b : Vector) (d0 : float) :
  (d0 <? Vector.Distance a b)%float = true →
  Vector.Interpolate a b (d0 / Vector.Distance a b) = a →
  ∀ fuel dashIndex segment result,
    (dashIndex < 2)%nat →
    dashLoop fuel [a; b] [d0; d0] a 1 dashIndex 0 segment result = OutOfFuel.
Proof.
  intros Hfar Hsame. induction fuel as [|fuel IH]; intros dashIndex segment result Hd;
    [reflexivity|].
  cbn [dashLoop length Nat.ltb Nat.leb negb].
  assert (index [d0; d0] dashIndex = Ok d0) as ->.
  { destruct dashIndex as [|[|?]]; [reflexivity | reflexivity | lia]. }
  cbn [index lookup list_lookup mbind outcome_bind].
  rewrite sub_0_r, Hfar, Hsame. apply IH. apply Nat.mod_upper_bound. lia.
Qed.

(** X28: a dash too short to move the cut point hangs the loop.  When the
    one dash length [d0] is less than the distance from [a] to [b] and the
    point that [Interpolate] computes for it is [a] again (the step is
    lost in rounding, or is zero), [dashPath] on the segment from [a] to
    [b] does not end, whatever the number of rounds it is given. *)
Theorem dash_without_progress_never_ends (a b : Vector) (d0 : float) (fuel : nat) :
  (d0 <? Vector.Distance a b)%float = true →
  Vector.Interpolate a b (d0 / Vector.Distance a b) = a →
  dashPath fuel [[a; b]] [d0] = OutOfFuel.
Proof.
  intros Hfar Hsame. unfold dashPath, dashAll, dashOne.
  now rewrite (dashLoop_stuck a b d0 Hfar Hsame fuel 0 [a] [] ltac:(lia)).
Qed.

Lemma dash_without_progress_never_ends_witness :
  dashPath 1000 [[NewVector 1 0; NewVector 17 0]] [0x1p-70%float] = OutOfFuel.
Proof.
  apply dash_without_progress_never_ends; vm_compute; reflexivity.
Defined.

(** ** No cubic command is ever written *)

Section Drawn.
Context `{Externals}.

Lemma written_snoc (ds : list Drawn) (d : Drawn) :
  written (ds ++ [d])
  = match d with
    | DStart a => Path_Start (written ds) a
    | DLine b => Path_Add1 (written ds) b
    | DCurve b c => Path_Add2 (written ds) b c
    end.
Proof. unfold written. now rewrite fold_left_app. Qed.

Lemma written_Start (p : Path) (a : Point26_6) :
  (∃ ds, p = written ds) → ∃ ds, Path_Start p a = written ds.
Proof. intros [ds ->]. exists (ds ++ [DStart a]). now rewrite written_snoc. Qed.

Lemma written_Add1 (p : Path) (b : Point26_6) :
  (∃ ds, p = written ds) → ∃ ds, Path_Add1 p b = written ds.
Proof. intros [ds ->]. exists (ds ++ [DLine b]). now rewrite written_snoc. Qed.

Lemma written_Add2 (p : Path) (b d : Point26_6) :
  (∃ ds, p = written ds) → ∃ ds, Path_Add2 p b d = written ds.
Proof. intros [ds ->]. exists (ds ++ [DCurve b d]). now rewrite written_snoc. Qed.

Lemma MoveTo_drawn c x y c' : Canvas.MoveTo c x y = Ok c' → drawn c → drawn c'.
Proof.
  unfold Canvas.MoveTo. intros Hm Hd. unbind.
  assert (drawn a) as [Hs Hf].
  { destruct Hd as [Hs Hf]. destruct (hasCurrent c); unbind; subst; [|now split].
    split; [exact Hs | now apply (written_Add1 (fillPath c))]. }
  destruct (Canvas.TransformPoint a x y) as [tx ty]. unbind. subst c'.
  split; [now apply (written_Start (strokePath a)) | now apply (written_Start (fillPath a))].
Qed.

Lemma LineTo_drawn c x y c' : Canvas.LineTo c x y = Ok c' → drawn c → drawn c'.
Proof.
  unfold Canvas.LineTo. destruct (negb (hasCurrent c)); [apply MoveTo_drawn|].
  destruct (Canvas.TransformPoint c x y). intros Hm [Hs Hf]. unbind. subst c'.
  split; [now apply (written_Add1 (strokePath c)) | now apply (written_Add1 (fillPath c))].
Qed.

Lemma QuadraticTo_drawn c x1 y1 x2 y2 c' :
  Canvas.QuadraticTo c x1 y1 x2 y2 = Ok c' → drawn c → drawn c'.
Proof.
  unfold Canvas.QuadraticTo. intros Hm Hd. unbind.
  assert (drawn a) as [Hs Hf].
  { destruct (negb (hasCurrent c)); [eapply MoveTo_drawn; eassumption|].
    unbind. now subst. }
  destruct (Canvas.TransformPoint a x1 y1), (Canvas.TransformPoint a x2 y2).
  unbind. subst c'.
  split; [now apply (written_Add2 (strokePath a)) | now apply (written_Add2 (fillPath a))].
Qed.

Lemma cubicPoints_drawn points :
  ∀ previous c, drawn c → drawn (Canvas.cubicPoints points previous c).
Proof.
  induction points as [|p rest IH]; intros previous c Hd; simpl; [exact Hd|].
  destruct (Point26_6_eqb _ _); apply IH; [exact Hd|].
  destruct Hd as [Hs Hf].
  split; [now apply (written_Add1 (strokePath c)) | now apply (written_Add1 (fillPath c))].
Qed.

Lemma CubicTo_drawn c x1 y1 x2 y2 x3 y3 c' :
  Canvas.CubicTo c x1 y1 x2 y2 x3 y3 = Ok c' → drawn c → drawn c'.
Proof.
  unfold Canvas.CubicTo. intros Hm Hd. unbind.
  assert (drawn a) as Ha'.
  { destruct (negb (hasCurrent c)); [eapply MoveTo_drawn; eassumption|].
    unbind. now subst. }
  destruct (Canvas.TransformPoint a x1 y1), (Canvas.TransformPoint a x2 y2),
    (Canvas.TransformPoint a x3 y3).
  unbind. destruct a1; unbind. subst c'. now apply cubicPoints_drawn.
Qed.

Lemma ClosePath_drawn c c' : Canvas.ClosePath c = Ok c' → drawn c → drawn c'.
Proof.
  unfold Canvas.ClosePath. destruct (hasCurrent c); intros Hm [Hs Hf]; unbind;
    subst; [|now split].
  split; [now apply (written_Add1 (strokePath c)) | now apply (written_Add1 (fillPath c))].
Qed.

Lemma NewSubPath_drawn c c' : Canvas.NewSubPath c = Ok c' → drawn c → drawn c'.
Proof.
  unfold Canvas.NewSubPath. intros Hm [Hs Hf]. unbind. subst c'.
  destruct (hasCurrent c); unbind; subst; [|now split].
  split; [exact Hs | now apply (written_Add1 (fillPath c))].
Qed.

Lemma through_drawn c f h h' :
  (∀ a a', f a = Ok a' → drawn a → drawn a') →
  drawn_at c h → through c f h = Ok h' → drawn_at c h'.
Proof.
  intros Hf Hs Ht. unfold through in Ht. unbind. subst h'.
  apply deref_Ok in Ha. intros cv. rewrite lookup_insert_eq. intros [= <-].
  eapply Hf; [exact Ha0|]. now apply Hs.
Qed.

Lemma call_drawn c k h h' : drawn_at c h → call c k h = Ok h' → drawn_at c h'.
Proof.
  intros Hs. destruct k; simpl;
    try (apply through_drawn; [|exact Hs]; intros a a' [= <-]; exact id).
  - apply through_drawn; [|exact Hs]. intros a a' [= <-].
    unfold Canvas.SetFillStyle. now destruct pattern.
  - apply through_drawn; [|exact Hs]. intros ? ?. apply MoveTo_drawn.
  - apply through_drawn; [|exact Hs]. intros ? ?. apply LineTo_drawn.
  - apply through_drawn; [|exact Hs]. intros ? ?. apply QuadraticTo_drawn.
  - apply through_drawn; [|exact Hs]. intros ? ?. apply CubicTo_drawn.
  - apply through_drawn; [|exact Hs]. intros ? ?. apply ClosePath_drawn.
  - apply through_drawn; [|exact Hs]. intros a a' [= <-] _. split; now exists [].
  - apply through_drawn; [|exact Hs]. intros ? ?. apply NewSubPath_drawn.
  - apply through_drawn; [|exact Hs]. intros a a' Hm.
    match type of Hm with context [deref ?o] => destruct o as [m|]; [|discriminate Hm] end.
    apply Ok_inj in Hm as <-. unfold Canvas.SetMask. now destruct (negb _).
  - apply through_drawn; [|exact Hs]. intros a a' [= <-].
    unfold Canvas.InvertMask. now destruct (mask a).
  - unfold Push. intros Hp. unbind. subst h'. apply deref_Ok in Ha.
    intros cv. rewrite lookup_insert_eq. intros [= <-]. exact (Hs a Ha).
  - unfold Pop. intros Hp. unbind. subst h'. apply deref_Ok in Ha.
    intros cv. rewrite lookup_insert_eq. intros [= <-]. exact (Hs a Ha).
Qed.

(** X29: the canvas never writes a cubic command.  Its two programs are
    made of starts, lines and quadratic curves only: this holds of a new
    canvas and goes on holding whatever is called on it; [CubicTo] turns
    its curve into lines itself. *)
Theorem programs_hold_no_cubic_command (c : ptr) (script : list Call) (h h' : heap) :
  drawn_at c h → run c script h = Ok h' → drawn_at c h'.
Proof.
  revert h. induction script as [|k rest IH]; simpl; intros h Hs Hr.
  - now apply Ok_inj in Hr as <-.
  - unbind. eapply IH; [|exact Hr]. eapply call_drawn; eassumption.
Qed.
End Drawn.

Lemma programs_hold_no_cubic_command_witness :
  ∃ h' cv ds fs,
    @run sample 1%positive sample_script fresh_heap = Ok h'
    ∧ h' !! 1%positive = Some cv
    ∧ strokePath cv = written ds ∧ fillPath cv = written fs
    ∧ strokePath cv ≠ [].
Proof.
  destruct (@run sample 1%positive sample_script fresh_heap) as [h'| |] eqn:Hr;
    [|vm_compute in Hr; discriminate Hr..].
  assert (drawn_at 1%positive fresh_heap) as Hd.
  { intros cv [= <-]. split; now exists []. }
  pose proof (@programs_hold_no_cubic_command sample 1%positive sample_script
                fresh_heap h' Hd Hr) as Hd'.
  destruct (h' !! 1%positive) as [cv|] eqn:Hc;
    [|vm_compute in Hr; apply Ok_inj in Hr; subst h'; vm_compute in Hc; discriminate Hc].
  destruct (Hd' cv Hc) as [[ds Hs] [fs Hf]].
  exists h', cv, ds, fs. repeat split; trivial.
  vm_compute in Hr. apply Ok_inj in Hr. subst h'. vm_compute in Hc.
  apply (f_equal (option_map strokePath)) in Hc. simpl in Hc. injection Hc as <-.
  discriminate.
Defined.

(** ** The line join of a canvas that was never given one *)

Section Join.
Context `{Externals}.

Lemma through_join c f h h' cv :
  (∀ a a', f a = Ok a' → lineJoin a' = lineJoin a) →
  h !! c = Some cv → through c f h = Ok h' →
  ∃ cv', h' !! c = Some cv' ∧ lineJoin cv' = lineJoin cv.
Proof.
  intros Hf Hc Ht. unfold through in Ht. rewrite Hc in Ht. simpl in Ht. unbind.
  subst h'. exists a. split; [apply lookup_insert_eq|]. now apply Hf.
Qed.

Lemma kept_join (a a' : Canvas) : kept a' = kept a → lineJoin a' = lineJoin a.
Proof. unfold kept. congruence. Qed.

Lemma call_join c k h h' cv :
  sound c h → h !! c = Some cv → leaves_join [k] = true → call c k h = Ok h' →
  ∃ cv', h' !! c = Some cv' ∧ lineJoin cv' = lineJoin cv.
Proof.
  intros (cv0 & Hc0 & _ & Hst) Hc Hk. rewrite Hc in Hc0. injection Hc0 as <-.
  destruct k; simpl; try discriminate Hk;
    try (apply through_join; [|exact Hc]; intros a a' [= <-]; reflexivity).
  - apply through_join; [|exact Hc]. intros a a' [= <-].
    unfold Canvas.SetFillStyle. now destruct pattern.
  - apply through_join; [|exact Hc]. intros a a' Hm. eapply kept_join, MoveTo_kept, Hm.
  - apply through_join; [|exact Hc]. intros a a' Hm. eapply kept_join, LineTo_kept, Hm.
  - apply through_join; [|exact Hc]. intros a a' Hm.
    eapply kept_join, QuadraticTo_kept, Hm.
  - apply through_join; [|exact Hc]. intros a a' Hm. eapply kept_join, CubicTo_kept, Hm.
  - apply through_join; [|exact Hc]. intros a a' Hm. eapply kept_join, ClosePath_kept, Hm.
  - apply through_join; [|exact Hc]. intros a a' Hm.
    eapply kept_join, NewSubPath_kept, Hm.
  - apply through_join; [|exact Hc]. intros a a' Hm.
    match type of Hm with context [deref ?o] => destruct o as [m|]; [|discriminate Hm] end.
    apply Ok_inj in Hm as <-. unfold Canvas.SetMask. now destruct (negb _).
  - apply through_join; [|exact Hc]. intros a a' [= <-].
    unfold Canvas.InvertMask. now destruct (mask a).
  - unfold Push. rewrite Hc. simpl. intros [= <-]. eexists.
    split; [apply lookup_insert_eq | reflexivity].
  - destruct (last (stack cv)) as [x|] eqn:El.
    + assert (x = c) as ->.
      { apply last_Some_elem_of in El. rewrite Forall_forall in Hst.
        symmetry. now apply Hst. }
      rewrite (Pop_own_address c h cv Hc El). intros [= <-]. now exists cv.
    + apply last_None in El. unfold Pop. rewrite Hc. simpl. rewrite El. discriminate.
Qed.

(** X30: the line-join constants start at 3, so the zero value that a new
    canvas has is none of them.  On a sound canvas whose line join is 0,
    after any sequence of calls that holds no [SetLineJoin] (pushes and
    pops included) the line join is still 0 and [joiner] returns nil,
    neither of the two joiners it knows. *)
Theorem join_is_nil_until_set (c : ptr) (script : list Call) (h h' : heap)
    (cv cv' : Canvas) :
  sound c h → h !! c = Some cv → lineJoin cv = 0 → leaves_join script = true →
  run c script h = Ok h' → h' !! c = Some cv' →
  lineJoin cv' = 0 ∧ Render.joiner cv' = None.
Proof.
  intros Hs Hc Hj Hl Hr Hc'.
  assert (lineJoin cv' = lineJoin cv) as Hsame.
  { clear Hj. revert h cv Hs Hc Hr.
    induction script as [|k rest IH]; intros h cv Hs Hc Hr; simpl in Hr.
    - apply Ok_inj in Hr as <-. congruence.
    - unbind. simpl in Hl. apply andb_true_iff in Hl as [Hk Hrest].
      destruct (call_join c k h a cv Hs Hc ltac:(simpl; now rewrite Hk) Ha)
        as (cv1 & Hc1 & Hj1).
      rewrite <- Hj1.
      exact (IH Hrest a cv1 (call_sound_Ok c k h a Hs Ha) Hc1 Hr). }
  rewrite Hj in Hsame. split; [exact Hsame|].
  unfold Render.joiner. now rewrite Hsame.
Qed.
End Join.

Lemma join_is_nil_until_set_witness :
  ∃ h' cv',
    @run sample 1%positive sample_script fresh_heap = Ok h'
    ∧ h' !! 1%positive = Some cv'
    ∧ lineJoin cv' = 0 ∧ Render.joiner cv' = None.
Proof.
  destruct (@run sample 1%positive sample_script fresh_heap) as [h'| |] eqn:Hr;
    [|vm_compute in Hr; discriminate Hr..].
  destruct (h' !! 1%positive) as [cv'|] eqn:Hc;
    [|vm_compute in Hr; apply Ok_inj in Hr; subst h'; vm_compute in Hc; discriminate Hc].
  exists h', cv'. split; [reflexivity|]. split; [exact Hc|].
  exact (@join_is_nil_until_set sample 1%positive sample_script fresh_heap h'
           (NewCanvas 2%positive 2 2) cv' fresh_heap_sound eq_refl eq_refl eq_refl Hr Hc).
Defined.
